(** * The taste subsystem of get-me-a-date: a shallow embedding

    The module [taste] keeps an S3 bucket of training images and an AWS
    Rekognition face collection in agreement, checks candidate photos out
    against that collection and promotes liked photos into the training set.

    The embedding follows the JavaScript source function by function.
    - JavaScript values that the code computes with (numbers, strings,
      [undefined], [null], [NaN]) are the type [jsval]; numbers are exact
      rationals, so the embedding abstracts from binary floating point
      rounding.
    - Photo objects are passed by reference and mutated in place: they live
      in a heap ([heap] of the [World]) and are addressed by index.
    - A bluebird promise is a state transformer on the [World] that settles
      as [Fulfilled] or [Rejected]. The callbacks of a [Promise.map] are run
      one after the other in list order, each to its end; that bluebird
      keeps two of them in flight is not modelled (see [P.map]).
    - The collaborators (HTTP client, sharp, S3, Rekognition, the settings
      table, the clock) answer through an [Env] of oracles, and every call
      is recorded in the [trace] of the world. *)

From Stdlib Require Import String List ZArith QArith Qround Bool Lia Ascii.
From Stdlib Require Import DecimalString Lqa.
From stdpp Require Import base list strings.
Import ListNotations.

Local Open Scope string_scope.
Local Open Scope list_scope.

(** ** JavaScript strings *)

Module JS.

(** [s.substring(1)] *)
Definition substring1 (s : string) : string :=
  match s with
  | EmptyString => EmptyString
  | String _ r => r
  end.

Fixpoint drop_chars (n : nat) (s : string) : string :=
  match n, s with
  | O, _ => s
  | S n', String _ r => drop_chars n' r
  | S _, EmptyString => EmptyString
  end.

(** [s.indexOf(sub) > -1], which is what [_.includes] does on a string. *)
Fixpoint str_includes (s sub : string) : bool :=
  String.prefix sub s ||
  match s with
  | EmptyString => false
  | String _ r => str_includes r sub
  end.

(** [_.includes(collection, value)] where the collection is a string or is
    missing ([undefined] has no values, so nothing is included). *)
Definition includes (collection : option string) (value : string) : bool :=
  match collection with
  | Some s => str_includes s value
  | None => false
  end.

(** [s.replace(pat, rep)] with a string pattern: the first occurrence only.
    The replacement strings of this module hold no [$] pattern. *)
Fixpoint replace (s pat rep : string) : string :=
  if String.prefix pat s then rep +:+ drop_chars (String.length pat) s
  else match s with
       | EmptyString => EmptyString
       | String c r => String c (replace r pat rep)
       end.

(** [_.split(s, sep)] for a one-character separator. *)
Fixpoint split (sep : ascii) (s : string) : list string :=
  match s with
  | EmptyString => [EmptyString]
  | String c r =>
      if Ascii.eqb c sep then EmptyString :: split sep r
      else match split sep r with
           | [] => [String c EmptyString]
           | h :: t => String c h :: t
           end
  end.

(** [parts[i]] inside a string concatenation: a missing element is
    [undefined] and prints as such. *)
Definition at_index (parts : list string) (i : nat) : string :=
  match parts !! i with
  | Some s => s
  | None => "undefined"
  end.

(** A value interpolated in a template literal. *)
Definition interpolate (v : option string) : string :=
  match v with
  | Some s => s
  | None => "undefined"
  end.

(** Truthiness of a string-or-missing value. *)
Definition truthy_str (v : option string) : bool :=
  match v with
  | Some EmptyString => false
  | Some _ => true
  | None => false
  end.

(** The digits of [remainder / denominator] after the decimal point, at
    most [places] of them. *)
Fixpoint fraction_digits (places : nat) (remainder denominator : Z)
    : string :=
  match places with
  | O => EmptyString
  | S places' =>
      if (remainder =? 0)%Z then EmptyString
      else
        String
          (ascii_of_N (48 + Z.to_N (remainder * 10 / denominator)))
          (fraction_digits places' (remainder * 10 mod denominator)
             denominator)
  end.

(** [String(x)] for a number [x]: its decimal digits. The numbers of the
    embedding are exact, so the digits are those of the rational, cut after
    17 places; the exponent notation of very large and very small numbers
    is left out. *)
Definition number_text (q : Q) : string :=
  let r := Qred q in
  let d := Zpos (Qden r) in
  let a := Z.abs (Qnum r) in
  (if (Qnum r <? 0)%Z then "-" else EmptyString) +:+
  NilZero.string_of_uint (N.to_uint (Z.to_N (a / d))) +:+
  (if (a mod d =? 0)%Z then EmptyString
   else "." +:+ fraction_digits 17 (a mod d) d).

(** The white space of ASCII. *)
Definition is_space (c : ascii) : bool :=
  match N_of_ascii c with
  | 9%N | 10%N | 11%N | 12%N | 13%N | 32%N => true
  | _ => false
  end.

Fixpoint trim_start (s : string) : string :=
  match s with
  | EmptyString => EmptyString
  | String c r => if is_space c then trim_start r else s
  end.

Fixpoint trim_end (s : string) : string :=
  match s with
  | EmptyString => EmptyString
  | String c r =>
      match trim_end r with
      | EmptyString => if is_space c then EmptyString else String c EmptyString
      | r' => String c r'
      end
  end.

(** The value of a digit in a radix, when it is one. *)
Definition digit_value (radix : Z) (c : ascii) : option Z :=
  let n := Z.of_N (N_of_ascii c) in
  let v :=
    if ((48 <=? n) && (n <=? 57))%Z then Some (n - 48)%Z
    else if ((97 <=? n) && (n <=? 102))%Z then Some (n - 87)%Z
    else if ((65 <=? n) && (n <=? 70))%Z then Some (n - 55)%Z
    else None in
  match v with
  | Some d => if (d <? radix)%Z then Some d else None
  | None => None
  end.

(** The digits at the start of a string: their value, their number, and
    what follows them. *)
Fixpoint read_digits (radix : Z) (s : string) (value : Z) (count : nat)
    : Z * nat * string :=
  match s with
  | EmptyString => (value, count, EmptyString)
  | String c r =>
      match digit_value radix c with
      | Some d => read_digits radix r (value * radix + d)%Z (S count)
      | None => (value, count, s)
      end
  end.

Definition scale (mantissa exponent : Z) : Q :=
  if (0 <=? exponent)%Z then inject_Z (mantissa * 10 ^ exponent)
  else Qred (mantissa # Z.to_pos (10 ^ (- exponent))).

(** The exponent part of a decimal literal, which ends the literal. *)
Definition read_exponent (s : string) : option Z :=
  match s with
  | EmptyString => Some 0%Z
  | String c r =>
      if (Ascii.eqb c "e" || Ascii.eqb c "E")%char then
        let '(negative, digits) :=
          match r with
          | String "-" r' => (true, r')
          | String "+" r' => (false, r')
          | _ => (false, r)
          end in
        match read_digits 10 digits 0 0 with
        | (e, S _, EmptyString) => Some (if negative then (- e)%Z else e)
        | _ => None
        end
      else None
  end.

Definition read_unsigned_decimal (s : string) : option Q :=
  let '(whole, whole_digits, after_whole) := read_digits 10 s 0 0 in
  let '(fraction, fraction_digits, after_fraction) :=
    match after_whole with
    | String "." r => read_digits 10 r 0 0
    | _ => (0%Z, 0%nat, after_whole)
    end in
  match (whole_digits + fraction_digits)%nat with
  | O => None
  | S _ =>
      match read_exponent after_fraction with
      | Some e =>
          Some (scale (whole * 10 ^ Z.of_nat fraction_digits + fraction)
                  (e - Z.of_nat fraction_digits))
      | None => None
      end
  end.

Definition read_radix (radix : Z) (s : string) : option Q :=
  match read_digits radix s 0 0 with
  | (v, S _, EmptyString) => Some (inject_Z v)
  | _ => None
  end.

(** [Number(s)] for a string [s], [None] for [NaN]: white space around the
    literal is dropped, the empty string is 0, and the literal is a decimal
    one with an optional sign, fraction and exponent, or an unsigned
    hexadecimal, octal or binary one. [Infinity], which the numbers of the
    embedding lack, reads as [NaN] here. *)
Definition string_to_number (s : string) : option Q :=
  match trim_end (trim_start s) with
  | EmptyString => Some 0%Q
  | String "0" (String "x" r) | String "0" (String "X" r) => read_radix 16 r
  | String "0" (String "o" r) | String "0" (String "O" r) => read_radix 8 r
  | String "0" (String "b" r) | String "0" (String "B" r) => read_radix 2 r
  | String "-" r =>
      match read_unsigned_decimal r with
      | Some q => Some (- q)%Q
      | None => None
      end
  | String "+" r => read_unsigned_decimal r
  | literal => read_unsigned_decimal literal
  end.

End JS.

(** ** JavaScript numbers and lodash arithmetic *)

Inductive jsval : Type :=
| JUndefined
| JNull
| JNaN
| JNum (q : Q)
| JStr (s : string).

Module Lodash.

(** [ToNumber]: [None] stands for [NaN]. *)
Definition to_number (v : jsval) : option Q :=
  match v with
  | JUndefined => None
  | JNull => Some 0%Q
  | JNaN => None
  | JNum q => Some q
  | JStr s => JS.string_to_number s
  end.

(** [ToString] *)
Definition to_text (v : jsval) : string :=
  match v with
  | JUndefined => "undefined"
  | JNull => "null"
  | JNaN => "NaN"
  | JNum q => JS.number_text q
  | JStr s => s
  end.

(** [a + b] on the values a similarity list can hold: the concatenation
    of the two texts when one of them is a string, the sum of the two
    numbers otherwise. *)
Definition add (a b : jsval) : jsval :=
  match a, b with
  | JStr _, _ | _, JStr _ => JStr (to_text a +:+ to_text b)
  | _, _ =>
      match to_number a, to_number b with
      | Some x, Some y => JNum (x + y)%Q
      | _, _ => JNaN
      end
  end.

(** SameValueZero against the number [0] and against [undefined]. *)
Definition is_zero (v : jsval) : bool :=
  match v with
  | JNum q => Qeq_bool q 0
  | _ => false
  end.

Definition is_undefined (v : jsval) : bool :=
  match v with
  | JUndefined => true
  | _ => false
  end.

(** [_.without(array, 0, undefined)] *)
Definition without_0_undefined (array : list jsval) : list jsval :=
  List.filter (fun v => negb (is_zero v || is_undefined v)) array.

(** [baseSum]: [undefined] entries are skipped, the first defined entry is
    taken as it is, later ones are added with [+]. *)
Fixpoint baseSum_from (result : jsval) (array : list jsval) : jsval :=
  match array with
  | [] => result
  | current :: rest =>
      if is_undefined current then baseSum_from result rest
      else baseSum_from
             (if is_undefined result then current else add result current) rest
  end.

Definition baseSum (array : list jsval) : jsval := baseSum_from JUndefined array.

(** [_.mean(array)]: [NaN] on the empty array, else [baseSum / length]. *)
Definition mean (array : list jsval) : jsval :=
  match array with
  | [] => JNaN
  | _ =>
      match to_number (baseSum array) with
      | Some s => JNum (s / inject_Z (Z.of_nat (List.length array)))%Q
      | None => JNaN
      end
  end.

(** [Math.round(q * 100) / 100], kept in lowest terms. *)
Definition round2_Q (q : Q) : Q :=
  Qred (Qfloor (q * 100 + (1 # 2)) # 100).

(** [_.round(v, 2)] *)
Definition round2 (v : jsval) : jsval :=
  match to_number v with
  | Some q => JNum (round2_Q q)
  | None => JNaN
  end.

(** [v || 0] *)
Definition or_zero (v : jsval) : jsval :=
  match v with
  | JNum q => if Qeq_bool q 0 then JNum 0 else v
  | JStr (String _ _) => v
  | _ => JNum 0
  end.

(** [a > b]: two strings are compared as texts, anything else as
    numbers. *)
Definition gt (a b : jsval) : bool :=
  match a, b with
  | JStr x, JStr y => String.ltb y x
  | _, _ =>
      match to_number a, to_number b with
      | Some x, Some y => negb (Qle_bool x y)
      | _, _ => false
      end
  end.

Definition lt (a b : jsval) : bool := gt b a.

(** [baseExtremum]: [null] and [undefined] are skipped, the first value that
    is not [NaN] starts the search, later values replace it when the
    comparator says so. *)
Fixpoint baseExtremum_from (cmp : jsval -> jsval -> bool)
    (computed : jsval) (array : list jsval) : jsval :=
  match array with
  | [] => computed
  | current :: rest =>
      let take :=
        match current with
        | JUndefined | JNull => false
        | _ =>
            if is_undefined computed
            then match current with JNaN => false | _ => true end
            else cmp current computed
        end in
      baseExtremum_from cmp (if take then current else computed) rest
  end.

Definition max (array : list jsval) : jsval := baseExtremum_from gt JUndefined array.
Definition min (array : list jsval) : jsval := baseExtremum_from lt JUndefined array.

(** [_.uniq]: the first occurrence of every value, in order. *)
Fixpoint uniq (l : list string) : list string :=
  match l with
  | [] => []
  | x :: r => x :: List.filter (fun y => negb (String.eqb x y)) (uniq r)
  end.

(** [_.difference(array, values)]: the entries of [array] that are not in
    [values], in order. *)
Definition difference (array values : list string) : list string :=
  List.filter (fun x => negb (existsb (String.eqb x) values)) array.

End Lodash.

(** ** Data model *)

(** A Node [Buffer]. *)
Definition Buffer := list Byte.byte.

(** An error object: [error.code] (absent on a plain [Error]) and
    [error.message]. *)
Record Err := { code : option string; message : string }.

Definition Error (msg : string) : Err := {| code := None; message := msg |}.

(** A photo record, as the check-out pipeline reads and writes it. *)
Record Photo := {
  url : string;
  similarity : jsval;
  similarity_date : option string
}.

Definition with_url (u : string) (p : Photo) : Photo :=
  {| url := u; similarity := similarity p;
     similarity_date := similarity_date p |}.

Definition with_similarity (s : jsval) (p : Photo) : Photo :=
  {| url := url p; similarity := s; similarity_date := similarity_date p |}.

Definition with_similarity_date (d : string) (p : Photo) : Photo :=
  {| url := url p; similarity := similarity p; similarity_date := Some d |}.

(** A face of the Rekognition collection. [FaceId] is the identifier the
    collection hands out: a counter value here, where Rekognition hands out
    UUIDs. [ExternalImageId] is the key of the image the face was found in. *)
Record FaceRecord := { FaceId : nat; ExternalImageId : string }.

Record Settings := { likePhotosThreshold : Q }.

(** What [url.parse] gives and the code reads. *)
Record Url := { href : string; pathname : string }.

Record HttpResponse := {
  body : Buffer;
  statusCode : nat;
  statusMessage : string
}.

(** The [this] of the module's functions. *)
Record Taste := { _rekognitionCollection : string; _s3Bucket : string }.

(** Options of [savePhoto]: [resize] is [{ width, height }], [rename] is
    [{ prepend }]. *)
Record Options := {
  resize : option (nat * nat);
  rename : option string
}.

Definition no_options : Options := {| resize := None; rename := None |}.

(** ** Calls to the collaborators and their record *)

(** What the module logs: the message of an error, or one of its three
    debug lines (the duration in the line of the synchronizer is left
    out). *)
Inductive LogMessage : Type :=
| MsgText (s : string)
| MsgSynced (available : option Z) (deleted : nat + string) (indexed : nat)
| MsgCompared (n : nat)
| MsgIndexed (n : nat).

Inductive Call : Type :=
| HttpGet (u : string)
| SharpResize (width height : nat)
| ListFaces
| ListObjects (prefix : string)
| IndexFaces (image : string)
| DeleteFaces (ids : list nat)
| SearchFacesByImage (image : Buffer)
| PutObject (key : string) (content : Buffer)
| DeleteObject (key : string)
| CopyObject (src dst : string)
| SettingsFindById (id : nat)
| SettingsCreate
| LogWarn (m : LogMessage)
| LogDebug (m : LogMessage).

(** [Incomplete] is an answer without the field the caller reads (an
    [indexFaces] response that carries no [FaceRecords]). *)
Inductive Outcome : Type :=
| Succeeded
| Incomplete
| Failed (e : Err).

Record Event := { ev_call : Call; ev_outcome : Outcome }.

(** The world the module runs in: the photo objects of its callers, the
    face collection with the next identifier it will hand out, the objects
    of the bucket, the settings row, and the calls made so far. *)
Record World := {
  heap : list Photo;
  faces : list FaceRecord;
  face_counter : nat;
  objects : list (string * Buffer);
  settings : option Settings;
  trace : list Event
}.

Definition record (c : Call) (o : Outcome) (w : World) : World :=
  {| heap := heap w; faces := faces w; face_counter := face_counter w;
     objects := objects w; settings := settings w;
     trace := trace w ++ [{| ev_call := c; ev_outcome := o |}] |}.

Definition set_heap (h : list Photo) (w : World) : World :=
  {| heap := h; faces := faces w; face_counter := face_counter w;
     objects := objects w; settings := settings w; trace := trace w |}.

Definition set_faces (f : list FaceRecord) (n : nat) (w : World) : World :=
  {| heap := heap w; faces := f; face_counter := n;
     objects := objects w; settings := settings w; trace := trace w |}.

Definition set_objects (o : list (string * Buffer)) (w : World) : World :=
  {| heap := heap w; faces := faces w; face_counter := face_counter w;
     objects := o; settings := settings w; trace := trace w |}.

Definition set_settings (s : option Settings) (w : World) : World :=
  {| heap := heap w; faces := faces w; face_counter := face_counter w;
     objects := objects w; settings := s; trace := trace w |}.

(** The surroundings of a run: the environment variable [AWS_REGION], the
    clock behind [new Date().toISOString()], Node's [url.parse], and the
    answers of the collaborators. An [_error] oracle says whether a call
    fails, an [_answer] oracle what it returns. Every oracle sees the world
    of the moment of the call (its trace included), so an answer may depend
    on what happened before. [indexFaces_answer] is an error, a response
    without [FaceRecords] ([None]) or the number of faces found;
    [searchFaces_answer] is an error or the [Similarity] of every match;
    [copyObject_source] is an error or the bytes found under the source
    name; [settings_defaults] is the row that [create({})] makes. *)
Record Env := {
  AWS_REGION : option string;
  toISOString_now : World -> string;
  url_parse : string -> Url;
  request_get : World -> string -> Err + HttpResponse;
  sharp_resize : World -> Buffer -> nat -> nat -> Err + Buffer;
  listFaces_error : World -> option Err;
  listObjects_error : World -> string -> option Err;
  indexFaces_answer : World -> string -> Err + option nat;
  deleteFaces_error : World -> list nat -> option Err;
  searchFaces_answer : World -> Buffer -> Err + list Q;
  putObject_error : World -> string -> Buffer -> option Err;
  deleteObject_error : World -> string -> option Err;
  copyObject_source : World -> string -> Err + Buffer;
  settings_error : World -> option Err;
  settings_defaults : Settings
}.

(** ** Promises *)

Inductive Settled (A : Type) : Type :=
| Fulfilled (a : A)
| Rejected (e : Err).
Arguments Fulfilled {A} a.
Arguments Rejected {A} e.

Definition Promise (A : Type) : Type := World -> World * Settled A.

Module P.

Definition resolve {A} (a : A) : Promise A := fun w => (w, Fulfilled a).

Definition reject {A} (e : Err) : Promise A := fun w => (w, Rejected e).

(** [p.then(f)] *)
Definition andThen {A B} (p : Promise A) (f : A -> Promise B) : Promise B :=
  fun w =>
    match p w with
    | (w', Fulfilled a) => f a w'
    | (w', Rejected e) => (w', Rejected e)
    end.

(** [p.catch(h)] *)
Definition catch {A} (p : Promise A) (h : Err -> Promise A) : Promise A :=
  fun w =>
    match p w with
    | (w', Fulfilled a) => (w', Fulfilled a)
    | (w', Rejected e) => h e w'
    end.

(** [Promise.props({ a: p, b: q })]: both promises are started when the
    object literal is built, [p] first; the result rejects when one of them
    does. *)
Definition props2 {A B} (p : Promise A) (q : Promise B) : Promise (A * B) :=
  fun w =>
    match p w with
    | (w1, ra) =>
        match q w1 with
        | (w2, rb) =>
            match ra, rb with
            | Fulfilled a, Fulfilled b => (w2, Fulfilled (a, b))
            | Rejected e, _ => (w2, Rejected e)
            | _, Rejected e => (w2, Rejected e)
            end
        end
    end.

(** [Promise.map(items, f, { concurrency: 2 })]. The embedding runs the
    callbacks one after the other in list order and stops at the first
    rejection. Bluebird itself keeps two callbacks in flight, takes the
    waiting items from the end of its queue, and lets a callback that is in
    flight run on when another one rejects: the order in which the calls
    of different callbacks come is not the same in the two. *)
Fixpoint map {A B} (f : A -> Promise B) (items : list A) : Promise (list B) :=
  match items with
  | [] => resolve []
  | x :: rest =>
      andThen (f x) (fun y =>
      andThen (map f rest) (fun ys => resolve (y :: ys)))
  end.

(** The same [Promise.map], in the same order, when its callback updates a
    local variable of the enclosing function ([indexedFaces++]): the
    variable is threaded through the items. *)
Fixpoint mapUpdating {A S} (f : A -> S -> Promise S) (items : list A) (s : S)
    : Promise S :=
  match items with
  | [] => resolve s
  | x :: rest => andThen (f x s) (fun s' => mapUpdating f rest s')
  end.

End P.

Declare Scope promise_scope.
Delimit Scope promise_scope with promise.
Notation "x <- p ;; k" := (P.andThen p (fun x => k))
  (at level 100, p at next level, right associativity) : promise_scope.
Notation "p ;;; k" := (P.andThen p (fun _ => k))
  (at level 100, right associativity) : promise_scope.
Local Open Scope promise_scope.

(** ** The collaborators

    The wrappers [utils/s3] and [utils/rekognition], the [database] module,
    the HTTP client, sharp and the logger are not part of the module under
    verification. Each of them is a call that is recorded in the trace,
    answers as the oracle says, and changes the world as its interface
    promises. *)

Module Logger.

(** Modelled from the spec: the logger is not in the sources;
    [Logger.warn(message)] writes the message to the log and resolves with
    the name of its level, the string [warn]. *)
Definition warn (msg : string) : Promise string :=
  fun w => (record (LogWarn (MsgText msg)) Succeeded w, Fulfilled "warn").

(** Modelled from the spec: the logger is not in the sources;
    [Logger.debug(message)] writes the message to the log. The module does
    not look at what it resolves with. *)
Definition debug (m : LogMessage) : Promise unit :=
  fun w => (record (LogDebug m) Succeeded w, Fulfilled tt).

End Logger.

Module Request.

(** Modelled from the spec: the HTTP client is not in the sources; GET a URL,
    returns [{statusCode, statusMessage, body}]. *)
Definition get (env : Env) (u : string) : Promise HttpResponse :=
  fun w =>
    match request_get env w u with
    | inl e => (record (HttpGet u) (Failed e) w, Rejected e)
    | inr r => (record (HttpGet u) Succeeded w, Fulfilled r)
    end.

End Request.

Module Sharp.

(** Modelled from the spec: the image library is not in the sources; given
    raw bytes and a target width and height, returns resized bytes. *)
Definition resize (env : Env) (image : Buffer) (width height : nat)
    : Promise Buffer :=
  fun w =>
    match sharp_resize env w image width height with
    | inl e => (record (SharpResize width height) (Failed e) w, Rejected e)
    | inr b => (record (SharpResize width height) Succeeded w, Fulfilled b)
    end.

End Sharp.

Module S3.

Definition remove_key (key : string) (objs : list (string * Buffer))
    : list (string * Buffer) :=
  List.filter (fun o => negb (String.eqb key (fst o))) objs.

Definition keys_with_prefix (prefix : string) (objs : list (string * Buffer))
    : list string :=
  List.filter (String.prefix prefix) (List.map fst objs).

(** Modelled from the spec: [utils/s3] is not in the sources;
    [listObjects(bucket, prefix)] returns the keys under the prefix. *)
Definition listObjects (env : Env) (bucket prefix : string)
    : Promise (list string) :=
  fun w =>
    match listObjects_error env w prefix with
    | Some e => (record (ListObjects prefix) (Failed e) w, Rejected e)
    | None => (record (ListObjects prefix) Succeeded w,
               Fulfilled (keys_with_prefix prefix (objects w)))
    end.

(** Modelled from the spec: [utils/s3] is not in the sources;
    [putObject(bucket, key, bytes)] stores the bytes under the key. *)
Definition putObject (env : Env) (bucket key : string) (data : Buffer)
    : Promise unit :=
  fun w =>
    match putObject_error env w key data with
    | Some e => (record (PutObject key data) (Failed e) w, Rejected e)
    | None =>
        (record (PutObject key data) Succeeded
           (set_objects ((key, data) :: remove_key key (objects w)) w),
         Fulfilled tt)
    end.

(** Modelled from the spec: [utils/s3] is not in the sources;
    [deleteObject(bucket, key)] removes the object of that key. *)
Definition deleteObject (env : Env) (bucket key : string) : Promise unit :=
  fun w =>
    match deleteObject_error env w key with
    | Some e => (record (DeleteObject key) (Failed e) w, Rejected e)
    | None =>
        (record (DeleteObject key) Succeeded
           (set_objects (remove_key key (objects w)) w),
         Fulfilled tt)
    end.

(** Modelled from the spec: [utils/s3] is not in the sources;
    [copyObject(bucket, srcKey, dstKey)] copies inside the bucket. How the
    wrapper resolves the source name is the oracle's answer. *)
Definition copyObject (env : Env) (bucket src dst : string) : Promise unit :=
  fun w =>
    match copyObject_source env w src with
    | inl e => (record (CopyObject src dst) (Failed e) w, Rejected e)
    | inr data =>
        (record (CopyObject src dst) Succeeded
           (set_objects ((dst, data) :: remove_key dst (objects w)) w),
         Fulfilled tt)
    end.

End S3.

Module Rekognition.

Record ListFacesResponse := { Faces : list FaceRecord }.

Record IndexFacesResponse := { FaceRecords : option (list FaceRecord) }.

Record SearchFacesResponse := { FaceMatches : list Q }.

Definition new_faces (image : string) (first n : nat) : list FaceRecord :=
  List.map (fun i => {| FaceId := first + i; ExternalImageId := image |})
    (seq 0 n).

Definition remove_ids (ids : list nat) (fs : list FaceRecord)
    : list FaceRecord :=
  List.filter (fun f => negb (existsb (Nat.eqb (FaceId f)) ids)) fs.

(** Modelled from the spec: [utils/rekognition] is not in the sources;
    [listFaces(collectionId)] returns the face records of the collection. *)
Definition listFaces (env : Env) (collection : string)
    : Promise ListFacesResponse :=
  fun w =>
    match listFaces_error env w with
    | Some e => (record ListFaces (Failed e) w, Rejected e)
    | None => (record ListFaces Succeeded w, Fulfilled {| Faces := faces w |})
    end.

(** Modelled from the spec: [utils/rekognition] is not in the sources;
    [indexFaces(collectionId, bucket, key)] detects the faces of the image,
    adds one record per face to the collection, each under a face id of its
    own and with the object key as [ExternalImageId], and returns them as
    [FaceRecords]; it may fail. The oracle says how many faces there are. *)
Definition indexFaces (env : Env) (collection bucket image : string)
    : Promise IndexFacesResponse :=
  fun w =>
    match indexFaces_answer env w image with
    | inl e => (record (IndexFaces image) (Failed e) w, Rejected e)
    | inr None =>
        (record (IndexFaces image) Incomplete w,
         Fulfilled {| FaceRecords := None |})
    | inr (Some n) =>
        let found := new_faces image (face_counter w) n in
        (record (IndexFaces image) Succeeded
           (set_faces (faces w ++ found) (face_counter w + n) w),
         Fulfilled {| FaceRecords := Some found |})
    end.

(** Modelled from the spec: [utils/rekognition] is not in the sources;
    [deleteFaces(collectionId, [faceId])] removes the records of these ids. *)
Definition deleteFaces (env : Env) (collection : string) (ids : list nat)
    : Promise unit :=
  fun w =>
    match deleteFaces_error env w ids with
    | Some e => (record (DeleteFaces ids) (Failed e) w, Rejected e)
    | None =>
        (record (DeleteFaces ids) Succeeded
           (set_faces (remove_ids ids (faces w)) (face_counter w) w),
         Fulfilled tt)
    end.

(** Modelled from the spec: [utils/rekognition] is not in the sources;
    [searchFacesByImage(collectionId, image)] returns the [Similarity] of
    every match as [FaceMatches]. *)
Definition searchFacesByImage (env : Env) (collection : string)
    (image : Buffer) : Promise SearchFacesResponse :=
  fun w =>
    match searchFaces_answer env w image with
    | inl e => (record (SearchFacesByImage image) (Failed e) w, Rejected e)
    | inr ms =>
        (record (SearchFacesByImage image) Succeeded w,
         Fulfilled {| FaceMatches := ms |})
    end.

End Rekognition.

Module Database.

(** Modelled from the spec: [database] is not in the sources; find-by-id of
    the settings row. *)
Definition settings_findById (env : Env) (id : nat)
    : Promise (option Settings) :=
  fun w =>
    match settings_error env w with
    | Some e => (record (SettingsFindById id) (Failed e) w, Rejected e)
    | None => (record (SettingsFindById id) Succeeded w,
               Fulfilled (settings w))
    end.

(** Modelled from the spec: [database] is not in the sources; [create({})]
    stores the row of defaults and returns it. *)
Definition settings_create (env : Env) : Promise Settings :=
  fun w =>
    match settings_error env w with
    | Some e => (record SettingsCreate (Failed e) w, Rejected e)
    | None =>
        (record SettingsCreate Succeeded
           (set_settings (Some (settings_defaults env)) w),
         Fulfilled (settings_defaults env))
    end.

End Database.

(** ** Photo objects *)

Module Heap.

Definition TypeError : Err :=
  Error "Cannot read properties of undefined".

(** Reading a property of the object behind a reference; a reference to
    nothing is the [null] photo. *)
Definition read (ref : nat) : Promise Photo :=
  fun w =>
    match heap w !! ref with
    | Some p => (w, Fulfilled p)
    | None => (w, Rejected TypeError)
    end.

Definition update (ref : nat) (f : Photo -> Photo) : Promise unit :=
  fun w =>
    match heap w !! ref with
    | Some p => (set_heap (<[ref := f p]> (heap w)) w, Fulfilled tt)
    | None => (w, Rejected TypeError)
    end.

(** [photo.url = u] *)
Definition set_url (ref : nat) (u : string) : Promise unit :=
  update ref (with_url u).

(** [photo.similarity = s] *)
Definition set_similarity (ref : nat) (s : jsval) : Promise unit :=
  update ref (with_similarity s).

(** [photo.similarity_date = d] *)
Definition set_similarity_date (ref : nat) (d : string) : Promise unit :=
  update ref (with_similarity_date d).

(** [_.clone(photo)]: a new object with the same fields. *)
Definition clone (ref : nat) : Promise nat :=
  fun w =>
    match heap w !! ref with
    | Some p => (set_heap (heap w ++ [p]) w, Fulfilled (List.length (heap w)))
    | None => (w, Rejected TypeError)
    end.

End Heap.

(** ** The module [taste] *)

Section TasteModule.

Variable env : Env.
Variable this : Taste.

(** [new Date().toISOString()] *)
Definition Date_now : Promise string :=
  fun w => (w, Fulfilled (toISOString_now env w)).

(** [_.some(['InvalidImageFormatException', 'InvalidParameterException'],
    (message) => _.includes(error.code, message))] *)
Definition invalid_image (error : Err) : bool :=
  existsb (fun msg => JS.includes (code error) msg)
    ["InvalidImageFormatException"; "InvalidParameterException"].

(** [deleteFaces]: the number of faces, or, when the call failed, what
    [Logger.warn] resolves with. *)
Definition deleteFaces (ids : list nat) : Promise (nat + string) :=
  P.catch
    (Rekognition.deleteFaces env (_rekognitionCollection this) ids ;;;
     P.resolve (inl (List.length ids)))
    (fun error =>
       level <- Logger.warn (message error) ;;
       P.resolve (inr level)).

(** The callback of [indexFacesFromImages] for one image; [indexedFaces] is
    the counter of the enclosing function. *)
Definition indexFacesFromImage (image : string) (indexedFaces : nat)
    : Promise nat :=
  P.catch
    (data <- Rekognition.indexFaces env (_rekognitionCollection this)
               (_s3Bucket this) image ;;
     match Rekognition.FaceRecords data with
     | None => P.resolve indexedFaces
     | Some records =>
         if negb (List.length records =? 1)%nat then
           Rekognition.deleteFaces env (_rekognitionCollection this)
             (List.map FaceId records) ;;;
           S3.deleteObject env (_s3Bucket this) image ;;;
           P.resolve indexedFaces
         else P.resolve (S indexedFaces)
     end)
    (fun error =>
       if invalid_image error then
         S3.deleteObject env (_s3Bucket this) image ;;;
         P.resolve indexedFaces
       else
         Logger.warn (message error) ;;;
         P.resolve indexedFaces).

Definition indexFacesFromImages (images : list string) : Promise nat :=
  P.mapUpdating indexFacesFromImage images 0%nat.

(** The key under which [savePhoto] stores the image. *)
Definition savePhoto_pathname (channelName : option string) (u : Url)
    (options : Options) : string :=
  let pathname :=
    JS.replace
      (JS.replace (JS.substring1 (pathname u)) "cache/images/" EmptyString)
      (_s3Bucket this +:+ "/photos/" +:+ JS.interpolate channelName +:+ "/")
      EmptyString in
  match rename options with
  | Some prepend =>
      JS.at_index (JS.split "/" pathname) 0 +:+ "/" +:+ prepend +:+
      JS.at_index (JS.split "/" pathname) 1
  | None => pathname
  end.

Definition download_error (u : Url) (r : HttpResponse) : Err :=
  Error ("Unable to download photo " +:+ href u +:+ " because of " +:+
         NilEmpty.string_of_uint (Nat.to_uint (statusCode r)) +:+ " " +:+
         statusMessage r).

(** [`photos/${channelName}/${pathname}`] *)
Definition savePhoto_key (channelName : option string) (pathname : string)
    : string :=
  "photos/" +:+ JS.interpolate channelName +:+ "/" +:+ pathname.

(** [`https://s3-${AWS_REGION}.amazonaws.com/${this._s3Bucket}/photos/${channelName}/${pathname}`] *)
Definition savePhoto_url (channelName : option string) (pathname : string)
    : string :=
  "https://s3-" +:+ JS.interpolate (AWS_REGION env) +:+ ".amazonaws.com/" +:+
  _s3Bucket this +:+ "/photos/" +:+ JS.interpolate channelName +:+ "/" +:+
  pathname.

(** [savePhoto]. [url.parse] returns an object for every string and an
    object is truthy, so the guard [if (!url)] cannot fire. *)
Definition savePhoto (channelName : option string) (photo : option nat)
    (options : Options) : Promise Buffer :=
  match JS.truthy_str channelName, photo with
  | true, Some photo =>
      p <- Heap.read photo ;;
      let u := url_parse env (url p) in
      response <- Request.get env (href u) ;;
      content <-
        (if negb (statusCode response =? 200)%nat
         then P.reject (download_error u response)
         else match resize options with
              | Some (width, height) =>
                  Sharp.resize env (body response) width height
              | None => P.resolve (body response)
              end) ;;
      let pathname := savePhoto_pathname channelName u options in
      S3.putObject env (_s3Bucket this) (savePhoto_key channelName pathname)
        content ;;;
      Heap.set_url photo (savePhoto_url channelName pathname) ;;;
      P.resolve content
  | _, _ => P.reject (Error "invalid arguments")
  end.

Definition compareFacesFromImage (photo : nat) (image : Buffer)
    : Promise jsval :=
  P.catch
    (response <- Rekognition.searchFacesByImage env
                   (_rekognitionCollection this) image ;;
     Heap.set_similarity photo
       (Lodash.or_zero
          (Lodash.round2
             (Lodash.max (List.map JNum (Rekognition.FaceMatches response))))) ;;;
     now <- Date_now ;;
     Heap.set_similarity_date photo now ;;;
     p <- Heap.read photo ;;
     P.resolve (similarity p))
    (fun error =>
       if invalid_image error then
         Heap.set_similarity photo (JNum 0) ;;;
         now <- Date_now ;;
         Heap.set_similarity_date photo now ;;;
         p <- Heap.read photo ;;
         P.resolve (similarity p)
       else P.reject error).

Definition checkPhotoOut (channelName : option string) (photo : nat)
    : Promise jsval :=
  p <- Heap.read photo ;;
  if JS.truthy_str (similarity_date p) then P.resolve (similarity p)
  else
    P.catch
      (image <- savePhoto channelName (Some photo) no_options ;;
       compareFacesFromImage photo image)
      (fun error =>
         level <- Logger.warn (message error) ;;
         P.resolve (JStr level)).

(** [syncS3BucketAndRekognitionCollection]: the two difference sets and the
    face ids to delete, from the listings. *)
Definition currentImages (Faces : list FaceRecord) : list string :=
  Lodash.uniq (List.map ExternalImageId Faces).

Definition imagesToDelete (Faces : list FaceRecord)
    (availableImages : list string) : list string :=
  Lodash.difference (currentImages Faces) availableImages.

Definition imagesToIndex (Faces : list FaceRecord)
    (availableImages : list string) : list string :=
  Lodash.difference availableImages (currentImages Faces).

Definition facesToDelete (Faces : list FaceRecord)
    (availableImages : list string) : list nat :=
  List.flat_map
    (fun externalImageId =>
       List.map FaceId
         (List.filter
            (fun f => String.eqb (ExternalImageId f) externalImageId) Faces))
    (imagesToDelete Faces availableImages).

(** [Faces.length - deletedFaces + indexedFaces]: [NaN] (here [None]) when
    [deletedFaces] is not the number of deleted faces but the level name
    that [Logger.warn] resolved with. *)
Definition available_faces (Faces : list FaceRecord)
    (deletedFaces : nat + string) (indexedFaces : nat) : option Z :=
  match deletedFaces with
  | inl d => Some (Z.of_nat (List.length Faces) - Z.of_nat d
                   + Z.of_nat indexedFaces)%Z
  | inr _ => None
  end.

Definition syncS3BucketAndRekognitionCollection : Promise unit :=
  listing <- P.props2
               (Rekognition.listFaces env (_rekognitionCollection this))
               (S3.listObjects env (_s3Bucket this) "train") ;;
  let Faces := Rekognition.Faces (fst listing) in
  let availableImages := snd listing in
  counts <- P.props2
              (deleteFaces (facesToDelete Faces availableImages))
              (indexFacesFromImages (imagesToIndex Faces availableImages)) ;;
  Logger.debug
    (MsgSynced (available_faces Faces (fst counts) (snd counts))
       (fst counts) (snd counts)).

Definition thumbnail_options : Options :=
  {| resize := Some (84, 84)%nat; rename := Some "84x84_" |}.

Definition mentalSnapshot (channelName : option string) (photo : option nat)
    : Promise string :=
  match JS.truthy_str channelName, photo with
  | true, Some photo =>
      thumbnail <- Heap.clone photo ;;
      savePhoto channelName (Some thumbnail) thumbnail_options ;;;
      t <- Heap.read thumbnail ;;
      P.resolve (url t)
  | _, _ => P.reject (Error "invalid arguments")
  end.

Definition findOrCreateNewSettings : Promise Settings :=
  found <- Database.settings_findById env 1 ;;
  match found with
  | None => Database.settings_create env
  | Some s => P.resolve s
  end.

Record CheckedOut := {
  faceSimilarities : list jsval;
  faceSimilarityMax : jsval;
  faceSimilarityMin : jsval;
  faceSimilarityMean : jsval;
  like : bool
}.

(** [_.filter(photos, (photo) => !photo.similarity_date)]. It runs before
    the promise chain: the [TypeError] of a [null] photo is thrown by
    [checkPhotosOut] itself, which the model shows as a rejection. *)
Fixpoint notCheckedOut (photos : list nat) : Promise (list nat) :=
  match photos with
  | [] => P.resolve []
  | photo :: rest =>
      p <- Heap.read photo ;;
      others <- notCheckedOut rest ;;
      P.resolve (if JS.truthy_str (similarity_date p) then others
                 else photo :: others)
  end.

(** The aggregation of [checkPhotosOut] once the similarity list is there. *)
Definition similarityMean (similarities : list jsval) : jsval :=
  Lodash.or_zero
    (Lodash.round2 (Lodash.mean (Lodash.without_0_undefined similarities))).

Definition decideLike (similarities : list jsval) (mean : jsval)
    (s : Settings) : bool :=
  negb (match similarities with [] => true | _ => false end) &&
  Lodash.gt mean (JNum (likePhotosThreshold s)).

Definition checkPhotosOut (channelName : option string)
    (photos : option (list nat)) : Promise CheckedOut :=
  match JS.truthy_str channelName, photos with
  | true, Some photos =>
      notCheckedOutPhotos <- notCheckedOut photos ;;
      similarities <- P.map (checkPhotoOut channelName) photos ;;
      let faceSimilarityMax := Lodash.max similarities in
      let faceSimilarityMin := Lodash.min similarities in
      let faceSimilarityMean := similarityMean similarities in
      s <- findOrCreateNewSettings ;;
      let like := decideLike similarities faceSimilarityMean s in
      (match notCheckedOutPhotos with
       | [] => P.resolve tt
       | _ => Logger.debug (MsgCompared (List.length notCheckedOutPhotos))
       end) ;;;
      P.resolve {| faceSimilarities := similarities;
                   faceSimilarityMax := faceSimilarityMax;
                   faceSimilarityMin := faceSimilarityMin;
                   faceSimilarityMean := faceSimilarityMean;
                   like := like |}
  | _, _ => P.reject (Error "invalid arguments")
  end.

(** The destination key of [acquireTaste]. *)
Definition trainingKey (srcKey : string) : string :=
  JS.replace srcKey ("/" +:+ _s3Bucket this +:+ "/photos") "train".

(** The callback of [acquireTaste] for one photo. As in [savePhoto], the
    guard [if (!url)] cannot fire. *)
Definition acquireTaste_copy (photo : nat) : Promise string :=
  p <- Heap.read photo ;;
  let u := url_parse env (url p) in
  let srcKey := pathname u in
  let dstKey := trainingKey srcKey in
  S3.copyObject env (_s3Bucket this) srcKey dstKey ;;;
  P.resolve dstKey.

Definition acquireTaste (photos : list nat) : Promise unit :=
  images <- P.map acquireTaste_copy photos ;;
  indexedFaces <- indexFacesFromImages images ;;
  Logger.debug (MsgIndexed indexedFaces).

End TasteModule.

(** ** Sample collaborators

    [Sample.parse] reads [url.parse] for absolute URLs: the path runs from
    the first [/] after the authority to the query or fragment. In
    [Sample.env] every download gives status 200 and every S3, sharp and
    database call succeeds; [index] is the answer of [indexFaces] for an
    image (an error, a response without [FaceRecords], or a number of
    faces) and [search] the answer of a face search. *)

Module Sample.

Fixpoint take_path (s : string) : string :=
  match s with
  | EmptyString => EmptyString
  | String c r =>
      if (Ascii.eqb c "?" || Ascii.eqb c "#")%char then EmptyString
      else String c (take_path r)
  end.

Fixpoint from_slash (s : string) : string :=
  match s with
  | EmptyString => EmptyString
  | String c r => if Ascii.eqb c "/" then s else from_slash r
  end.

Fixpoint after_scheme (s : string) : string :=
  if String.prefix "://" s then JS.drop_chars 3 s
  else match s with
       | EmptyString => EmptyString
       | String _ r => after_scheme r
       end.

Definition parse (u : string) : Url :=
  {| href := u;
     pathname :=
       if JS.str_includes u "://" then take_path (from_slash (after_scheme u))
       else take_path u |}.

Definition jpeg : Buffer := [Byte.xff; Byte.xd8; Byte.xff; Byte.xe0].

Definition thumb : Buffer := [Byte.xff; Byte.xd8].

Definition env (index : string -> Err + option nat) (search : Err + list Q)
    : Env :=
  {| AWS_REGION := Some "eu-west-1";
     toISOString_now := fun _ => "2017-06-01T10:00:00.000Z";
     url_parse := parse;
     request_get := fun _ _ =>
       inr {| body := jpeg; statusCode := 200; statusMessage := "OK" |};
     sharp_resize := fun _ _ _ _ => inr thumb;
     listFaces_error := fun _ => None;
     listObjects_error := fun _ _ => None;
     indexFaces_answer := fun _ image => index image;
     deleteFaces_error := fun _ _ => None;
     searchFaces_answer := fun _ _ => search;
     putObject_error := fun _ _ _ => None;
     deleteObject_error := fun _ _ => None;
     copyObject_source := fun _ _ => inr jpeg;
     settings_error := fun _ => None;
     settings_defaults := {| likePhotosThreshold := 80 |} |}.

(** An image shows as many faces as its name has [+] signs. *)
Fixpoint plus_signs (s : string) : nat :=
  match s with
  | EmptyString => 0
  | String c r => (if Ascii.eqb c "+" then 1 else 0) + plus_signs r
  end.

Definition faces_by_name (image : string) : Err + option nat :=
  inr (Some (plus_signs image)).

(** [e] with downloads answered by status [status]. *)
Definition with_status (status : nat) (message : string) (e : Env) : Env :=
  {| AWS_REGION := AWS_REGION e;
     toISOString_now := toISOString_now e;
     url_parse := url_parse e;
     request_get := fun _ _ =>
       inr {| body := []; statusCode := status; statusMessage := message |};
     sharp_resize := sharp_resize e;
     listFaces_error := listFaces_error e;
     listObjects_error := listObjects_error e;
     indexFaces_answer := indexFaces_answer e;
     deleteFaces_error := deleteFaces_error e;
     searchFaces_answer := searchFaces_answer e;
     putObject_error := putObject_error e;
     deleteObject_error := deleteObject_error e;
     copyObject_source := copyObject_source e;
     settings_error := settings_error e;
     settings_defaults := settings_defaults e |}.

Definition invalid_format : Err :=
  {| code := Some "InvalidImageFormatException";
     message := "Invalid image encoding" |}.

Definition throttled : Err :=
  {| code := Some "ThrottlingException"; message := "Rate exceeded" |}.

Definition taste : Taste :=
  {| _rekognitionCollection := "get-me-a-date-faces"; _s3Bucket := "bucket" |}.

Definition world (photos : list Photo) (fs : list FaceRecord)
    (objs : list (string * Buffer)) (threshold : option Q) : World :=
  {| heap := photos;
     faces := fs;
     face_counter := List.length fs;
     objects := objs;
     settings :=
       match threshold with
       | Some t => Some {| likePhotosThreshold := t |}
       | None => None
       end;
     trace := [] |}.

Definition checked (u : string) (s : Q) : Photo :=
  {| url := u; similarity := JNum s;
     similarity_date := Some "2017-05-30T08:00:00.000Z" |}.

Definition unchecked (u : string) : Photo :=
  {| url := u; similarity := JNull; similarity_date := None |}.

(** A bucket with three training images and a candidate photo, and a
    collection that knows one of the training images and one image that
    is gone from the bucket. *)
Definition training : World :=
  world []
    [ {| FaceId := 0; ExternalImageId := "train/tinder/gone.jpg" |};
      {| FaceId := 1; ExternalImageId := "train/tinder/kept.jpg" |} ]
    [ ("train/tinder/kept.jpg", jpeg);
      ("train/tinder/one+.jpg", jpeg);
      ("train/tinder/two++.jpg", jpeg);
      ("photos/tinder/abc/1.jpg", jpeg) ]
    None.

(** Two candidate photos of a channel: one fresh from the channel's image
    cache, one checked out earlier. *)
Definition candidates : World :=
  world
    [ unchecked "https://images.example.com/cache/images/abc/1.jpg";
      checked "https://s3-eu-west-1.amazonaws.com/bucket/photos/tinder/abc/2.jpg"
        90 ]
    [ {| FaceId := 0; ExternalImageId := "train/tinder/kept.jpg" |} ]
    [ ("train/tinder/kept.jpg", jpeg);
      ("photos/tinder/abc/2.jpg", jpeg) ]
    (Some 84%Q).

(** A photo that was liked, stored under the channel's photo prefix. *)
Definition liked : World :=
  world
    [ checked "https://s3-eu-west-1.amazonaws.com/bucket/photos/channel123/abc.jpg"
        91 ]
    []
    [ ("photos/channel123/abc.jpg", jpeg) ]
    (Some 84%Q).

(** Two photos checked out earlier with the scores [a] and [b], and the
    threshold of the settings row. *)
Definition scored (a b threshold : Q) : World :=
  world
    [ checked "https://s3-eu-west-1.amazonaws.com/bucket/photos/tinder/abc/1.jpg" a;
      checked "https://s3-eu-west-1.amazonaws.com/bucket/photos/tinder/abc/2.jpg" b ]
    [] [] (Some threshold).

(** The world after a pass over [training] in which an image shows as
    many faces as its name has [+] signs. *)
Definition synced : World :=
  fst (syncS3BucketAndRekognitionCollection (env faces_by_name (inr [])) taste
         training).

End Sample.

(** ** The vocabulary of the properties *)

(** The events a run added to the trace. *)
Definition events_since (w w' : World) : list Event :=
  drop (List.length (trace w)) (trace w').

Definition succeeded (e : Event) : bool :=
  match ev_outcome e with
  | Succeeded => true
  | _ => false
  end.

Definition event (c : Call) (o : Outcome) : Event :=
  {| ev_call := c; ev_outcome := o |}.

Definition outcome_of (err : option Err) : Outcome :=
  match err with
  | Some e => Failed e
  | None => Succeeded
  end.

(** The answer of [indexFaces] that shows exactly one face. *)
Definition exactly_one_face (answer : Err + option nat) : bool :=
  match answer with
  | inr (Some 1%nat) => true
  | _ => false
  end.

(** A run in which every call to a collaborator succeeded. *)
Definition all_succeeded (evs : list Event) : bool := forallb succeeded evs.

(** A promise only adds to the trace. *)
Definition extends {A} (p : Promise A) : Prop :=
  forall w w' r, p w = (w', r) -> exists evs, trace w' = trace w ++ evs.

(** What [listObjects(bucket, 'train')] answers in a world. *)
Definition trainingImages (w : World) : list string :=
  S3.keys_with_prefix "train" (objects w).

(** The states of the bucket and of the collection: face ids are unique and
    were handed out by the collection, object keys are unique. *)
Record well_formed (w : World) : Prop := {
  wf_ids : List.NoDup (List.map FaceId (faces w));
  wf_counter : Forall (fun f => (FaceId f < face_counter w)%nat) (faces w);
  wf_keys : List.NoDup (List.map fst (objects w))
}.

(** What the second pass may do: no image is indexed, no object is deleted,
    no face id is handed to [deleteFaces], and the log line counts no face
    as deleted or indexed. *)
Definition idle (e : Event) : Prop :=
  match ev_call e with
  | IndexFaces _ | DeleteObject _ => False
  | DeleteFaces ids => ids = []
  | LogDebug (MsgSynced _ deleted indexed) =>
      indexed = 0%nat /\
      (deleted = inl 0%nat \/ exists level, deleted = inr level)
  | _ => True
  end.

(** The bucket and the collection agree, up to the images of [rest] that
    are in the bucket and still wait for their faces. *)
Definition in_sync_but (rest : list string) (w : World) : Prop :=
  well_formed w /\
  (forall f, In f (faces w) -> In (ExternalImageId f) (trainingImages w)) /\
  (forall k,
     In k (trainingImages w) ->
     In k (List.map ExternalImageId (faces w)) \/ In k rest) /\
  List.NoDup rest /\
  (forall x,
     In x rest ->
     In x (trainingImages w) /\
     ~ In x (List.map ExternalImageId (faces w))).

(** ** The vocabulary of the further properties *)

(** A promise adds only events of one kind to the trace. *)
Definition emits {A} (allowed : Event -> Prop) (p : Promise A) : Prop :=
  forall w w' r,
    p w = (w', r) ->
    exists evs, trace w' = trace w ++ evs /\ Forall allowed evs.

(** A promise leaves a part of the world as it is. *)
Definition keeps {A B} (part : World -> B) (p : Promise A) : Prop :=
  forall w w' r, p w = (w', r) -> part w' = part w.


(** The calls of the check-out pipeline, of the synchronizer and of the
    acquisition of taste. *)
Definition checkout_call (e : Event) : Prop :=
  match ev_call e with
  | HttpGet _ | PutObject _ _ | SearchFacesByImage _
  | SettingsFindById _ | SettingsCreate | LogWarn _ | LogDebug _ => True
  | _ => False
  end.

Definition indexing_call (e : Event) : Prop :=
  match ev_call e with
  | IndexFaces _ | DeleteFaces _ | DeleteObject _ | LogWarn _ => True
  | _ => False
  end.

Definition sync_call (e : Event) : Prop :=
  match ev_call e with
  | ListFaces | ListObjects _ | LogDebug _ => True
  | _ => indexing_call e
  end.

Definition acquire_call (e : Event) : Prop :=
  match ev_call e with
  | CopyObject _ _ | LogDebug _ => True
  | _ => indexing_call e
  end.

(** The face collection, and the records of the callers, as parts of the
    world. *)
Definition collection_of (w : World) : list FaceRecord * nat :=
  (faces w, face_counter w).

Definition records_of (w : World) : list Photo * option Settings :=
  (heap w, settings w).

(** The calls to the settings table. *)
Definition settings_call (e : Event) : Prop :=
  match ev_call e with
  | SettingsFindById _ | SettingsCreate => True
  | _ => False
  end.

(** The photo behind a reference was checked out earlier, with this score. *)
Definition checked_out_with (w : World) (photo : nat) (v : jsval) : Prop :=
  exists p,
    heap w !! photo = Some p /\
    JS.truthy_str (similarity_date p) = true /\
    v = similarity p.

(** The copies of [acquireTaste]. *)
Definition copy_call (e : Event) : Prop :=
  match ev_call e with
  | CopyObject _ _ => True
  | _ => False
  end.

(** The calls whose failure a pass of the synchronizer does not survive. *)
Definition fatal_call (c : Call) : Prop :=
  match c with
  | ListFaces | ListObjects _ | DeleteObject _ => True
  | _ => False
  end.

(** [_.filter(photos, (photo) => !photo.similarity_date)] in a world. *)
Definition notCheckedOutPhotos (w : World) (photos : list nat) : list nat :=
  List.filter
    (fun photo =>
       match heap w !! photo with
       | Some p => negb (JS.truthy_str (similarity_date p))
       | None => false
       end)
    photos.

(** An event that is no debug line. *)
Definition no_debug_line (e : Event) : Prop :=
  match ev_call e with
  | LogDebug _ => False
  | _ => True
  end.

(** The images of the [indexFaces] calls among some events. *)
Definition indexed_images (evs : list Event) : list string :=
  List.flat_map
    (fun e =>
       match ev_call e with
       | IndexFaces image => [image]
       | _ => []
       end)
    evs.

(** ** Provisioning

    [createRekognitionCollectionIfNeeded], [createS3BucketIfNeeded] and
    [start]. The state is the account: the two names of the [Taste] object,
    which the constructor takes from the environment ([None] for a variable
    that is not set) and provisioning assigns, the collections and the
    buckets that exist, and the calls made so far. *)

Module Bootstrap.

Record Names := {
  _rekognitionCollection : option string;
  _s3Bucket : option string
}.

Inductive BootCall : Type :=
| ListCollections
| CreateCollection (collectionId : string)
| ListBuckets
| CreateBucket (bucket : string)
| LogCreating (text : string).

Record Account := {
  names : Names;
  collections : list string;
  buckets : list string;
  calls : list (BootCall * Outcome)
}.

Definition called (c : BootCall) (o : Outcome) (a : Account) : Account :=
  {| names := names a; collections := collections a; buckets := buckets a;
     calls := calls a ++ [(c, o)] |}.

Definition set_rekognitionCollection (name : string) (a : Account)
    : Account :=
  {| names := {| _rekognitionCollection := Some name;
                 _s3Bucket := _s3Bucket (names a) |};
     collections := collections a; buckets := buckets a; calls := calls a |}.

Definition set_s3Bucket (name : string) (a : Account) : Account :=
  {| names := {| _rekognitionCollection := _rekognitionCollection (names a);
                 _s3Bucket := Some name |};
     collections := collections a; buckets := buckets a; calls := calls a |}.

Definition add_collection (name : string) (a : Account) : Account :=
  {| names := names a; collections := collections a ++ [name];
     buckets := buckets a; calls := calls a |}.

Definition add_bucket (name : string) (a : Account) : Account :=
  {| names := names a; collections := collections a;
     buckets := buckets a ++ [name]; calls := calls a |}.

(** What the services answer: whether a call fails, the clock of [_.now()]
    and the digit of [_.random(9)]. *)
Record Services := {
  listCollections_error : Account -> option Err;
  createCollection_error : Account -> string -> option Err;
  listBuckets_error : Account -> option Err;
  createBucket_error : Account -> string -> option Err;
  now : Account -> nat;
  random : Account -> nat
}.

Definition decimal (n : nat) : string :=
  NilEmpty.string_of_uint (Nat.to_uint n).

(** [a || b] where [a] is a string or missing and [b] is a string. *)
Definition or_string (a : option string) (b : string) : string :=
  match a with
  | Some s => if JS.truthy_str a then s else b
  | None => b
  end.

(** [_.find(names, (name) => _.startsWith(name, 'get-me-a-date-'))] *)
Definition find_ours (existing : list string) : option string :=
  List.find (String.prefix "get-me-a-date-") existing.

(** [`get-me-a-date-${_.now()}-${_.random(9)}`] *)
Definition fresh_name (sv : Services) (a : Account) : string :=
  "get-me-a-date-" +:+ decimal (now sv a) +:+ "-" +:+ decimal (random sv a).

(** [_.includes(names, name)] on an array. *)
Definition includes (existing : list string) (name : string) : bool :=
  existsb (String.eqb name) existing.

(** Modelled from the spec: [utils/rekognition] is not in the sources;
    [listCollections()] returns the ids of the collections. *)
Definition listCollections (sv : Services) (a : Account)
    : Account * Settled (list string) :=
  match listCollections_error sv a with
  | Some e => (called ListCollections (Failed e) a, Rejected e)
  | None => (called ListCollections Succeeded a, Fulfilled (collections a))
  end.

(** Modelled from the spec: [utils/rekognition] is not in the sources;
    [createCollection(id)] creates the collection of that id. *)
Definition createCollection (sv : Services) (collectionId : string)
    (a : Account) : Account * Settled unit :=
  match createCollection_error sv a collectionId with
  | Some e => (called (CreateCollection collectionId) (Failed e) a, Rejected e)
  | None =>
      (called (CreateCollection collectionId) Succeeded
         (add_collection collectionId a),
       Fulfilled tt)
  end.

(** Modelled from the spec: [utils/s3] is not in the sources;
    [listBuckets()] returns the names of the buckets. *)
Definition listBuckets (sv : Services) (a : Account)
    : Account * Settled (list string) :=
  match listBuckets_error sv a with
  | Some e => (called ListBuckets (Failed e) a, Rejected e)
  | None => (called ListBuckets Succeeded a, Fulfilled (buckets a))
  end.

(** Modelled from the spec: [utils/s3] is not in the sources;
    [createBucket(name)] creates the bucket of that name. *)
Definition createBucket (sv : Services) (bucket : string) (a : Account)
    : Account * Settled unit :=
  match createBucket_error sv a bucket with
  | Some e => (called (CreateBucket bucket) (Failed e) a, Rejected e)
  | None =>
      (called (CreateBucket bucket) Succeeded (add_bucket bucket a),
       Fulfilled tt)
  end.

Definition createRekognitionCollectionIfNeeded (sv : Services) (a : Account)
    : Account * Settled unit :=
  match listCollections sv a with
  | (a1, Rejected e) => (a1, Rejected e)
  | (a1, Fulfilled collectionIds) =>
      let name :=
        or_string (_rekognitionCollection (names a1))
          (or_string (find_ours collectionIds) (fresh_name sv a1)) in
      let a2 := set_rekognitionCollection name a1 in
      if negb (includes collectionIds name) then
        createCollection sv name
          (called
             (LogCreating ("Creating AWS Rekognition collection " +:+ name))
             Succeeded a2)
      else (a2, Fulfilled tt)
  end.

Definition createS3BucketIfNeeded (sv : Services) (a : Account)
    : Account * Settled unit :=
  match listBuckets sv a with
  | (a1, Rejected e) => (a1, Rejected e)
  | (a1, Fulfilled existing) =>
      let name :=
        or_string (_s3Bucket (names a1))
          (or_string (find_ours existing) (fresh_name sv a1)) in
      let a2 := set_s3Bucket name a1 in
      if negb (includes existing name) then
        createBucket sv name
          (called (LogCreating ("Creating AWS S3 bucket " +:+ name))
             Succeeded a2)
      else (a2, Fulfilled tt)
  end.

End Bootstrap.

(** The [Taste] object with the names that provisioning has assigned. A
    name that is still missing reads as [undefined]. *)
Definition provisioned (n : Bootstrap.Names) : Taste :=
  {| _rekognitionCollection :=
       JS.interpolate (Bootstrap._rekognitionCollection n);
     _s3Bucket := JS.interpolate (Bootstrap._s3Bucket n) |}.

(** [start]: [Promise.all] of the two provisioning promises, both of which
    are started, then the synchronizer. *)
Definition start (env : Env) (sv : Bootstrap.Services)
    (a : Bootstrap.Account) (w : World)
    : Bootstrap.Account * World * Settled unit :=
  let (a1, collection) :=
    Bootstrap.createRekognitionCollectionIfNeeded sv a in
  let (a2, bucket) := Bootstrap.createS3BucketIfNeeded sv a1 in
  match collection, bucket with
  | Fulfilled _, Fulfilled _ =>
      let (w', r) :=
        syncS3BucketAndRekognitionCollection env
          (provisioned (Bootstrap.names a2)) w in
      (a2, w', r)
  | Rejected e, _ => (a2, w, Rejected e)
  | Fulfilled _, Rejected e => (a2, w, Rejected e)
  end.

(** The calls of a provisioning run, and what they may be. *)
Definition calls_since (a a' : Bootstrap.Account)
    : list (Bootstrap.BootCall * Outcome) :=
  drop (List.length (Bootstrap.calls a)) (Bootstrap.calls a').

Definition creates (c : Bootstrap.BootCall * Outcome) : bool :=
  match fst c with
  | Bootstrap.CreateCollection _ | Bootstrap.CreateBucket _ => true
  | _ => false
  end.

Definition call_succeeded (c : Bootstrap.BootCall * Outcome) : bool :=
  match snd c with
  | Succeeded => true
  | _ => false
  end.

(** ** The module [message] *)

Module Messages.

(** A message: the two fields of its key and the rest of it. *)
Record Message := {
  channelName : string;
  channelMessageId : string;
  content : string
}.

(** The [where] of an upsert. *)
Record Where := {
  where_channelName : string;
  where_channelMessageId : string
}.

Definition matches (key : Where) (row : Message) : bool :=
  String.eqb (channelName row) (where_channelName key) &&
  String.eqb (channelMessageId row) (where_channelMessageId key).

(** The table of messages and the upserts made so far. *)
Record Store := {
  rows : list Message;
  upserts : list (Message * Where * Outcome)
}.

Definition Query (A : Type) : Type := Store -> Store * Settled A.

(** Modelled from the spec: [database] is not in the sources;
    [upsert(message, { where })] writes the message over the rows that
    match [where], or adds it as a new row when none does; it may fail. *)
Definition upsert (upsert_error : Store -> Message -> option Err)
    (message : Message) (key : Where) : Query unit :=
  fun s =>
    match upsert_error s message with
    | Some e =>
        ({| rows := rows s;
            upserts := upserts s ++ [(message, key, Failed e)] |},
         Rejected e)
    | None =>
        ({| rows :=
              if existsb (matches key) (rows s)
              then List.map
                     (fun row => if matches key row then message else row)
                     (rows s)
              else rows s ++ [message];
            upserts := upserts s ++ [(message, key, Succeeded)] |},
         Fulfilled tt)
    end.

(** [Promise.mapSeries(items, f)]: one item after the other; the first
    rejection rejects the batch and no further item is started. *)
Fixpoint mapSeries {A B} (f : A -> Query B) (items : list A)
    : Query (list B) :=
  match items with
  | [] => fun s => (s, Fulfilled [])
  | x :: rest =>
      fun s =>
        match f x s with
        | (s1, Rejected e) => (s1, Rejected e)
        | (s1, Fulfilled y) =>
            match mapSeries f rest s1 with
            | (s2, Rejected e) => (s2, Rejected e)
            | (s2, Fulfilled ys) => (s2, Fulfilled (y :: ys))
            end
        end
  end.

Definition readMessages (upsert_error : Store -> Message -> option Err)
    (messages : list Message) : Query (list unit) :=
  mapSeries
    (fun message =>
       upsert upsert_error message
         {| where_channelName := channelName message;
            where_channelMessageId := channelMessageId message |})
    messages.

(** The key of a message, and the row of a key. *)
Definition key_of (message : Message) : Where :=
  {| where_channelName := channelName message;
     where_channelMessageId := channelMessageId message |}.

Definition row_of (key : Where) (table : list Message) : option Message :=
  List.find (matches key) table.

End Messages.

(** ** Further sample collaborators

    An environment whose copies fail, one whose objects cannot be deleted,
    an account with its services (the
    clock reads 1500 and the random digit is 7), and a table of messages
    whose second upsert fails. *)

Module Scenario.

Definition copies_fail (e : Env) : Env :=
  {| AWS_REGION := AWS_REGION e;
     toISOString_now := toISOString_now e;
     url_parse := url_parse e;
     request_get := request_get e;
     sharp_resize := sharp_resize e;
     listFaces_error := listFaces_error e;
     listObjects_error := listObjects_error e;
     indexFaces_answer := indexFaces_answer e;
     deleteFaces_error := deleteFaces_error e;
     searchFaces_answer := searchFaces_answer e;
     putObject_error := putObject_error e;
     deleteObject_error := deleteObject_error e;
     copyObject_source := fun _ _ => inl Sample.throttled;
     settings_error := settings_error e;
     settings_defaults := settings_defaults e |}.

Definition objects_stay (e : Env) : Env :=
  {| AWS_REGION := AWS_REGION e;
     toISOString_now := toISOString_now e;
     url_parse := url_parse e;
     request_get := request_get e;
     sharp_resize := sharp_resize e;
     listFaces_error := listFaces_error e;
     listObjects_error := listObjects_error e;
     indexFaces_answer := indexFaces_answer e;
     deleteFaces_error := deleteFaces_error e;
     searchFaces_answer := searchFaces_answer e;
     putObject_error := putObject_error e;
     deleteObject_error := fun _ _ => Some Sample.throttled;
     copyObject_source := copyObject_source e;
     settings_error := settings_error e;
     settings_defaults := settings_defaults e |}.

Definition faces_stay (e : Env) : Env :=
  {| AWS_REGION := AWS_REGION e;
     toISOString_now := toISOString_now e;
     url_parse := url_parse e;
     request_get := request_get e;
     sharp_resize := sharp_resize e;
     listFaces_error := listFaces_error e;
     listObjects_error := listObjects_error e;
     indexFaces_answer := indexFaces_answer e;
     deleteFaces_error := fun _ _ => Some Sample.throttled;
     searchFaces_answer := searchFaces_answer e;
     putObject_error := putObject_error e;
     deleteObject_error := deleteObject_error e;
     copyObject_source := copyObject_source e;
     settings_error := settings_error e;
     settings_defaults := settings_defaults e |}.

Definition services : Bootstrap.Services :=
  {| Bootstrap.listCollections_error := fun _ => None;
     Bootstrap.createCollection_error := fun _ _ => None;
     Bootstrap.listBuckets_error := fun _ => None;
     Bootstrap.createBucket_error := fun _ _ => None;
     Bootstrap.now := fun _ => 1500%nat;
     Bootstrap.random := fun _ => 7%nat |}.


Definition account (collection bucket : option string)
    (collections buckets : list string) : Bootstrap.Account :=
  {| Bootstrap.names :=
       {| Bootstrap._rekognitionCollection := collection;
          Bootstrap._s3Bucket := bucket |};
     Bootstrap.collections := collections;
     Bootstrap.buckets := buckets;
     Bootstrap.calls := [] |}.

Definition hello : Messages.Message :=
  {| Messages.channelName := "tinder";
     Messages.channelMessageId := "m1";
     Messages.content := "hello" |}.

Definition hello_edited : Messages.Message :=
  {| Messages.channelName := "tinder";
     Messages.channelMessageId := "m1";
     Messages.content := "hello there" |}.

Definition bye : Messages.Message :=
  {| Messages.channelName := "tinder";
     Messages.channelMessageId := "m2";
     Messages.content := "bye" |}.

Definition empty_store : Messages.Store :=
  {| Messages.rows := []; Messages.upserts := [] |}.

Definition always_stores : Messages.Store -> Messages.Message -> option Err :=
  fun _ _ => None.

Definition second_upsert_fails
    : Messages.Store -> Messages.Message -> option Err :=
  fun s _ =>
    match Messages.upserts s with
    | [_] => Some Sample.throttled
    | _ => None
    end.

End Scenario.

(** * Properties *)

Ltac unfold_promise :=
  unfold P.andThen, P.catch, P.resolve, P.reject, P.props2 in *.

(** ** Photos that were checked out earlier *)

Section CheckedOutEarlier.

Variable env : Env.
Variable this : Taste.

(** C2. A photo whose [similarity_date] is set is not checked out again:
    [checkPhotoOut] returns the stored [similarity] and leaves the world as
    it found it, so no call to the object store or to the recognition
    service is recorded and the photo keeps its [url], [similarity] and
    [similarity_date]. *)
Theorem checkPhotoOut_checked_out_earlier
    (channelName : option string) (photo : nat) (p : Photo) (w : World) :
  heap w !! photo = Some p ->
  JS.truthy_str (similarity_date p) = true ->
  checkPhotoOut env this channelName photo w = (w, Fulfilled (similarity p)).
Proof.
  intros Hp Hdate.
  unfold checkPhotoOut, Heap.read. unfold_promise.
  rewrite Hp, Hdate. reflexivity.
Qed.

End CheckedOutEarlier.

Lemma checkPhotoOut_checked_out_earlier_example :
  checkPhotoOut (Sample.env Sample.faces_by_name (inr [])) Sample.taste
    (Some "tinder") 0
    (Sample.world [Sample.checked "https://example.com/1.jpg" 72] [] [] None)
  = (Sample.world [Sample.checked "https://example.com/1.jpg" 72] [] [] None,
     Fulfilled (JNum 72)).
Proof.
  apply (checkPhotoOut_checked_out_earlier
           (Sample.env Sample.faces_by_name (inr [])) Sample.taste (Some "tinder") 0
           (Sample.checked "https://example.com/1.jpg" 72));
    reflexivity.
Defined.

(** ** Face indexing *)

Lemma events_since_record (w : World) (evs : list Event) (w' : World) :
  trace w' = trace w ++ evs -> events_since w w' = evs.
Proof.
  intros H. unfold events_since. rewrite H. apply drop_app_length.
Qed.

Lemma remove_key_not_in (key : string) (objs : list (string * Buffer)) :
  ~ In key (List.map fst (S3.remove_key key objs)).
Proof.
  unfold S3.remove_key. intros Hin.
  apply in_map_iff in Hin. destruct Hin as [[k b] [Hk Hin]].
  apply filter_In in Hin. destruct Hin as [_ Hne].
  simpl in *. subst k. rewrite String.eqb_refl in Hne. discriminate.
Qed.

Lemma remove_ids_not_in (ids : list nat) (fs : list FaceRecord) (f : FaceRecord) :
  In f (Rekognition.remove_ids ids fs) -> ~ In (FaceId f) ids.
Proof.
  unfold Rekognition.remove_ids. intros Hin Hid.
  apply filter_In in Hin. destruct Hin as [_ Hne].
  apply negb_true_iff in Hne.
  assert (existsb (Nat.eqb (FaceId f)) ids = true) as Hex.
  { apply existsb_exists. exists (FaceId f). split; [exact Hid|apply Nat.eqb_refl]. }
  congruence.
Qed.

Section FaceIndexing.

Variable env : Env.
Variable this : Taste.

(** C6. When [indexFaces] fails for an image, the error code decides: an
    [InvalidImageFormatException] or [InvalidParameterException] (found as
    a substring of [error.code]) makes the callback delete the object from
    the bucket; any other error is logged with [Logger.warn] and nothing
    else happens, so the bucket and the collection are as before and the
    images that wait for indexing are the same for the next pass. The
    counter [indexedFaces] is not incremented in either case. *)
Theorem indexFaces_error_policy
    (image : string) (indexedFaces : nat) (e : Err) (w : World) :
  indexFaces_answer env w image = inl e ->
  let w1 := record (IndexFaces image) (Failed e) w in
  (invalid_image e = true ->
   exists w' r,
     indexFacesFromImage env this image indexedFaces w = (w', r) /\
     events_since w w' =
       [event (IndexFaces image) (Failed e);
        event (DeleteObject image)
          (outcome_of (deleteObject_error env w1 image))] /\
     faces w' = faces w /\
     (forall n, r = Fulfilled n -> n = indexedFaces) /\
     (deleteObject_error env w1 image = None ->
      r = Fulfilled indexedFaces /\
      objects w' = S3.remove_key image (objects w) /\
      ~ In image (List.map fst (objects w')))) /\
  (invalid_image e = false ->
   exists w',
     indexFacesFromImage env this image indexedFaces w
       = (w', Fulfilled indexedFaces) /\
     events_since w w' =
       [event (IndexFaces image) (Failed e);
        event (LogWarn (MsgText (message e))) Succeeded] /\
     faces w' = faces w /\
     objects w' = objects w /\
     imagesToIndex (faces w') (trainingImages w')
     = imagesToIndex (faces w) (trainingImages w)).
Proof.
  intros Hanswer w1. split; intros Hcode.
  - unfold indexFacesFromImage, Rekognition.indexFaces. unfold_promise.
    rewrite Hanswer, Hcode. fold w1.
    unfold S3.deleteObject.
    destruct (deleteObject_error env w1 image) as [e'|] eqn:Hdel.
    + eexists _, _. split; [reflexivity|].
      split; [apply events_since_record; simpl; rewrite <- app_assoc; reflexivity|].
      split; [reflexivity|]. split; [discriminate|discriminate].
    + eexists _, _. split; [reflexivity|].
      split; [apply events_since_record; simpl; rewrite <- app_assoc; reflexivity|].
      split; [reflexivity|]. split; [intros n Hn; congruence|].
      intros _. split; [reflexivity|]. split; [reflexivity|].
      simpl. apply remove_key_not_in.
  - unfold indexFacesFromImage, Rekognition.indexFaces, Logger.warn.
    unfold_promise. rewrite Hanswer, Hcode. fold w1.
    eexists. split; [reflexivity|].
    split; [apply events_since_record; simpl; rewrite <- app_assoc; reflexivity|].
    repeat split; reflexivity.
Qed.


Lemma new_faces_length (image : string) (first n : nat) :
  List.length (Rekognition.new_faces image first n) = n.
Proof.
  unfold Rekognition.new_faces. rewrite List.length_map. apply List.length_seq.
Qed.

(** C3. The callback of [indexFacesFromImages] increments [indexedFaces]
    exactly when [indexFaces] has answered with one face record: whenever
    the callback fulfils, the counter is one more after such an answer and
    is what it was after any other. When the answer holds [n] records and
    [n] is not one (zero, or two and more), the callback asks the collection
    to delete the ids of all [n] records; once that call has succeeded none
    of these ids is left in the collection and the next call deletes the
    image from the bucket. *)
Theorem indexFaces_face_count_policy
    (image : string) (indexedFaces : nat) (w : World) :
  (forall w' r c,
     indexFacesFromImage env this image indexedFaces w = (w', r) ->
     r = Fulfilled c ->
     c = if exactly_one_face (indexFaces_answer env w image)
         then S indexedFaces else indexedFaces) /\
  forall n,
  indexFaces_answer env w image = inr (Some n) ->
  let found := Rekognition.new_faces image (face_counter w) n in
  let ids := List.map FaceId found in
  let w1 := record (IndexFaces image) Succeeded
              (set_faces (faces w ++ found) (face_counter w + n) w) in
  let w2 := record (DeleteFaces ids) Succeeded
              (set_faces (Rekognition.remove_ids ids (faces w1))
                 (face_counter w1) w1) in
  (n = 1%nat ->
   indexFacesFromImage env this image indexedFaces w
     = (w1, Fulfilled (S indexedFaces))) /\
  (n <> 1%nat ->
   exists w' r,
     indexFacesFromImage env this image indexedFaces w = (w', r) /\
     (forall c, r = Fulfilled c -> c = indexedFaces) /\
     (exists rest,
        events_since w w' =
          event (IndexFaces image) Succeeded ::
          event (DeleteFaces ids) (outcome_of (deleteFaces_error env w1 ids)) ::
          rest) /\
     (deleteFaces_error env w1 ids = None ->
      (forall f, In f (faces w') -> ~ In (FaceId f) ids) /\
      exists rest,
        events_since w w' =
          event (IndexFaces image) Succeeded ::
          event (DeleteFaces ids) Succeeded ::
          event (DeleteObject image)
            (outcome_of (deleteObject_error env w2 image)) ::
          rest) /\
     (deleteFaces_error env w1 ids = None ->
      deleteObject_error env w2 image = None ->
      r = Fulfilled indexedFaces /\
      events_since w w' =
        [event (IndexFaces image) Succeeded;
         event (DeleteFaces ids) Succeeded;
         event (DeleteObject image) Succeeded] /\
      objects w' = S3.remove_key image (objects w) /\
      ~ In image (List.map fst (objects w')))).
Proof.
  split.
  { intros w' r c Hrun Hr. subst r.
    unfold indexFacesFromImage, Rekognition.indexFaces,
      Rekognition.deleteFaces, S3.deleteObject, Logger.warn in Hrun.
    unfold_promise.
    destruct (indexFaces_answer env w image) as [e|[n|]];
      cbn [Rekognition.FaceRecords exactly_one_face] in *;
      rewrite ?new_faces_length in Hrun.
    2: destruct n as [|[|n]]; cbn [Nat.eqb negb] in Hrun.
    all: repeat match type of Hrun with
                | context [deleteFaces_error env ?w0 ?ids] =>
                    destruct (deleteFaces_error env w0 ids)
                | context [deleteObject_error env ?w0 ?key] =>
                    destruct (deleteObject_error env w0 key)
                | context [invalid_image ?e] => destruct (invalid_image e)
                end;
      inversion Hrun; reflexivity. }
  intros n Hanswer found ids w1 w2.
  assert (List.length found = n) as Hlen by apply new_faces_length.
  split.
  - intros ->.
    unfold indexFacesFromImage, Rekognition.indexFaces. unfold_promise.
    rewrite Hanswer. reflexivity.
  - intros Hn.
    assert (negb (List.length found =? 1)%nat = true) as Hneq.
    { rewrite Hlen. apply negb_true_iff. apply Nat.eqb_neq. exact Hn. }
    unfold indexFacesFromImage, Rekognition.indexFaces. unfold_promise.
    rewrite Hanswer. fold found. cbn [Rekognition.FaceRecords].
    rewrite Hneq. fold ids. fold w1.
    unfold Rekognition.deleteFaces.
    destruct (deleteFaces_error env w1 ids) as [e1|] eqn:Hdel.
    + (* the faces could not be deleted *)
      destruct (invalid_image e1) eqn:Hcode.
      * unfold S3.deleteObject.
        match goal with
        | |- context [deleteObject_error env ?w0 image] =>
            destruct (deleteObject_error env w0 image) eqn:Hobj
        end.
        all: eexists _, _; split; [reflexivity|].
        all: split; [intros c Hc; congruence|].
        all: split;
          [eexists; apply events_since_record; simpl;
           repeat rewrite <- app_assoc; reflexivity|].
        all: split; discriminate.
      * unfold Logger.warn.
        eexists _, _; split; [reflexivity|].
        split; [intros c Hc; congruence|].
        split;
          [eexists; apply events_since_record; simpl;
           repeat rewrite <- app_assoc; reflexivity|].
        split; discriminate.
    + fold w2. unfold S3.deleteObject.
      destruct (deleteObject_error env w2 image) as [e2|] eqn:Hobj.
      * (* the object could not be deleted *)
        destruct (invalid_image e2) eqn:Hcode.
        -- match goal with
           | |- context [deleteObject_error env ?w0 image] =>
               destruct (deleteObject_error env w0 image) eqn:Hobj'
           end.
           all: eexists _, _; split; [reflexivity|].
           all: split; [intros c Hc; congruence|].
           all: split;
             [eexists; apply events_since_record; simpl;
              repeat rewrite <- app_assoc; reflexivity|].
           all: split; [|discriminate].
           all: intros _; split;
             [intros f Hf; simpl in Hf; eapply remove_ids_not_in; exact Hf|].
           all: eexists; apply events_since_record; simpl;
             repeat rewrite <- app_assoc; reflexivity.
        -- unfold Logger.warn.
           eexists _, _; split; [reflexivity|].
           split; [intros c Hc; congruence|].
           split;
             [eexists; apply events_since_record; simpl;
              repeat rewrite <- app_assoc; reflexivity|].
           split; [|discriminate].
           intros _; split;
             [intros f Hf; simpl in Hf; eapply remove_ids_not_in; exact Hf|].
           eexists; apply events_since_record; simpl;
             repeat rewrite <- app_assoc; reflexivity.
      * eexists _, _; split; [reflexivity|].
        split; [intros c Hc; congruence|].
        split;
          [eexists; apply events_since_record; simpl;
           repeat rewrite <- app_assoc; reflexivity|].
        split.
        -- intros _; split;
             [intros f Hf; simpl in Hf; eapply remove_ids_not_in; exact Hf|].
           eexists; apply events_since_record; simpl;
             repeat rewrite <- app_assoc; reflexivity.
        -- intros _ _. split; [reflexivity|].
           split; [apply events_since_record; simpl;
                   repeat rewrite <- app_assoc; reflexivity|].
           split; [reflexivity|]. simpl. apply remove_key_not_in.
Qed.

End FaceIndexing.

Lemma indexFaces_error_policy_example :
  (exists w',
     indexFacesFromImage (Sample.env (fun _ => inl Sample.invalid_format) (inr []))
       Sample.taste "train/tinder/one+.jpg" 3 Sample.training
     = (w', Fulfilled 3%nat) /\
     List.map fst (objects w') =
       ["train/tinder/kept.jpg"; "train/tinder/two++.jpg";
        "photos/tinder/abc/1.jpg"]) /\
  (exists w',
     indexFacesFromImage (Sample.env (fun _ => inl Sample.throttled) (inr []))
       Sample.taste "train/tinder/one+.jpg" 3 Sample.training
     = (w', Fulfilled 3%nat) /\
     faces w' = faces Sample.training /\
     objects w' = objects Sample.training).
Proof.
  split.
  - destruct (indexFaces_error_policy
                (Sample.env (fun _ => inl Sample.invalid_format) (inr []))
                Sample.taste "train/tinder/one+.jpg" 3 Sample.invalid_format
                Sample.training eq_refl) as [Hinvalid _].
    destruct (Hinvalid eq_refl) as (w' & r & Hrun & _ & _ & _ & Hdeleted).
    destruct (Hdeleted eq_refl) as (Hr & Hobjects & _).
    exists w'. split.
    + rewrite Hrun, Hr. reflexivity.
    + rewrite Hobjects. reflexivity.
  - destruct (indexFaces_error_policy
                (Sample.env (fun _ => inl Sample.throttled) (inr []))
                Sample.taste "train/tinder/one+.jpg" 3 Sample.throttled
                Sample.training eq_refl) as [_ Hother].
    destruct (Hother eq_refl) as (w' & Hrun & _ & Hfaces & Hobjects & _).
    exists w'. split; [exact Hrun|]. split; assumption.
Defined.

Lemma indexFaces_face_count_policy_example :
  (exists w',
     indexFacesFromImage (Sample.env Sample.faces_by_name (inr []))
       Sample.taste "train/tinder/two++.jpg" 3 Sample.training
     = (w', Fulfilled 3%nat) /\
     events_since Sample.training w' =
       [event (IndexFaces "train/tinder/two++.jpg") Succeeded;
        event (DeleteFaces [2; 3]%nat) Succeeded;
        event (DeleteObject "train/tinder/two++.jpg") Succeeded] /\
     List.map fst (objects w') =
       ["train/tinder/kept.jpg"; "train/tinder/one+.jpg";
        "photos/tinder/abc/1.jpg"]) /\
  (exists w',
     indexFacesFromImage (Sample.env Sample.faces_by_name (inr []))
       Sample.taste "train/tinder/one+.jpg" 3 Sample.training
     = (w', Fulfilled 4%nat) /\
     objects w' = objects Sample.training).
Proof.
  split.
  - destruct (proj2 (indexFaces_face_count_policy
                       (Sample.env Sample.faces_by_name (inr []))
                       Sample.taste "train/tinder/two++.jpg" 3 Sample.training)
                2%nat eq_refl) as [_ Hpurge].
    destruct Hpurge as (w' & r & Hrun & _ & _ & _ & Hdone); [lia|].
    destruct (Hdone eq_refl eq_refl) as (Hr & Hevents & Hobjects & _).
    exists w'. split; [rewrite Hrun, Hr; reflexivity|].
    split; [exact Hevents|]. rewrite Hobjects. reflexivity.
  - destruct (proj2 (indexFaces_face_count_policy
                       (Sample.env Sample.faces_by_name (inr []))
                       Sample.taste "train/tinder/one+.jpg" 3 Sample.training)
                1%nat eq_refl) as [Hone _].
    eexists. split; [apply Hone; reflexivity|]. reflexivity.
Defined.

(** ** Saving a photo *)

Section PhotoPersistence.

Variable env : Env.
Variable this : Taste.

(** What a run of [savePhoto] on an existing photo does, by its outcome. *)
Lemma savePhoto_run
    (channelName : option string) (photo : nat) (p : Photo)
    (options : Options) (w w' : World) (r : Settled Buffer) :
  heap w !! photo = Some p ->
  JS.truthy_str channelName = true ->
  savePhoto env this channelName (Some photo) options w = (w', r) ->
  let u := url_parse env (url p) in
  let pathname := savePhoto_pathname this channelName u options in
  let key := savePhoto_key channelName pathname in
  let w1 := record (HttpGet (href u)) Succeeded w in
  match r with
  | Fulfilled content =>
      exists response,
        request_get env w (href u) = inr response /\
        statusCode response = 200%nat /\
        match resize options with
        | Some (width, height) =>
            sharp_resize env w1 (body response) width height = inr content /\
            events_since w w' =
              [event (HttpGet (href u)) Succeeded;
               event (SharpResize width height) Succeeded;
               event (PutObject key content) Succeeded]
        | None =>
            content = body response /\
            events_since w w' =
              [event (HttpGet (href u)) Succeeded;
               event (PutObject key content) Succeeded]
        end /\
        heap w' =
          <[photo := with_url (savePhoto_url env this channelName pathname) p]>
            (heap w) /\
        objects w' = (key, content) :: S3.remove_key key (objects w) /\
        faces w' = faces w
  | Rejected e =>
      heap w' = heap w /\
      objects w' = objects w /\
      faces w' = faces w /\
      ((exists before c,
          events_since w w' = before ++ [event c (Failed e)] /\
          forallb succeeded before = true) \/
       (exists response,
          request_get env w (href u) = inr response /\
          statusCode response <> 200%nat /\
          e = download_error u response /\
          events_since w w' = [event (HttpGet (href u)) Succeeded]))
  end.
Proof.
  intros Hp Hchannel Hrun u pathname key w1.
  unfold savePhoto in Hrun. rewrite Hchannel in Hrun.
  unfold Heap.read, Request.get in Hrun. unfold_promise.
  rewrite Hp in Hrun. fold u in Hrun.
  destruct (request_get env w (href u)) as [e|response] eqn:Hget.
  { inversion Hrun; subst. repeat split; try reflexivity.
    left. exists [], (HttpGet (href u)).
    split; [apply events_since_record; reflexivity|reflexivity]. }
  fold w1 in Hrun.
  destruct (statusCode response =? 200)%nat eqn:Hstatus; cbn [negb] in Hrun.
  2:{ inversion Hrun; subst. repeat split; try reflexivity.
      right. exists response. split; [reflexivity|].
      split; [apply Nat.eqb_neq; exact Hstatus|].
      split; [reflexivity|apply events_since_record; reflexivity]. }
  apply Nat.eqb_eq in Hstatus.
  fold pathname in Hrun. fold key in Hrun.
  destruct (resize options) as [[width height]|] eqn:Hresize.
  - unfold Sharp.resize in Hrun.
    destruct (sharp_resize env w1 (body response) width height)
      as [e|content] eqn:Hsharp.
    { inversion Hrun; subst. repeat split; try reflexivity.
      left. exists [event (HttpGet (href u)) Succeeded], (SharpResize width height).
      split; [|reflexivity].
      apply events_since_record. simpl. rewrite <- app_assoc. reflexivity. }
    unfold S3.putObject in Hrun.
    match type of Hrun with
    | context [putObject_error env ?w0 key content] =>
        destruct (putObject_error env w0 key content) as [e|] eqn:Hput
    end.
    { inversion Hrun; subst. repeat split; try reflexivity.
      left.
      exists [event (HttpGet (href u)) Succeeded;
              event (SharpResize width height) Succeeded],
             (PutObject key content).
      split; [|reflexivity].
      apply events_since_record. simpl.
      repeat rewrite <- app_assoc. reflexivity. }
    unfold Heap.set_url, Heap.update in Hrun. simpl heap in Hrun.
    rewrite Hp in Hrun. inversion Hrun; subst.
    exists response. split; [reflexivity|]. split; [exact Hstatus|].
    split; [split; [exact Hsharp|]|].
    { apply events_since_record. simpl.
      repeat rewrite <- app_assoc. reflexivity. }
    repeat split; reflexivity.
  - unfold S3.putObject in Hrun.
    match type of Hrun with
    | context [putObject_error env ?w0 key ?c] =>
        destruct (putObject_error env w0 key c) as [e|] eqn:Hput
    end.
    { inversion Hrun; subst. repeat split; try reflexivity.
      left.
      exists [event (HttpGet (href u)) Succeeded],
             (PutObject key (body response)).
      split; [|reflexivity].
      apply events_since_record. simpl.
      repeat rewrite <- app_assoc. reflexivity. }
    unfold Heap.set_url, Heap.update in Hrun. simpl heap in Hrun.
    rewrite Hp in Hrun. inversion Hrun; subst.
    exists response. split; [reflexivity|]. split; [exact Hstatus|].
    split; [split; [reflexivity|]|].
    { apply events_since_record. simpl.
      repeat rewrite <- app_assoc. reflexivity. }
    repeat split; reflexivity.
Qed.


Lemma failed_event_is_last (before : list Event) (c c' : Call) (e e' : Err) :
  forallb succeeded before = true ->
  In (event c' (Failed e')) (before ++ [event c (Failed e)]) ->
  c' = c /\ e' = e.
Proof.
  intros Hbefore Hin. apply in_app_or in Hin. destruct Hin as [Hin|Hin].
  - rewrite forallb_forall in Hbefore. apply Hbefore in Hin. discriminate.
  - destruct Hin as [Heq|[]]. inversion Heq. split; reflexivity.
Qed.

(** C10. [savePhoto] assigns [photo.url] in the callback that runs after
    [putObject] has succeeded, and nowhere else. So a run that rejects
    leaves every photo record as it was; a missing channel or photo, a
    download that answers with a status other than 200 and a failed
    [putObject] are such runs; and when the photo records did change, the
    run fulfilled and the last call it made was a successful [putObject]. *)
Theorem savePhoto_url_only_after_upload
    (channelName : option string) (photo : option nat) (options : Options)
    (w w' : World) (r : Settled Buffer) :
  savePhoto env this channelName photo options w = (w', r) ->
  (forall e, r = Rejected e -> heap w' = heap w) /\
  (JS.truthy_str channelName = false \/ photo = None ->
   r = Rejected (Error "invalid arguments")) /\
  (forall ref p response,
     JS.truthy_str channelName = true ->
     photo = Some ref ->
     heap w !! ref = Some p ->
     request_get env w (href (url_parse env (url p))) = inr response ->
     statusCode response <> 200%nat ->
     r = Rejected (download_error (url_parse env (url p)) response)) /\
  (forall key content e,
     In (event (PutObject key content) (Failed e)) (events_since w w') ->
     r = Rejected e) /\
  (heap w' <> heap w ->
   exists before key content,
     r = Fulfilled content /\
     events_since w w' = before ++ [event (PutObject key content) Succeeded]).
Proof.
  intros Hrun.
  destruct (JS.truthy_str channelName) eqn:Hchannel.
  2:{ unfold savePhoto in Hrun. rewrite Hchannel in Hrun.
      unfold P.reject in Hrun. inversion Hrun; subst.
      unfold events_since. rewrite drop_all.
      repeat split; try reflexivity; try congruence; try easy. }
  destruct photo as [ref|].
  2:{ unfold savePhoto in Hrun. rewrite Hchannel in Hrun.
      unfold P.reject in Hrun. inversion Hrun; subst.
      unfold events_since. rewrite drop_all.
      repeat split; try reflexivity; try congruence; try easy. }
  destruct (heap w !! ref) as [p|] eqn:Hp.
  2:{ unfold savePhoto, Heap.read in Hrun. rewrite Hchannel in Hrun.
      unfold_promise. rewrite Hp in Hrun. inversion Hrun; subst.
      unfold events_since. rewrite drop_all.
      repeat split; try reflexivity; try congruence; try easy.
      intros [?|?]; congruence. }
  pose proof (savePhoto_run channelName ref p options w w' r Hp Hchannel Hrun)
    as Hcases.
  cbv zeta in Hcases.
  destruct r as [content|e].
  - destruct Hcases as (response & Hget & Hstatus & Hevents & Hheap & _).
    split; [discriminate|]. split; [intros [?|?]; congruence|].
    split.
    { intros ref' p' response' _ Href Hp' Hget' Hstatus'.
      inversion Href; subst ref'. rewrite Hp in Hp'. inversion Hp'; subst p'.
      rewrite Hget in Hget'. inversion Hget'; subst. contradiction. }
    split.
    { intros key content' e Hin.
      destruct (resize options) as [[width height]|];
        destruct Hevents as [_ Hevents]; rewrite Hevents in Hin;
        simpl in Hin; intuition discriminate. }
    intros _.
    destruct (resize options) as [[width height]|];
      destruct Hevents as [_ Hevents]; rewrite Hevents.
    + eexists [_; _], _, _. split; reflexivity.
    + eexists [_], _, _. split; reflexivity.
  - destruct Hcases as (Hheap & _ & _ & Hwhy).
    split; [intros; exact Hheap|]. split; [intros [?|?]; congruence|].
    split.
    { intros ref' p' response' _ Href Hp' Hget' Hstatus'.
      inversion Href; subst ref'. rewrite Hp in Hp'. inversion Hp'; subst p'.
      destruct Hwhy as [(before & c & Hevents & Hbefore)|
                        (response & Hget & _ & He & _)].
      - exfalso. clear - Hrun Hp Hchannel Hget' Hstatus' Hevents Hbefore.
        unfold savePhoto, Heap.read, Request.get in Hrun.
        rewrite Hchannel in Hrun. unfold_promise. rewrite Hp, Hget' in Hrun.
        apply Nat.eqb_neq in Hstatus'. rewrite Hstatus' in Hrun.
        cbn [negb] in Hrun. inversion Hrun; subst.
        erewrite events_since_record in Hevents by reflexivity.
        destruct before as [|b [|b' before]]; inversion Hevents.
      - rewrite Hget in Hget'. inversion Hget'; subst. reflexivity. }
    split.
    { intros key content e' Hin.
      destruct Hwhy as [(before & c & Hevents & Hbefore)|
                        (response & _ & _ & _ & Hevents)].
      - rewrite Hevents in Hin.
        destruct (failed_event_is_last _ _ _ _ _ Hbefore Hin) as [_ ->].
        reflexivity.
      - rewrite Hevents in Hin. simpl in Hin. intuition discriminate. }
    intros Hchanged. contradiction.
Qed.

End PhotoPersistence.

Lemma savePhoto_url_only_after_upload_example :
  heap (fst (savePhoto
               (Sample.with_status 404 "Not Found"
                  (Sample.env Sample.faces_by_name (inr [])))
               Sample.taste (Some "tinder") (Some 0%nat) no_options
               Sample.candidates))
  = heap Sample.candidates.
Proof.
  set (run := savePhoto
                (Sample.with_status 404 "Not Found"
                   (Sample.env Sample.faces_by_name (inr [])))
                Sample.taste (Some "tinder") (Some 0%nat) no_options
                Sample.candidates).
  apply (proj1
           (savePhoto_url_only_after_upload _ _ _ _ _ _ (fst run) (snd run)
              (surjective_pairing run))
           (Error
              "Unable to download photo https://images.example.com/cache/images/abc/1.jpg because of 404 Not Found")).
  reflexivity.
Defined.

(** ** Thumbnails *)

Section Thumbnail.

Variable env : Env.
Variable this : Taste.

(** C9. [mentalSnapshot] works on a clone of the photo. Whatever the run
    does, the photo record that was passed in is the same afterwards, with
    its [url], [similarity] and [similarity_date]. A run that fulfils has
    downloaded the image, resized it to 84 by 84, stored the result in the
    bucket under the renamed key, and returns the URL of that object, which
    is the [url] of the clone. A run rejects only when a collaborator call
    failed or the download answered with a status other than 200. *)
Theorem mentalSnapshot_thumbnail
    (channelName : option string) (photo : nat) (p : Photo)
    (w w' : World) (r : Settled string) :
  heap w !! photo = Some p ->
  JS.truthy_str channelName = true ->
  mentalSnapshot env this channelName (Some photo) w = (w', r) ->
  let u := url_parse env (url p) in
  let pathname := savePhoto_pathname this channelName u thumbnail_options in
  let key := savePhoto_key channelName pathname in
  let w0 := set_heap (heap w ++ [p]) w in
  heap w' !! photo = Some p /\
  match r with
  | Fulfilled thumbnailUrl =>
      exists response content,
        request_get env w0 (href u) = inr response /\
        statusCode response = 200%nat /\
        sharp_resize env (record (HttpGet (href u)) Succeeded w0)
          (body response) 84 84 = inr content /\
        events_since w w' =
          [event (HttpGet (href u)) Succeeded;
           event (SharpResize 84 84) Succeeded;
           event (PutObject key content) Succeeded] /\
        In (key, content) (objects w') /\
        thumbnailUrl = savePhoto_url env this channelName pathname /\
        heap w' = heap w ++ [with_url thumbnailUrl p]
  | Rejected e =>
      heap w' = heap w ++ [p] /\
      objects w' = objects w /\
      ((exists before c,
          events_since w w' = before ++ [event c (Failed e)] /\
          forallb succeeded before = true) \/
       (exists response,
          request_get env w0 (href u) = inr response /\
          statusCode response <> 200%nat /\
          e = download_error u response))
  end.
Proof.
  intros Hp Hchannel Hrun u pathname key w0.
  unfold mentalSnapshot in Hrun. rewrite Hchannel in Hrun.
  unfold Heap.clone in Hrun. unfold_promise. rewrite Hp in Hrun.
  fold w0 in Hrun.
  assert (heap w0 !! List.length (heap w) = Some p) as Hclone.
  { simpl. rewrite lookup_app_r by lia. rewrite Nat.sub_diag. reflexivity. }
  assert (photo < List.length (heap w))%nat as Hlt
    by (eapply lookup_lt_Some; exact Hp).
  destruct (savePhoto env this channelName (Some (List.length (heap w)))
              thumbnail_options w0) as [w1 r1] eqn:Hsave.
  pose proof (savePhoto_run env this channelName (List.length (heap w)) p
                thumbnail_options w0 w1 r1 Hclone Hchannel Hsave) as Hcases.
  cbv zeta in Hcases. fold u in Hcases. fold pathname in Hcases.
  fold key in Hcases.
  assert (events_since w w1 = events_since w0 w1) as Hsince by reflexivity.
  destruct r1 as [content|e].
  - destruct Hcases as (response & Hget & Hstatus & [Hsharp Hevents]
                        & Hheap & Hobjects & _).
    assert (heap w1 =
            heap w ++ [with_url (savePhoto_url env this channelName pathname) p])
      as Hheap'.
    { rewrite Hheap. simpl.
      rewrite insert_app_r_alt by lia. rewrite Nat.sub_diag. reflexivity. }
    unfold Heap.read in Hrun. rewrite Hheap' in Hrun.
    rewrite lookup_app_r in Hrun by lia. rewrite Nat.sub_diag in Hrun.
    simpl in Hrun. inversion Hrun; subst w' r.
    split.
    { rewrite Hheap'. rewrite lookup_app_l by exact Hlt. exact Hp. }
    exists response, content.
    split; [exact Hget|]. split; [exact Hstatus|]. split; [exact Hsharp|].
    split; [rewrite Hsince; exact Hevents|].
    split; [rewrite Hobjects; left; reflexivity|].
    split; [reflexivity|exact Hheap'].
  - destruct Hcases as (Hheap & Hobjects & _ & Hwhy).
    inversion Hrun; subst w' r.
    split.
    { rewrite Hheap. simpl. rewrite lookup_app_l by exact Hlt. exact Hp. }
    split; [rewrite Hheap; reflexivity|].
    split; [rewrite Hobjects; reflexivity|].
    rewrite Hsince.
    destruct Hwhy as [Hfailed|(response & Hget & Hstatus & He & _)].
    + left. exact Hfailed.
    + right. exists response. split; [exact Hget|]. split; assumption.
Qed.

End Thumbnail.

Lemma mentalSnapshot_thumbnail_example :
  exists w',
    mentalSnapshot (Sample.env Sample.faces_by_name (inr [])) Sample.taste
      (Some "tinder") (Some 1%nat) Sample.candidates
    = (w', Fulfilled
             "https://s3-eu-west-1.amazonaws.com/bucket/photos/tinder/abc/84x84_2.jpg") /\
    heap w' !! 1%nat =
      Some (Sample.checked
              "https://s3-eu-west-1.amazonaws.com/bucket/photos/tinder/abc/2.jpg"
              90) /\
    In ("photos/tinder/abc/84x84_2.jpg", Sample.thumb) (objects w').
Proof.
  set (run := mentalSnapshot (Sample.env Sample.faces_by_name (inr []))
                Sample.taste (Some "tinder") (Some 1%nat) Sample.candidates).
  destruct (mentalSnapshot_thumbnail
              (Sample.env Sample.faces_by_name (inr [])) Sample.taste
              (Some "tinder") 1
              (Sample.checked
                 "https://s3-eu-west-1.amazonaws.com/bucket/photos/tinder/abc/2.jpg"
                 90)
              Sample.candidates (fst run) (snd run)
              eq_refl eq_refl (surjective_pairing run))
    as [Hsame Hthumbnail].
  exists (fst run). split; [reflexivity|]. split; [exact Hsame|].
  destruct Hthumbnail as (response & content & _ & _ & Hresized & _ & Hin & _).
  inversion Hresized; subst content. exact Hin.
Defined.

(** ** Comparing faces *)

Section FaceComparison.

Variable env : Env.
Variable this : Taste.

(** C5. When [searchFacesByImage] fails with an error whose code holds
    [InvalidImageFormatException] or [InvalidParameterException],
    [compareFacesFromImage] sets the photo's [similarity] to 0 and its
    [similarity_date] to a reading of the clock and fulfils with 0. In
    [checkPhotoOut], where the search follows a successful [savePhoto], the
    photo's step therefore fulfils with 0, and the batch of [checkPhotosOut]
    goes on with the remaining photos. *)
Theorem compareFaces_invalid_image
    (photo : nat) (image : Buffer) (e : Err) (w : World) :
  searchFaces_answer env w image = inl e ->
  invalid_image e = true ->
  (forall p,
     heap w !! photo = Some p ->
     exists w' clock,
       compareFacesFromImage env this photo image w
         = (w', Fulfilled (JNum 0)) /\
       heap w' !! photo =
         Some (with_similarity_date (toISOString_now env clock)
                 (with_similarity (JNum 0) p)) /\
       events_since w w' = [event (SearchFacesByImage image) (Failed e)]) /\
  (forall channelName w0 p0,
     heap w0 !! photo = Some p0 ->
     JS.truthy_str (similarity_date p0) = false ->
     savePhoto env this channelName (Some photo) no_options w0
       = (w, Fulfilled image) ->
     exists w' p clock,
       checkPhotoOut env this channelName photo w0
         = (w', Fulfilled (JNum 0)) /\
       heap w' !! photo = Some p /\
       similarity p = JNum 0 /\
       similarity_date p = Some (toISOString_now env clock) /\
       forall rest,
         P.map (checkPhotoOut env this channelName) (photo :: rest) w0
         = P.andThen (P.map (checkPhotoOut env this channelName) rest)
             (fun similarities => P.resolve (JNum 0 :: similarities)) w').
Proof.
  intros Hsearch Hcode.
  assert (forall p,
            heap w !! photo = Some p ->
            exists w' clock,
              compareFacesFromImage env this photo image w
                = (w', Fulfilled (JNum 0)) /\
              heap w' !! photo =
                Some (with_similarity_date (toISOString_now env clock)
                        (with_similarity (JNum 0) p)) /\
              events_since w w' = [event (SearchFacesByImage image) (Failed e)])
    as Hcompare.
  { intros p Hp.
    assert (photo < List.length (heap w))%nat as Hlt
      by (eapply lookup_lt_Some; exact Hp).
    unfold compareFacesFromImage, Rekognition.searchFacesByImage.
    unfold_promise. rewrite Hsearch, Hcode.
    unfold Heap.set_similarity, Heap.update. simpl heap. rewrite Hp.
    unfold Date_now, Heap.set_similarity_date, Heap.update. simpl heap.
    rewrite list_lookup_insert_eq by exact Hlt.
    unfold Heap.read. simpl heap.
    rewrite list_lookup_insert_eq by (rewrite length_insert; exact Hlt).
    eexists _, _. split; [reflexivity|].
    split.
    - simpl. rewrite list_lookup_insert_eq
        by (rewrite length_insert; exact Hlt). reflexivity.
    - apply events_since_record. reflexivity. }
  split; [exact Hcompare|].
  intros channelName w0 p0 Hp0 Hdate Hsave.
  destruct channelName as [c|]; [|discriminate Hsave].
  destruct (JS.truthy_str (Some c)) eqn:Hchannel;
    [|unfold savePhoto in Hsave; rewrite Hchannel in Hsave; discriminate Hsave].
  pose proof (savePhoto_run env this (Some c) photo p0 no_options w0 w
                (Fulfilled image) Hp0 Hchannel Hsave) as Hsaved.
  cbv zeta in Hsaved.
  destruct Hsaved as (_ & _ & _ & _ & Hheap & _).
  assert (photo < List.length (heap w0))%nat as Hlt
    by (eapply lookup_lt_Some; exact Hp0).
  assert (exists p1, heap w !! photo = Some p1) as [p1 Hp1].
  { rewrite Hheap. eexists. apply list_lookup_insert_eq. exact Hlt. }
  destruct (Hcompare p1 Hp1) as (w' & clock & Hrun & Hp' & _).
  assert (checkPhotoOut env this (Some c) photo w0 = (w', Fulfilled (JNum 0)))
    as Hcheck.
  { unfold checkPhotoOut, Heap.read. unfold_promise.
    rewrite Hp0, Hdate, Hsave, Hrun. reflexivity. }
  exists w',
         (with_similarity_date (toISOString_now env clock)
            (with_similarity (JNum 0) p1)),
         clock.
  split; [exact Hcheck|]. split; [exact Hp'|].
  split; [reflexivity|]. split; [reflexivity|].
  intros rest. simpl. unfold P.andThen at 1. rewrite Hcheck. reflexivity.
Qed.

End FaceComparison.

Lemma compareFaces_invalid_image_example :
  exists w',
    checkPhotoOut (Sample.env Sample.faces_by_name (inl Sample.invalid_format))
      Sample.taste (Some "tinder") 0 Sample.candidates
    = (w', Fulfilled (JNum 0)) /\
    heap w' !! 0%nat =
      Some {| url :=
                "https://s3-eu-west-1.amazonaws.com/bucket/photos/tinder/abc/1.jpg";
              similarity := JNum 0;
              similarity_date := Some "2017-06-01T10:00:00.000Z" |}.
Proof.
  set (saved := savePhoto
                  (Sample.env Sample.faces_by_name (inl Sample.invalid_format))
                  Sample.taste (Some "tinder") (Some 0%nat) no_options
                  Sample.candidates).
  destruct (compareFaces_invalid_image
              (Sample.env Sample.faces_by_name (inl Sample.invalid_format))
              Sample.taste 0 Sample.jpeg Sample.invalid_format (fst saved)
              eq_refl eq_refl) as [_ Hcheck].
  destruct (Hcheck (Some "tinder") Sample.candidates
              (Sample.unchecked
                 "https://images.example.com/cache/images/abc/1.jpg")
              eq_refl eq_refl eq_refl)
    as (w' & p & clock & Hrun & Hp & _).
  exists w'. split; [exact Hrun|].
  assert (w' = fst (checkPhotoOut
                      (Sample.env Sample.faces_by_name
                         (inl Sample.invalid_format))
                      Sample.taste (Some "tinder") 0 Sample.candidates))
    as -> by (rewrite Hrun; reflexivity).
  reflexivity.
Defined.

(** ** Promises only add to the trace *)

Lemma extends_resolve {A} (a : A) : extends (P.resolve a).
Proof.
  intros w w' r H. inversion H; subst. exists []. symmetry. apply app_nil_r.
Qed.

Lemma extends_reject {A} (e : Err) : extends (@P.reject A e).
Proof.
  intros w w' r H. inversion H; subst. exists []. symmetry. apply app_nil_r.
Qed.

Lemma extends_andThen {A B} (p : Promise A) (f : A -> Promise B) :
  extends p -> (forall a, extends (f a)) -> extends (P.andThen p f).
Proof.
  intros Hp Hf w w' r H. unfold P.andThen in H.
  destruct (p w) as [w1 [a|e]] eqn:Hpw.
  - destruct (Hp _ _ _ Hpw) as [evs1 H1]. destruct (Hf a _ _ _ H) as [evs2 H2].
    exists (evs1 ++ evs2). rewrite H2, H1. symmetry. apply app_assoc.
  - inversion H; subst. eapply Hp. exact Hpw.
Qed.

Lemma extends_catch {A} (p : Promise A) (h : Err -> Promise A) :
  extends p -> (forall e, extends (h e)) -> extends (P.catch p h).
Proof.
  intros Hp Hh w w' r H. unfold P.catch in H.
  destruct (p w) as [w1 [a|e]] eqn:Hpw.
  - inversion H; subst. eapply Hp. exact Hpw.
  - destruct (Hp _ _ _ Hpw) as [evs1 H1]. destruct (Hh e _ _ _ H) as [evs2 H2].
    exists (evs1 ++ evs2). rewrite H2, H1. symmetry. apply app_assoc.
Qed.

Lemma extends_props2 {A B} (p : Promise A) (q : Promise B) :
  extends p -> extends q -> extends (P.props2 p q).
Proof.
  intros Hp Hq w w' r H. unfold P.props2 in H.
  destruct (p w) as [w1 ra] eqn:Hpw. destruct (q w1) as [w2 rb] eqn:Hqw.
  destruct (Hp _ _ _ Hpw) as [evs1 H1]. destruct (Hq _ _ _ Hqw) as [evs2 H2].
  exists (evs1 ++ evs2).
  assert (w' = w2) as -> by (destruct ra, rb; inversion H; reflexivity).
  rewrite H2, H1. symmetry. apply app_assoc.
Qed.

Lemma andThen_after {A B} (p : Promise A) (f : A -> Promise B)
    (w w1 : World) (ra : Settled A) (w' : World) (r : Settled B) :
  p w = (w1, ra) ->
  (forall a, extends (f a)) ->
  P.andThen p f w = (w', r) ->
  exists evs, trace w' = trace w1 ++ evs.
Proof.
  intros Hp Hf H. unfold P.andThen in H. rewrite Hp in H.
  destruct ra as [a|e].
  - eapply Hf. exact H.
  - inversion H; subst. exists []. symmetry. apply app_nil_r.
Qed.

Lemma extends_map {A B} (f : A -> Promise B) (items : list A) :
  (forall x, extends (f x)) -> extends (P.map f items).
Proof.
  intros Hf. induction items as [|x rest IH]; simpl.
  - apply extends_resolve.
  - apply extends_andThen; [apply Hf|]. intros y.
    apply extends_andThen; [exact IH|]. intros ys. apply extends_resolve.
Qed.

Lemma extends_mapUpdating {A S} (f : A -> S -> Promise S) (items : list A) :
  (forall x s, extends (f x s)) -> forall s, extends (P.mapUpdating f items s).
Proof.
  intros Hf. induction items as [|x rest IH]; intros s; simpl.
  - apply extends_resolve.
  - apply extends_andThen; [apply Hf|]. exact IH.
Qed.

Lemma extends_record {A} (answer : World -> World * Settled A) :
  (forall w, exists c o v w0,
     answer w = (record c o w0, v) /\ trace w0 = trace w) ->
  extends answer.
Proof.
  intros Hanswer w w' r H.
  destruct (Hanswer w) as (c & o & v & w0 & Heq & Htrace).
  rewrite Heq in H. inversion H; subst. simpl. rewrite Htrace.
  eexists. reflexivity.
Qed.

Ltac extends_call :=
  apply extends_record; intros ?;
  repeat match goal with
         | |- context [match ?x with _ => _ end] => destruct x
         end;
  eexists _, _, _, _; split; reflexivity.

Lemma extends_warn (msg : string) : extends (Logger.warn msg).
Proof. unfold Logger.warn. extends_call. Qed.

Lemma extends_debug (m : LogMessage) : extends (Logger.debug m).
Proof. unfold Logger.debug. extends_call. Qed.

Lemma extends_indexFaces env collection bucket image :
  extends (Rekognition.indexFaces env collection bucket image).
Proof. unfold Rekognition.indexFaces. extends_call. Qed.

Lemma extends_deleteFaces env collection ids :
  extends (Rekognition.deleteFaces env collection ids).
Proof. unfold Rekognition.deleteFaces. extends_call. Qed.

Lemma extends_deleteObject env bucket key :
  extends (S3.deleteObject env bucket key).
Proof. unfold S3.deleteObject. extends_call. Qed.

Lemma extends_copyObject env bucket src dst :
  extends (S3.copyObject env bucket src dst).
Proof. unfold S3.copyObject. extends_call. Qed.

Lemma extends_read (ref : nat) : extends (Heap.read ref).
Proof.
  intros w w' r H. unfold Heap.read in H.
  destruct (heap w !! ref); inversion H; subst; exists [];
    symmetry; apply app_nil_r.
Qed.

Create HintDb extends.
#[local] Hint Resolve extends_resolve extends_reject extends_andThen
  extends_catch extends_props2 extends_map extends_mapUpdating extends_warn
  extends_debug extends_indexFaces extends_deleteFaces extends_deleteObject
  extends_copyObject extends_read : extends.

Lemma extends_indexFacesFromImage env this image indexedFaces :
  extends (indexFacesFromImage env this image indexedFaces).
Proof.
  unfold indexFacesFromImage.
  apply extends_catch.
  - apply extends_andThen; [auto with extends|].
    intros data. destruct (Rekognition.FaceRecords data) as [records|];
      [|auto with extends].
    destruct (negb (List.length records =? 1)%nat); auto 7 with extends.
  - intros e. destruct (invalid_image e); auto 7 with extends.
Qed.

Lemma extends_indexFacesFromImages env this images :
  extends (indexFacesFromImages env this images).
Proof.
  unfold indexFacesFromImages. apply extends_mapUpdating.
  intros. apply extends_indexFacesFromImage.
Qed.

Lemma extends_acquireTaste_copy env this photo :
  extends (acquireTaste_copy env this photo).
Proof. unfold acquireTaste_copy. auto 7 with extends. Qed.

(** ** Acquiring taste *)

Lemma prefix_append (a b : string) : String.prefix a (a +:+ b) = true.
Proof.
  induction a as [|c a IH]; simpl.
  - destruct b; reflexivity.
  - destruct (ascii_dec c c) as [_|Hne]; [exact IH|contradiction].
Qed.

Lemma drop_chars_append (a b : string) :
  JS.drop_chars (String.length a) (a +:+ b) = b.
Proof. induction a as [|c a IH]; simpl; [reflexivity|exact IH]. Qed.

Lemma replace_at_start (pat rep rest : string) :
  JS.replace (pat +:+ rest) pat rep = rep +:+ rest.
Proof.
  assert (forall s, JS.replace s pat rep =
                    if String.prefix pat s
                    then rep +:+ JS.drop_chars (String.length pat) s
                    else match s with
                         | EmptyString => EmptyString
                         | String c r => String c (JS.replace r pat rep)
                         end) as Hunfold by (intros []; reflexivity).
  rewrite Hunfold, prefix_append, drop_chars_append. reflexivity.
Qed.

Section Acquisition.

Variable env : Env.
Variable this : Taste.

(** C8. [acquireTaste] takes the path of the photo's URL as source key and
    replaces the prefix [/<bucket>/photos] by [train] to get the
    destination key. With the bucket [bucket], the path
    [/bucket/photos/channel123/abc.jpg] gives [train/channel123/abc.jpg],
    and these two keys are the arguments of the [copyObject] call, the
    first call that [acquireTaste] makes for the photo. *)
Theorem acquireTaste_training_key :
  (forall rest,
     trainingKey this (("/" +:+ _s3Bucket this +:+ "/photos") +:+ rest)
     = "train" +:+ rest) /\
  (_s3Bucket this = "bucket" ->
   trainingKey this "/bucket/photos/channel123/abc.jpg"
   = "train/channel123/abc.jpg") /\
  (forall photo p others w w' r,
     _s3Bucket this = "bucket" ->
     heap w !! photo = Some p ->
     pathname (url_parse env (url p)) = "/bucket/photos/channel123/abc.jpg" ->
     acquireTaste env this (photo :: others) w = (w', r) ->
     exists o evs,
       events_since w w' =
         event (CopyObject "/bucket/photos/channel123/abc.jpg"
                  "train/channel123/abc.jpg") o :: evs).
Proof.
  split; [|split].
  - intros rest. unfold trainingKey. apply replace_at_start.
  - intros Hbucket. unfold trainingKey. rewrite Hbucket. reflexivity.
  - intros photo p others w w' r Hbucket Hp Hpath Hrun.
    assert (trainingKey this "/bucket/photos/channel123/abc.jpg"
            = "train/channel123/abc.jpg") as Hkey
      by (unfold trainingKey; rewrite Hbucket; reflexivity).
    set (src := "/bucket/photos/channel123/abc.jpg") in *.
    set (dst := "train/channel123/abc.jpg") in *.
    assert (exists o w1 r1,
              acquireTaste_copy env this photo w = (w1, r1) /\
              trace w1 = trace w ++ [event (CopyObject src dst) o])
      as (o & w1 & r1 & Hcopy & Htrace).
    { unfold acquireTaste_copy, Heap.read, S3.copyObject. unfold_promise.
      rewrite Hp, Hpath, Hkey.
      destruct (copyObject_source env w src);
        eexists _, _, _; split; reflexivity. }
    assert (exists evs, trace w' = trace w1 ++ evs) as [evs Hrest].
    { unfold acquireTaste in Hrun.
      destruct (P.map (acquireTaste_copy env this) (photo :: others) w)
        as [w2 images] eqn:Hmap.
      simpl P.map in Hmap.
      assert (exists evs1, trace w2 = trace w1 ++ evs1) as [evs1 H1].
      { eapply andThen_after; [exact Hcopy| |exact Hmap].
        intros. apply extends_andThen;
          [apply extends_map; intros; apply extends_acquireTaste_copy
          |intros; apply extends_resolve]. }
      assert (exists evs2, trace w' = trace w2 ++ evs2) as [evs2 H2].
      { eapply andThen_after; [exact Hmap| |exact Hrun].
        intros. apply extends_andThen;
          [apply extends_indexFacesFromImages|intros; apply extends_debug]. }
      exists (evs1 ++ evs2). rewrite H2, H1. symmetry. apply app_assoc. }
    exists o, evs. apply events_since_record.
    rewrite Hrest, Htrace. rewrite <- app_assoc. reflexivity.
Qed.

End Acquisition.

Lemma acquireTaste_training_key_example :
  trainingKey Sample.taste "/bucket/photos/channel123/abc.jpg"
  = "train/channel123/abc.jpg" /\
  exists o evs,
    events_since Sample.liked
      (fst (acquireTaste (Sample.env Sample.faces_by_name (inr []))
              Sample.taste [0%nat] Sample.liked))
    = event (CopyObject "/bucket/photos/channel123/abc.jpg"
               "train/channel123/abc.jpg") o :: evs.
Proof.
  destruct (acquireTaste_training_key
              (Sample.env Sample.faces_by_name (inr [])) Sample.taste)
    as (_ & Hkey & Hcopy).
  split; [apply Hkey; reflexivity|].
  set (run := acquireTaste (Sample.env Sample.faces_by_name (inr []))
                Sample.taste [0%nat] Sample.liked).
  apply (Hcopy 0%nat
           (Sample.checked
              "https://s3-eu-west-1.amazonaws.com/bucket/photos/channel123/abc.jpg"
              91)
           [] Sample.liked (fst run) (snd run)
           eq_refl eq_refl eq_refl (surjective_pairing run)).
Defined.

(** ** The aggregation of a batch *)

(** Rounding to two decimals gives the nearest multiple of 1/100, the upper
    one when there are two. *)
Lemma round2_Q_nearest (q : Q) :
  (exists z, Lodash.round2_Q q == z # 100)%Q /\
  (q - (1 # 200) < Lodash.round2_Q q)%Q /\
  (Lodash.round2_Q q <= q + (1 # 200))%Q.
Proof.
  unfold Lodash.round2_Q. set (z := Qfloor (q * 100 + (1 # 2))).
  pose proof (Qfloor_le (q * 100 + (1 # 2))) as Hle.
  pose proof (Qlt_floor (q * 100 + (1 # 2))) as Hlt.
  fold z in Hle, Hlt.
  assert ((z # 100) == inject_Z z * (1 # 100))%Q as Hz.
  { unfold Qeq, inject_Z. simpl. lia. }
  assert (inject_Z (z + 1) == inject_Z z + 1)%Q as Hz1.
  { rewrite inject_Z_plus. reflexivity. }
  rewrite Hz1 in Hlt.
  split; [exists z; apply Qred_correct|].
  rewrite !Qred_correct, Hz. split; lra.
Qed.



Section Aggregation.

Variable env : Env.
Variable this : Taste.

(** What a fulfilled [checkPhotosOut] returns, from its similarity list and
    the settings row that is in the database afterwards. *)
Lemma checkPhotosOut_fulfilled
    (channelName : option string) (photos : option (list nat))
    (w w' : World) (out : CheckedOut) :
  checkPhotosOut env this channelName photos w = (w', Fulfilled out) ->
  exists s,
    settings w' = Some s /\
    faceSimilarityMax out = Lodash.max (faceSimilarities out) /\
    faceSimilarityMin out = Lodash.min (faceSimilarities out) /\
    faceSimilarityMean out = similarityMean (faceSimilarities out) /\
    like out =
      decideLike (faceSimilarities out)
        (similarityMean (faceSimilarities out)) s.
Proof.
  intros Hrun. unfold checkPhotosOut in Hrun.
  destruct (JS.truthy_str channelName); [|discriminate Hrun].
  destruct photos as [photos|]; [|discriminate Hrun].
  unfold_promise.
  destruct (notCheckedOut photos w) as [w1 [pending|e]]; [|discriminate Hrun].
  destruct (P.map (checkPhotoOut env this channelName) photos w1)
    as [w2 [similarities|e]]; [|discriminate Hrun].
  unfold findOrCreateNewSettings, Database.settings_findById in Hrun.
  unfold_promise.
  destruct (settings_error env w2) as [e|]; [discriminate Hrun|].
  destruct (settings w2) as [s|] eqn:Hsettings.
  - exists s.
    destruct pending; unfold Logger.debug in Hrun; inversion Hrun; subst;
      simpl; repeat split; try reflexivity; exact Hsettings.
  - unfold Database.settings_create in Hrun.
    match type of Hrun with
    | context [settings_error env ?w0] =>
        destruct (settings_error env w0) as [e|]; [discriminate Hrun|]
    end.
    exists (settings_defaults env).
    destruct pending; unfold Logger.debug in Hrun; inversion Hrun; subst;
      simpl; repeat split; reflexivity.
Qed.

(** C7, as the code has it. For the similarity list [0, 0] a fulfilled
    [checkPhotosOut] returns the mean 0, and [like] is false exactly when
    [likePhotosThreshold] is not negative: the comparison [0 > threshold]
    is made as for any other mean. *)
Theorem checkPhotosOut_zero_scores
    (channelName : option string) (photos : option (list nat))
    (w w' : World) (out : CheckedOut) :
  checkPhotosOut env this channelName photos w = (w', Fulfilled out) ->
  faceSimilarities out = [JNum 0; JNum 0] ->
  faceSimilarityMean out = JNum 0 /\
  exists s,
    settings w' = Some s /\
    (like out = false <-> (0 <= likePhotosThreshold s)%Q).
Proof.
  intros Hrun Hscores.
  destruct (checkPhotosOut_fulfilled _ _ _ _ _ Hrun)
    as (s & Hsettings & _ & _ & Hmean & Hlike).
  rewrite Hscores in *.
  split; [rewrite Hmean; reflexivity|].
  exists s. split; [exact Hsettings|].
  rewrite Hlike.
  change (similarityMean [JNum 0; JNum 0]) with (JNum 0).
  unfold decideLike, Lodash.gt. cbn [Lodash.to_number negb andb].
  rewrite negb_false_iff. apply Qle_bool_iff.
Qed.

End Aggregation.

(** C4. A check-out that failed takes the mean of the batch with it. The
    batch has two photos and the threshold is 84: the download of the first
    photo is answered with 404, the second photo was checked out earlier
    with the score 90. The failed check-out contributes what [Logger.warn]
    resolved with, the string [warn], and [_.without(..., 0, undefined)]
    leaves it in the list; the sum of the list is the text [warn90], its
    mean is [NaN], so [checkPhotosOut] returns the mean 0 and [like] false,
    where the mean of the scores of the batch is 90, above the threshold. *)
Theorem checkPhotosOut_failed_check_out :
  exists w',
    checkPhotosOut
      (Sample.with_status 404 "Not Found"
         (Sample.env Sample.faces_by_name (inr [])))
      Sample.taste (Some "tinder") (Some [0; 1]%nat) Sample.candidates
    = (w', Fulfilled
             {| faceSimilarities := [JStr "warn"; JNum 90];
                faceSimilarityMax := JStr "warn";
                faceSimilarityMin := JStr "warn";
                faceSimilarityMean := JNum 0;
                like := false |}) /\
    settings w' = Some {| likePhotosThreshold := 84 |} /\
    Lodash.without_0_undefined [JStr "warn"; JNum 90]
      = [JStr "warn"; JNum 90] /\
    Lodash.baseSum [JStr "warn"; JNum 90] = JStr "warn90" /\
    Lodash.mean [JStr "warn"; JNum 90] = JNaN.
Proof.
  eexists. split; [vm_compute; reflexivity|].
  split; [reflexivity|]. repeat split; vm_compute; reflexivity.
Qed.

(** With the threshold -1 the list [0, 0] gives the mean 0 and the profile
    is liked. *)
Lemma checkPhotosOut_zero_scores_liked :
  exists w',
    checkPhotosOut (Sample.env Sample.faces_by_name (inr [])) Sample.taste
      (Some "tinder") (Some [0; 1]%nat) (Sample.scored 0 0 (-1))
    = (w', Fulfilled {| faceSimilarities := [JNum 0; JNum 0];
                        faceSimilarityMax := JNum 0;
                        faceSimilarityMin := JNum 0;
                        faceSimilarityMean := JNum 0;
                        like := true |}).
Proof. eexists. vm_compute. reflexivity. Qed.

Lemma checkPhotosOut_zero_scores_example :
  exists w' out,
    checkPhotosOut (Sample.env Sample.faces_by_name (inr [])) Sample.taste
      (Some "tinder") (Some [0; 1]%nat) (Sample.scored 0 0 84)
    = (w', Fulfilled out) /\
    faceSimilarityMean out = JNum 0 /\
    like out = false.
Proof.
  set (run := checkPhotosOut (Sample.env Sample.faces_by_name (inr []))
                Sample.taste (Some "tinder") (Some [0; 1]%nat)
                (Sample.scored 0 0 84)).
  destruct (checkPhotosOut_zero_scores
              (Sample.env Sample.faces_by_name (inr [])) Sample.taste
              (Some "tinder") (Some [0; 1]%nat) (Sample.scored 0 0 84)
              (fst run)
              {| faceSimilarities := [JNum 0; JNum 0];
                 faceSimilarityMax := JNum 0;
                 faceSimilarityMin := JNum 0;
                 faceSimilarityMean := JNum 0;
                 like := false |}
              eq_refl eq_refl) as [Hmean _].
  exists (fst run),
         {| faceSimilarities := [JNum 0; JNum 0];
            faceSimilarityMax := JNum 0;
            faceSimilarityMin := JNum 0;
            faceSimilarityMean := JNum 0;
            like := false |}.
  split; [reflexivity|]. split; [exact Hmean|reflexivity].
Defined.

(** ** Synchronising the collection *)

Lemma existsb_eqb_In (x : string) (l : list string) :
  existsb (String.eqb x) l = true <-> In x l.
Proof.
  rewrite existsb_exists. split.
  - intros (y & Hy & Heq). apply String.eqb_eq in Heq. subst. exact Hy.
  - intros Hx. exists x. split; [exact Hx|apply String.eqb_refl].
Qed.

Lemma uniq_In (x : string) (l : list string) :
  In x (Lodash.uniq l) <-> In x l.
Proof.
  induction l as [|y l IH]; simpl; [reflexivity|].
  rewrite filter_In, IH, negb_true_iff, String.eqb_neq.
  destruct (string_dec y x) as [Heq|Hne].
  - split; intros _; left; exact Heq.
  - split; [intros [H|[H _]]; [left|right]; exact H|].
    intros [H|H]; [left; exact H|right; split; [exact H|exact Hne]].
Qed.

Lemma difference_In (x : string) (a b : list string) :
  In x (Lodash.difference a b) <-> In x a /\ ~ In x b.
Proof.
  unfold Lodash.difference.
  rewrite filter_In, negb_true_iff, <- (existsb_eqb_In x b).
  destruct (existsb (String.eqb x) b); split; intros [Ha Hb]; split;
    try exact Ha; try congruence; try (exfalso; apply Hb; reflexivity).
Qed.

Lemma difference_nil (a b : list string) :
  (forall x, In x a -> In x b) -> Lodash.difference a b = [].
Proof.
  intros Hsub. destruct (Lodash.difference a b) as [|x l] eqn:Hd;
    [reflexivity|].
  assert (In x (Lodash.difference a b)) as Hin by (rewrite Hd; left; reflexivity).
  apply difference_In in Hin. destruct Hin as [Ha Hb].
  exfalso. apply Hb, Hsub, Ha.
Qed.

Lemma currentImages_In (x : string) (Faces : list FaceRecord) :
  In x (currentImages Faces) <-> In x (List.map ExternalImageId Faces).
Proof. apply uniq_In. Qed.

Lemma facesToDelete_In (id : nat) (Faces : list FaceRecord)
    (availableImages : list string) :
  In id (facesToDelete Faces availableImages) <->
  exists f,
    In f Faces /\ FaceId f = id /\
    In (ExternalImageId f) (imagesToDelete Faces availableImages).
Proof.
  unfold facesToDelete. rewrite in_flat_map. split.
  - intros (x & Hx & Hid). apply in_map_iff in Hid.
    destruct Hid as (f & Hf & Hin). apply filter_In in Hin.
    destruct Hin as [Hin Heq]. apply String.eqb_eq in Heq. subst x.
    exists f. split; [exact Hin|]. split; assumption.
  - intros (f & Hin & Hid & Hx). exists (ExternalImageId f).
    split; [exact Hx|]. apply in_map_iff. exists f. split; [exact Hid|].
    apply filter_In. split; [exact Hin|apply String.eqb_refl].
Qed.

Lemma remove_ids_In (f : FaceRecord) (ids : list nat) (fs : list FaceRecord) :
  In f (Rekognition.remove_ids ids fs) <-> In f fs /\ ~ In (FaceId f) ids.
Proof.
  unfold Rekognition.remove_ids. rewrite filter_In, negb_true_iff.
  assert (existsb (Nat.eqb (FaceId f)) ids = true <-> In (FaceId f) ids) as Hex.
  { rewrite existsb_exists. split.
    - intros (y & Hy & Heq). apply Nat.eqb_eq in Heq. subst. exact Hy.
    - intros Hf. exists (FaceId f). split; [exact Hf|apply Nat.eqb_refl]. }
  rewrite <- Hex.
  destruct (existsb (Nat.eqb (FaceId f)) ids); split; intros [Ha Hb]; split;
    try exact Ha; try congruence; try (exfalso; apply Hb; reflexivity).
Qed.

Lemma remove_ids_nil (fs : list FaceRecord) : Rekognition.remove_ids [] fs = fs.
Proof.
  unfold Rekognition.remove_ids. induction fs as [|f fs IH];
    [reflexivity|]. simpl in *. rewrite IH. reflexivity.
Qed.

Lemma trainingImages_remove_key (k key : string)
    (objs : list (string * Buffer)) :
  In k (S3.keys_with_prefix "train" (S3.remove_key key objs)) <->
  In k (S3.keys_with_prefix "train" objs) /\ k <> key.
Proof.
  unfold S3.keys_with_prefix, S3.remove_key.
  rewrite !filter_In, !in_map_iff. split.
  - intros [((k' & b) & Hk & Hin) Hprefix]. simpl in Hk. subst k'.
    apply filter_In in Hin. destruct Hin as [Hin Hne]. simpl in Hne.
    apply negb_true_iff, String.eqb_neq in Hne.
    split; [split; [exists (k, b); split; [reflexivity|exact Hin]|exact Hprefix]|].
    congruence.
  - intros [[((k' & b) & Hk & Hin) Hprefix] Hne]. simpl in Hk. subst k'.
    split; [|exact Hprefix]. exists (k, b). split; [reflexivity|].
    apply filter_In. split; [exact Hin|]. simpl.
    apply negb_true_iff, String.eqb_neq. congruence.
Qed.

Lemma NoDup_map_filter {A B} (f : A -> B) (keep : A -> bool) (l : list A) :
  List.NoDup (List.map f l) -> List.NoDup (List.map f (List.filter keep l)).
Proof.
  induction l as [|x l IH]; simpl; intros Hnd; [constructor|].
  inversion Hnd as [|? ? Hnotin Hrest]; subst.
  destruct (keep x); simpl; [|apply IH; exact Hrest].
  constructor; [|apply IH; exact Hrest].
  intros Hin. apply Hnotin. apply in_map_iff in Hin.
  destruct Hin as (y & Hy & Hin). apply filter_In in Hin.
  apply in_map_iff. exists y. split; [exact Hy|apply Hin].
Qed.

Lemma NoDup_filter_list {A} (keep : A -> bool) (l : list A) :
  List.NoDup l -> List.NoDup (List.filter keep l).
Proof.
  intros Hnd. rewrite <- (List.map_id (List.filter keep l)).
  apply NoDup_map_filter. rewrite List.map_id. exact Hnd.
Qed.

Lemma same_id_same_face (fs : list FaceRecord) (f g : FaceRecord) :
  List.NoDup (List.map FaceId fs) ->
  In f fs -> In g fs -> FaceId f = FaceId g -> f = g.
Proof.
  induction fs as [|h fs IH]; simpl; intros Hnd Hf Hg Hid; [contradiction|].
  inversion Hnd as [|? ? Hnotin Hrest]; subst.
  destruct Hf as [->|Hf], Hg as [->|Hg].
  - reflexivity.
  - exfalso. apply Hnotin. rewrite Hid. apply in_map. exact Hg.
  - exfalso. apply Hnotin. rewrite <- Hid. apply in_map. exact Hf.
  - apply IH; assumption.
Qed.

Lemma events_since_app (w w1 w2 : World) (evs1 evs2 : list Event) :
  trace w1 = trace w ++ evs1 ->
  trace w2 = trace w1 ++ evs2 ->
  events_since w w2 = evs1 ++ evs2.
Proof.
  intros H1 H2. apply events_since_record. rewrite H2, H1.
  symmetry. apply app_assoc.
Qed.

Lemma new_faces_ids (image : string) (first n id : nat) :
  In id (List.map FaceId (Rekognition.new_faces image first n)) <->
  (first <= id < first + n)%nat.
Proof.
  unfold Rekognition.new_faces. rewrite List.map_map. simpl.
  rewrite in_map_iff. split.
  - intros (i & Hid & Hi). apply in_seq in Hi. lia.
  - intros Hid. exists (id - first)%nat. split; [lia|]. apply in_seq. lia.
Qed.

Lemma new_faces_image (image : string) (first n : nat) (f : FaceRecord) :
  In f (Rekognition.new_faces image first n) -> ExternalImageId f = image.
Proof.
  unfold Rekognition.new_faces. intros Hf. apply in_map_iff in Hf.
  destruct Hf as (i & <- & _). reflexivity.
Qed.

Lemma filter_all {A} (keep : A -> bool) (l : list A) :
  (forall x, In x l -> keep x = true) -> List.filter keep l = l.
Proof.
  induction l as [|x l IH]; simpl; intros Hall; [reflexivity|].
  rewrite (Hall x) by (left; reflexivity).
  rewrite IH; [reflexivity|]. intros y Hy. apply Hall. right. exact Hy.
Qed.

Lemma filter_none {A} (keep : A -> bool) (l : list A) :
  (forall x, In x l -> keep x = false) -> List.filter keep l = [].
Proof.
  induction l as [|x l IH]; simpl; intros Hnone; [reflexivity|].
  rewrite (Hnone x) by (left; reflexivity).
  apply IH. intros y Hy. apply Hnone. right. exact Hy.
Qed.

Lemma existsb_nat_In (x : nat) (l : list nat) :
  existsb (Nat.eqb x) l = true <-> In x l.
Proof.
  rewrite existsb_exists. split.
  - intros (y & Hy & Heq). apply Nat.eqb_eq in Heq. subst. exact Hy.
  - intros Hx. exists x. split; [exact Hx|apply Nat.eqb_refl].
Qed.

(** Deleting the faces that [indexFaces] has just added gives back the
    collection as it was. *)
Lemma remove_new_faces (image : string) (n : nat) (fs : list FaceRecord)
    (counter : nat) :
  Forall (fun f => (FaceId f < counter)%nat) fs ->
  Rekognition.remove_ids
    (List.map FaceId (Rekognition.new_faces image counter n))
    (fs ++ Rekognition.new_faces image counter n) = fs.
Proof.
  intros Hold. unfold Rekognition.remove_ids. rewrite List.filter_app.
  rewrite filter_all, filter_none; [apply app_nil_r| |].
  - intros f Hf. apply negb_false_iff. apply existsb_nat_In.
    apply in_map. exact Hf.
  - intros f Hf. apply negb_true_iff.
    destruct (existsb _ _) eqn:Hex; [|reflexivity].
    apply existsb_nat_In, new_faces_ids in Hex.
    rewrite List.Forall_forall in Hold. apply Hold in Hf. lia.
Qed.

Section Synchronizer.

Variable this : Taste.

Ltac unclean Hrun Hclean :=
  inversion Hrun; subst;
  erewrite events_since_record in Hclean
    by (simpl; repeat rewrite <- app_assoc; reflexivity);
  cbn in Hclean; discriminate Hclean.

(** What the callback of [indexFacesFromImages] has done when all its calls
    succeeded. *)
Lemma indexFacesFromImage_succeeded
    (env : Env) (image : string) (indexedFaces : nat) (w w' : World)
    (r : Settled nat) :
  indexFacesFromImage env this image indexedFaces w = (w', r) ->
  all_succeeded (events_since w w') = true ->
  Forall (fun f => (FaceId f < face_counter w)%nat) (faces w) ->
  exists n,
    (exists indexed, r = Fulfilled indexed) /\
    (face_counter w' = face_counter w + n)%nat /\
    ((n = 1%nat /\
      faces w' =
        faces w ++
        [{| FaceId := face_counter w; ExternalImageId := image |}] /\
      objects w' = objects w) \/
     (n <> 1%nat /\
      faces w' = faces w /\
      objects w' = S3.remove_key image (objects w))).
Proof.
  intros Hrun Hclean Hold.
  unfold indexFacesFromImage, Rekognition.indexFaces in Hrun. unfold_promise.
  destruct (indexFaces_answer env w image) as [e|[n|]] eqn:Hanswer.
  - (* indexFaces failed *)
    destruct (invalid_image e).
    + unfold S3.deleteObject in Hrun.
      match type of Hrun with
      | context [deleteObject_error env ?w0 image] =>
          destruct (deleteObject_error env w0 image)
      end; unclean Hrun Hclean.
    + unfold Logger.warn in Hrun. unclean Hrun Hclean.
  - cbn [Rekognition.FaceRecords] in Hrun.
    rewrite new_faces_length in Hrun.
    exists n.
    destruct (n =? 1)%nat eqn:Hn; cbn [negb] in Hrun.
    + apply Nat.eqb_eq in Hn. subst n. inversion Hrun; subst.
      split; [eexists; reflexivity|].
      split; [reflexivity|]. left. repeat split; try reflexivity.
      all: unfold Rekognition.new_faces; simpl; rewrite ?Nat.add_0_r;
        reflexivity.
    + apply Nat.eqb_neq in Hn.
      unfold Rekognition.deleteFaces in Hrun.
      match type of Hrun with
      | context [deleteFaces_error env ?w0 ?ids] =>
          destruct (deleteFaces_error env w0 ids) as [e1|]
      end.
      { destruct (invalid_image e1).
        - unfold S3.deleteObject in Hrun.
          match type of Hrun with
          | context [deleteObject_error env ?w0 image] =>
              destruct (deleteObject_error env w0 image)
          end; unclean Hrun Hclean.
        - unfold Logger.warn in Hrun. unclean Hrun Hclean. }
      unfold S3.deleteObject in Hrun.
      match type of Hrun with
      | context [deleteObject_error env ?w0 image] =>
          destruct (deleteObject_error env w0 image) as [e2|]
      end.
      { destruct (invalid_image e2).
        - match type of Hrun with
          | context [deleteObject_error env ?w0 image] =>
              destruct (deleteObject_error env w0 image)
          end; unclean Hrun Hclean.
        - unfold Logger.warn in Hrun. unclean Hrun Hclean. }
      inversion Hrun; subst. split; [eexists; reflexivity|].
      split; [reflexivity|]. right.
      split; [exact Hn|]. split; [|reflexivity].
      simpl. apply remove_new_faces. exact Hold.
  - (* an answer without FaceRecords *)
    cbn [Rekognition.FaceRecords] in Hrun. unclean Hrun Hclean.
Qed.


Lemma NoDup_snoc {A} (l : list A) (x : A) :
  List.NoDup l -> ~ In x l -> List.NoDup (l ++ [x]).
Proof.
  induction l as [|y l IH]; simpl; intros Hnd Hx.
  - constructor; [intros []|constructor].
  - inversion Hnd as [|? ? Hy Hl]; subst. constructor.
    + rewrite in_app_iff. intros [Hin|[Heq|[]]]; [contradiction|].
      apply Hx. left. symmetry. exact Heq.
    + apply IH; [exact Hl|]. intros Hin. apply Hx. right. exact Hin.
Qed.

Lemma indexFacesFromImage_keeps_sync
    (env : Env) (image : string) (rest : list string) (indexedFaces : nat)
    (w w' : World) (r : Settled nat) :
  indexFacesFromImage env this image indexedFaces w = (w', r) ->
  all_succeeded (events_since w w') = true ->
  in_sync_but (image :: rest) w ->
  in_sync_but rest w' /\ exists indexed, r = Fulfilled indexed.
Proof.
  intros Hrun Hclean (Hwf & Hfaces & Hkeys & Hnodup & Hrest).
  destruct Hwf as [Hids Hcounter Hobjects].
  destruct (indexFacesFromImage_succeeded _ _ _ _ _ _ Hrun Hclean Hcounter)
    as (n & Hfulfilled & Hcounter' & Hshape).
  split; [|exact Hfulfilled].
  inversion Hnodup as [|? ? Hfresh Hnodup']; subst.
  destruct (Hrest image (or_introl eq_refl)) as [Himage Hunknown].
  rewrite List.Forall_forall in Hcounter.
  destruct Hshape as [(-> & Hf & Ho)|(Hn & Hf & Ho)].
  - (* one face: the image is indexed *)
    assert (trainingImages w' = trainingImages w) as Htrain
      by (unfold trainingImages; rewrite Ho; reflexivity).
    split; [constructor|].
    + rewrite Hf, List.map_app. simpl. apply NoDup_snoc; [exact Hids|].
      intros Hin. apply in_map_iff in Hin. destruct Hin as (f & Hid & Hin).
      apply Hcounter in Hin. lia.
    + rewrite Hf, Hcounter'. apply List.Forall_forall. intros f Hin.
      apply in_app_iff in Hin. destruct Hin as [Hin|[<-|[]]].
      * apply Hcounter in Hin. lia.
      * simpl. lia.
    + rewrite Ho. exact Hobjects.
    + rewrite Htrain, Hf. split; [|split; [|split]].
      * intros f Hin. apply in_app_iff in Hin.
        destruct Hin as [Hin|[<-|[]]]; [apply Hfaces; exact Hin|exact Himage].
      * intros k Hk. rewrite List.map_app, in_app_iff.
        destruct (Hkeys k Hk) as [Hin|[<-|Hin]].
        -- left. left. exact Hin.
        -- left. right. left. reflexivity.
        -- right. exact Hin.
      * exact Hnodup'.
      * intros x Hx. destruct (Hrest x (or_intror Hx)) as [Hxt Hxf].
        split; [exact Hxt|]. rewrite List.map_app, in_app_iff.
        intros [Hin|[Heq|[]]]; [contradiction|].
        simpl in Heq. subst x. contradiction.
  - (* no face or several: the image is purged *)
    assert (forall k, In k (trainingImages w') <->
                      In k (trainingImages w) /\ k <> image) as Htrain.
    { intros k. unfold trainingImages. rewrite Ho.
      apply trainingImages_remove_key. }
    split; [constructor|].
    + rewrite Hf. exact Hids.
    + rewrite Hf, Hcounter'. apply List.Forall_forall. intros f Hin.
      apply Hcounter in Hin. lia.
    + rewrite Ho. unfold S3.remove_key. apply NoDup_map_filter. exact Hobjects.
    + rewrite Hf. split; [|split; [|split]].
      * intros f Hin. apply Htrain. split; [apply Hfaces; exact Hin|].
        intros Heq. apply Hunknown. rewrite <- Heq. apply in_map. exact Hin.
      * intros k Hk. apply Htrain in Hk. destruct Hk as [Hk Hne].
        destruct (Hkeys k Hk) as [Hin|[Heq|Hin]].
        -- left. exact Hin.
        -- congruence.
        -- right. exact Hin.
      * exact Hnodup'.
      * intros x Hx. destruct (Hrest x (or_intror Hx)) as [Hxt Hxf].
        split; [|exact Hxf]. apply Htrain. split; [exact Hxt|].
        intros Heq. subst x. contradiction.
Qed.

Lemma all_succeeded_app (evs1 evs2 : list Event) :
  all_succeeded (evs1 ++ evs2) = true ->
  all_succeeded evs1 = true /\ all_succeeded evs2 = true.
Proof.
  unfold all_succeeded. rewrite forallb_app. apply andb_true_iff.
Qed.

Lemma indexFacesFromImages_reaches_sync (env : Env) (images : list string) :
  forall (indexedFaces : nat) (w w' : World) (r : Settled nat),
    P.mapUpdating (indexFacesFromImage env this) images indexedFaces w
      = (w', r) ->
    all_succeeded (events_since w w') = true ->
    in_sync_but images w ->
    in_sync_but [] w' /\ exists indexed, r = Fulfilled indexed.
Proof.
  induction images as [|image rest IH]; intros indexedFaces w w' r Hrun Hclean
    Hsync.
  - simpl in Hrun. inversion Hrun; subst.
    split; [exact Hsync|eexists; reflexivity].
  - simpl in Hrun. unfold P.andThen in Hrun.
    destruct (indexFacesFromImage env this image indexedFaces w)
      as [w1 r1] eqn:Hstep.
    destruct (extends_indexFacesFromImage _ _ _ _ _ _ _ Hstep) as [evs1 H1].
    assert (exists evs2, trace w' = trace w1 ++ evs2) as [evs2 H2].
    { destruct r1 as [n|e].
      - eapply extends_mapUpdating; [|exact Hrun].
        intros. apply extends_indexFacesFromImage.
      - inversion Hrun; subst. exists []. symmetry. apply app_nil_r. }
    rewrite (events_since_app _ _ _ _ _ H1 H2) in Hclean.
    apply all_succeeded_app in Hclean. destruct Hclean as [Hclean1 Hclean2].
    rewrite <- (events_since_record _ _ _ H1) in Hclean1.
    rewrite <- (events_since_record _ _ _ H2) in Hclean2.
    destruct (indexFacesFromImage_keeps_sync _ _ _ _ _ _ _ Hstep Hclean1 Hsync)
      as [Hsync1 [n ->]].
    eapply IH; eassumption.
Qed.


Lemma facesToDelete_nil (Faces : list FaceRecord) (available : list string) :
  imagesToDelete Faces available = [] -> facesToDelete Faces available = [].
Proof. unfold facesToDelete. intros ->. reflexivity. Qed.

(** A pass that finds both difference sets empty changes neither the
    collection nor the bucket. *)
Lemma sync_idle (env : Env) (w w' : World) (r : Settled unit) :
  imagesToDelete (faces w) (trainingImages w) = [] ->
  imagesToIndex (faces w) (trainingImages w) = [] ->
  syncS3BucketAndRekognitionCollection env this w = (w', r) ->
  faces w' = faces w /\
  objects w' = objects w /\
  Forall idle (events_since w w').
Proof.
  intros Hdelete Hindex Hrun.
  pose proof (facesToDelete_nil _ _ Hdelete) as Hfaces.
  unfold trainingImages in *.
  unfold syncS3BucketAndRekognitionCollection in Hrun.
  unfold P.andThen at 1 in Hrun. unfold P.props2 at 1 in Hrun.
  unfold Rekognition.listFaces, S3.listObjects in Hrun.
  destruct (listFaces_error env w) as [e1|];
    match type of Hrun with
    | context [listObjects_error env ?w0 "train"] =>
        destruct (listObjects_error env w0 "train") as [e2|]
    end.
  1-3: inversion Hrun; subst; cbn [faces objects record]; split; [reflexivity|];
    split; [reflexivity|];
    erewrite events_since_record
      by (simpl; repeat rewrite <- app_assoc; reflexivity);
    repeat (apply List.Forall_cons; [unfold idle; simpl; solve [auto]|]);
    apply List.Forall_nil.
  cbn [fst snd Rekognition.Faces objects record] in Hrun.
  rewrite Hfaces, Hindex in Hrun.
  unfold deleteFaces, Rekognition.deleteFaces, indexFacesFromImages,
    Logger.warn, Logger.debug in Hrun.
  unfold_promise. cbn [P.mapUpdating] in Hrun.
  match type of Hrun with
  | context [deleteFaces_error env ?w0 []] =>
      destruct (deleteFaces_error env w0 []) as [e3|]
  end.
  all: inversion Hrun; subst; cbn [faces objects record set_faces];
    rewrite ?remove_ids_nil; split; [reflexivity|]; split; [reflexivity|];
    erewrite events_since_record
      by (simpl; repeat rewrite <- app_assoc; reflexivity);
    repeat (apply List.Forall_cons; [unfold idle; simpl; solve [eauto]|]);
    apply List.Forall_nil.
Qed.


Lemma in_sync_but_same (rest : list string) (w w' : World) :
  faces w' = faces w ->
  face_counter w' = face_counter w ->
  objects w' = objects w ->
  in_sync_but rest w -> in_sync_but rest w'.
Proof.
  intros Hf Hc Ho (Hwf & Hfaces & Hkeys & Hnodup & Hrest).
  destruct Hwf as [Hids Hcounter Hobjects].
  unfold in_sync_but, trainingImages in *. rewrite Hf, Ho.
  split; [constructor; rewrite ?Hf, ?Hc, ?Ho; assumption|].
  repeat split; try assumption; apply Hrest; assumption.
Qed.

(** Once the faces of the images that left the bucket are deleted, what is
    left to do is the indexing of [imagesToIndex]. *)
Lemma after_deleteFaces_in_sync (w wc : World) :
  well_formed w ->
  faces wc =
    Rekognition.remove_ids
      (facesToDelete (faces w) (trainingImages w)) (faces w) ->
  face_counter wc = face_counter w ->
  objects wc = objects w ->
  in_sync_but (imagesToIndex (faces w) (trainingImages w)) wc.
Proof.
  intros [Hids Hcounter Hobjects] Hf Hc Ho.
  assert (trainingImages wc = trainingImages w) as Htrain
    by (unfold trainingImages; rewrite Ho; reflexivity).
  unfold in_sync_but. rewrite Htrain.
  assert (forall f,
            In f (faces wc) <->
            In f (faces w) /\ In (ExternalImageId f) (trainingImages w))
    as Hkept.
  { intros f. rewrite Hf, remove_ids_In, facesToDelete_In. split.
    - intros [Hin Hnot]. split; [exact Hin|].
      destruct (in_dec string_dec (ExternalImageId f) (trainingImages w))
        as [Hyes|Hno]; [exact Hyes|].
      exfalso. apply Hnot. exists f. split; [exact Hin|].
      split; [reflexivity|]. apply difference_In.
      split; [|exact Hno]. apply currentImages_In, in_map, Hin.
    - intros [Hin Hyes]. split; [exact Hin|].
      intros (g & Hg & Hid & Hgone).
      assert (g = f) as -> by (eapply same_id_same_face; eassumption).
      apply difference_In in Hgone. destruct Hgone as [_ Hno]. contradiction. }
  split; [constructor|split; [|split; [|split]]].
  - rewrite Hf. unfold Rekognition.remove_ids. apply NoDup_map_filter.
    exact Hids.
  - rewrite Hc. apply List.Forall_forall. intros f Hin.
    apply Hkept in Hin. rewrite List.Forall_forall in Hcounter.
    apply Hcounter, Hin.
  - rewrite Ho. exact Hobjects.
  - intros f Hin. apply Hkept in Hin. apply Hin.
  - intros k Hk.
    destruct (in_dec string_dec k (List.map ExternalImageId (faces w)))
      as [Hyes|Hno].
    + left. apply in_map_iff in Hyes. destruct Hyes as (f & Hid & Hin).
      apply in_map_iff. exists f. split; [exact Hid|].
      apply Hkept. split; [exact Hin|]. rewrite Hid. exact Hk.
    + right. apply difference_In. split; [exact Hk|].
      rewrite currentImages_In. exact Hno.
  - unfold imagesToIndex, Lodash.difference. apply NoDup_filter_list.
    unfold trainingImages, S3.keys_with_prefix. apply NoDup_filter_list.
    exact Hobjects.
  - intros x Hx. apply difference_In in Hx. destruct Hx as [Hxt Hxf].
    split; [exact Hxt|]. intros Hin. apply Hxf. apply currentImages_In.
    apply in_map_iff in Hin. destruct Hin as (f & Hid & Hin).
    apply in_map_iff. exists f. split; [exact Hid|]. apply Hkept, Hin.
Qed.

Lemma in_sync_differences (w : World) :
  in_sync_but [] w ->
  imagesToDelete (faces w) (trainingImages w) = [] /\
  imagesToIndex (faces w) (trainingImages w) = [].
Proof.
  intros (_ & Hfaces & Hkeys & _). split; apply difference_nil.
  - intros x Hx. apply currentImages_In, in_map_iff in Hx.
    destruct Hx as (f & <- & Hin). apply Hfaces, Hin.
  - intros x Hx. apply currentImages_In.
    destruct (Hkeys x Hx) as [Hin|[]]. exact Hin.
Qed.

(** A pass in which every call succeeded leaves the bucket and the
    collection in agreement. *)
Lemma sync_reaches_sync (env : Env) (w w' : World) (r : Settled unit) :
  well_formed w ->
  syncS3BucketAndRekognitionCollection env this w = (w', r) ->
  all_succeeded (events_since w w') = true ->
  in_sync_but [] w'.
Proof.
  intros Hwf Hrun Hclean.
  unfold syncS3BucketAndRekognitionCollection in Hrun.
  unfold P.andThen at 1 in Hrun. unfold P.props2 at 1 in Hrun.
  unfold Rekognition.listFaces, S3.listObjects in Hrun.
  destruct (listFaces_error env w) as [e1|];
    match type of Hrun with
    | context [listObjects_error env ?w0 "train"] =>
        destruct (listObjects_error env w0 "train") as [e2|]
    end.
  1-3: unclean Hrun Hclean.
  cbn [fst snd Rekognition.Faces objects record] in Hrun.
  fold (trainingImages w) in Hrun.
  set (wb := record (ListObjects "train") Succeeded
               (record ListFaces Succeeded w)) in *.
  unfold P.andThen at 1 in Hrun. unfold P.props2 at 1 in Hrun.
  destruct (deleteFaces env this
              (facesToDelete (faces w) (trainingImages w)) wb)
    as [wc rc] eqn:Hdelete.
  destruct (indexFacesFromImages env this
              (imagesToIndex (faces w) (trainingImages w)) wc)
    as [wd rd] eqn:Hindex.
  destruct (extends_indexFacesFromImages _ _ _ _ _ _ Hindex) as [evs Hevs].
  unfold deleteFaces, Rekognition.deleteFaces, Logger.warn in Hdelete.
  unfold_promise.
  destruct (deleteFaces_error env wb _) as [e3|].
  { (* deleteFaces failed *)
    inversion Hdelete; subst wc rc. exfalso.
    assert (exists tail, trace w' = trace wd ++ tail) as [tail Htail].
    { destruct rd; inversion Hrun; subst; simpl; eexists;
        [reflexivity|symmetry; apply app_nil_r]. }
    rewrite (events_since_record w
               ([event ListFaces Succeeded;
                 event (ListObjects "train") Succeeded;
                 event (DeleteFaces
                          (facesToDelete (faces w) (trainingImages w)))
                   (Failed e3);
                 event (LogWarn (MsgText (message e3))) Succeeded]
                ++ evs ++ tail)) in Hclean.
    - cbn in Hclean. discriminate Hclean.
    - rewrite Htail, Hevs. simpl. repeat rewrite <- app_assoc. reflexivity. }
  inversion Hdelete; subst wc rc. clear Hdelete.
  set (wc := record _ Succeeded (set_faces _ _ wb)) in *.
  assert (exists tail, trace w' = trace wd ++ tail /\
                       faces w' = faces wd /\
                       face_counter w' = face_counter wd /\
                       objects w' = objects wd)
    as (tail & Htail & Hf & Hc & Ho).
  { destruct rd; unfold Logger.debug in Hrun; inversion Hrun; subst; simpl;
      eexists; (split; [|repeat split; reflexivity]);
      [reflexivity|symmetry; apply app_nil_r]. }
  assert (trace wc = trace w ++
            [event ListFaces Succeeded;
             event (ListObjects "train") Succeeded;
             event (DeleteFaces (facesToDelete (faces w) (trainingImages w)))
               Succeeded]) as Hwc
    by (simpl; repeat rewrite <- app_assoc; reflexivity).
  assert (trace w' = trace wc ++ (evs ++ tail)) as Hw'
    by (rewrite Htail, Hevs; symmetry; apply app_assoc).
  rewrite (events_since_app _ _ _ _ _ Hwc Hw') in Hclean.
  apply all_succeeded_app in Hclean. destruct Hclean as [_ Hclean].
  apply all_succeeded_app in Hclean. destruct Hclean as [Hclean _].
  rewrite <- (events_since_record _ _ _ Hevs) in Hclean.
  assert (in_sync_but (imagesToIndex (faces w) (trainingImages w)) wc)
    as Hstart by (apply after_deleteFaces_in_sync; [exact Hwf|reflexivity..]).
  destruct (indexFacesFromImages_reaches_sync _ _ _ _ _ _ Hindex Hclean Hstart)
    as [Hsync _].
  eapply in_sync_but_same; eassumption.
Qed.

(** C1. Take a bucket and a collection in which object keys and face ids
    are unique, and a pass of [syncS3BucketAndRekognitionCollection] that
    fulfilled with every call to S3 and Rekognition succeeding. In the world
    it leaves, both difference sets are empty. A second pass, whatever its
    collaborators answer, indexes no image, deletes no object, hands no
    face id to [deleteFaces], logs zero faces as indexed and none as
    deleted, and leaves the collection and the bucket as they are. *)
Theorem sync_idempotent
    (env1 env2 : Env) (w w1 w2 : World) (r2 : Settled unit) :
  well_formed w ->
  syncS3BucketAndRekognitionCollection env1 this w = (w1, Fulfilled tt) ->
  all_succeeded (events_since w w1) = true ->
  syncS3BucketAndRekognitionCollection env2 this w1 = (w2, r2) ->
  imagesToDelete (faces w1) (trainingImages w1) = [] /\
  imagesToIndex (faces w1) (trainingImages w1) = [] /\
  faces w2 = faces w1 /\
  objects w2 = objects w1 /\
  Forall idle (events_since w1 w2).
Proof.
  intros Hwf Hfirst Hclean Hsecond.
  pose proof (sync_reaches_sync _ _ _ _ Hwf Hfirst Hclean) as Hsync.
  destruct (in_sync_differences _ Hsync) as [Hdelete Hindex].
  split; [exact Hdelete|]. split; [exact Hindex|].
  eapply sync_idle; eassumption.
Qed.

End Synchronizer.

Lemma training_well_formed : well_formed Sample.training.
Proof.
  constructor; simpl.
  - repeat constructor; simpl; intuition discriminate.
  - repeat constructor; simpl; lia.
  - repeat constructor; simpl; intuition discriminate.
Defined.

Lemma sync_idempotent_example :
  List.map ExternalImageId (faces Sample.synced) =
    ["train/tinder/kept.jpg"; "train/tinder/one+.jpg"] /\
  trainingImages Sample.synced =
    ["train/tinder/kept.jpg"; "train/tinder/one+.jpg"] /\
  imagesToDelete (faces Sample.synced) (trainingImages Sample.synced) = [] /\
  imagesToIndex (faces Sample.synced) (trainingImages Sample.synced) = [] /\
  events_since Sample.synced
    (fst (syncS3BucketAndRekognitionCollection
            (Sample.env Sample.faces_by_name (inr [])) Sample.taste
            Sample.synced))
  = [event ListFaces Succeeded;
     event (ListObjects "train") Succeeded;
     event (DeleteFaces []) Succeeded;
     event (LogDebug (MsgSynced (Some 2%Z) (inl 0%nat) 0)) Succeeded].
Proof.
  set (again := syncS3BucketAndRekognitionCollection
                  (Sample.env Sample.faces_by_name (inr [])) Sample.taste
                  Sample.synced).
  destruct (sync_idempotent Sample.taste
              (Sample.env Sample.faces_by_name (inr []))
              (Sample.env Sample.faces_by_name (inr []))
              Sample.training Sample.synced (fst again) (snd again)
              training_well_formed eq_refl eq_refl
              (surjective_pairing again))
    as (Hdelete & Hindex & _).
  split; [reflexivity|]. split; [reflexivity|].
  split; [exact Hdelete|]. split; [exact Hindex|]. reflexivity.
Defined.

(** Where the hypothesis on the first pass matters: a pass whose [indexFaces]
    calls were throttled fulfils all the same, the failures are logged, and
    the images still wait for indexing at the next pass. *)
Example sync_retries_after_logged_failure :
  snd (syncS3BucketAndRekognitionCollection
         (Sample.env (fun _ => inl Sample.throttled) (inr [])) Sample.taste
         Sample.training) = Fulfilled tt /\
  imagesToIndex
    (faces (fst (syncS3BucketAndRekognitionCollection
                   (Sample.env (fun _ => inl Sample.throttled) (inr []))
                   Sample.taste Sample.training)))
    (trainingImages
       (fst (syncS3BucketAndRekognitionCollection
               (Sample.env (fun _ => inl Sample.throttled) (inr []))
               Sample.taste Sample.training)))
  = ["train/tinder/one+.jpg"; "train/tinder/two++.jpg"].
Proof. split; reflexivity. Qed.

(** ** Well-formed worlds

    The calls that change the bucket or the collection keep object keys and
    face ids unique, so every world that the module can reach from a
    well-formed one is well-formed. *)

Lemma NoDup_put (key : string) (data : Buffer) (objs : list (string * Buffer)) :
  List.NoDup (List.map fst objs) ->
  List.NoDup (List.map fst ((key, data) :: S3.remove_key key objs)).
Proof.
  intros Hnd. simpl. constructor; [apply remove_key_not_in|].
  unfold S3.remove_key. apply NoDup_map_filter. exact Hnd.
Qed.

Lemma putObject_well_formed env bucket key data w w' r :
  well_formed w -> S3.putObject env bucket key data w = (w', r) ->
  well_formed w'.
Proof.
  intros [Hids Hcounter Hkeys] Hrun. unfold S3.putObject in Hrun.
  destruct (putObject_error env w key data); inversion Hrun; subst;
    constructor; simpl; try assumption.
  apply (NoDup_put key data). exact Hkeys.
Qed.

Lemma copyObject_well_formed env bucket src dst w w' r :
  well_formed w -> S3.copyObject env bucket src dst w = (w', r) ->
  well_formed w'.
Proof.
  intros [Hids Hcounter Hkeys] Hrun. unfold S3.copyObject in Hrun.
  destruct (copyObject_source env w src) as [e|data]; inversion Hrun; subst;
    constructor; simpl; try assumption.
  apply (NoDup_put dst data). exact Hkeys.
Qed.

Lemma deleteObject_well_formed env bucket key w w' r :
  well_formed w -> S3.deleteObject env bucket key w = (w', r) ->
  well_formed w'.
Proof.
  intros [Hids Hcounter Hkeys] Hrun. unfold S3.deleteObject in Hrun.
  destruct (deleteObject_error env w key); inversion Hrun; subst;
    constructor; simpl; try assumption.
  unfold S3.remove_key. apply NoDup_map_filter. exact Hkeys.
Qed.

Lemma deleteFaces_well_formed env collection ids w w' r :
  well_formed w -> Rekognition.deleteFaces env collection ids w = (w', r) ->
  well_formed w'.
Proof.
  intros [Hids Hcounter Hkeys] Hrun. unfold Rekognition.deleteFaces in Hrun.
  destruct (deleteFaces_error env w ids); inversion Hrun; subst;
    constructor; simpl; try assumption.
  - unfold Rekognition.remove_ids. apply NoDup_map_filter. exact Hids.
  - apply List.Forall_forall. intros f Hf. apply remove_ids_In in Hf.
    rewrite List.Forall_forall in Hcounter. apply Hcounter, Hf.
Qed.

Lemma new_faces_NoDup (image : string) (first n : nat) :
  List.NoDup (List.map FaceId (Rekognition.new_faces image first n)).
Proof.
  unfold Rekognition.new_faces. rewrite List.map_map. simpl.
  generalize 0%nat. induction n as [|n IH]; intros start; simpl;
    [constructor|].
  constructor; [|apply IH].
  intros Hin. apply in_map_iff in Hin. destruct Hin as (i & Hi & Hin).
  apply in_seq in Hin. lia.
Qed.

Lemma NoDup_append {A} (l k : list A) :
  List.NoDup l -> List.NoDup k -> (forall x, In x l -> ~ In x k) ->
  List.NoDup (l ++ k).
Proof.
  induction l as [|y l IH]; simpl; intros Hl Hk Hdisjoint; [exact Hk|].
  inversion Hl as [|? ? Hy Hl']; subst. constructor.
  - rewrite in_app_iff. intros [Hin|Hin]; [contradiction|].
    apply (Hdisjoint y); [left; reflexivity|exact Hin].
  - apply IH; [exact Hl'|exact Hk|]. intros x Hx. apply Hdisjoint.
    right. exact Hx.
Qed.

Lemma indexFaces_well_formed env collection bucket image w w' r :
  well_formed w ->
  Rekognition.indexFaces env collection bucket image w = (w', r) ->
  well_formed w'.
Proof.
  intros [Hids Hcounter Hkeys] Hrun. unfold Rekognition.indexFaces in Hrun.
  rewrite List.Forall_forall in Hcounter.
  destruct (indexFaces_answer env w image) as [e|[n|]]; inversion Hrun; subst;
    constructor; simpl; try assumption; try (apply List.Forall_forall; assumption).
  - rewrite List.map_app. apply NoDup_append;
      [exact Hids|apply new_faces_NoDup|].
    intros id Hold Hnew. apply new_faces_ids in Hnew.
    apply in_map_iff in Hold. destruct Hold as (f & <- & Hf).
    apply Hcounter in Hf. lia.
  - apply List.Forall_forall. intros f Hf. apply in_app_iff in Hf.
    destruct Hf as [Hf|Hf].
    + apply Hcounter in Hf. lia.
    + assert (In (FaceId f)
                (List.map FaceId
                   (Rekognition.new_faces image (face_counter w) n)))
        as Hid by (apply in_map; exact Hf).
      apply new_faces_ids in Hid. lia.
Qed.

(** * Further properties *)

(** ** The score of a comparison *)




Section Comparison.

Variable env : Env.
Variable this : Taste.

(** What a run of [compareFacesFromImage] on an existing photo does, by the
    answer of the search. *)
Lemma compareFacesFromImage_run
    (photo : nat) (p : Photo) (image : Buffer) (w w' : World)
    (r : Settled jsval) :
  heap w !! photo = Some p ->
  compareFacesFromImage env this photo image w = (w', r) ->
  objects w' = objects w /\ faces w' = faces w /\
  face_counter w' = face_counter w /\ settings w' = settings w /\
  match searchFaces_answer env w image with
  | inr matches =>
      let score :=
        Lodash.or_zero
          (Lodash.round2 (Lodash.max (List.map JNum matches))) in
      exists clock,
        r = Fulfilled score /\
        heap w' =
          <[photo := with_similarity_date (toISOString_now env clock)
                       (with_similarity score p)]> (heap w) /\
        events_since w w' = [event (SearchFacesByImage image) Succeeded]
  | inl e =>
      events_since w w' = [event (SearchFacesByImage image) (Failed e)] /\
      if invalid_image e
      then exists clock,
             r = Fulfilled (JNum 0) /\
             heap w' =
               <[photo := with_similarity_date (toISOString_now env clock)
                            (with_similarity (JNum 0) p)]> (heap w)
      else r = Rejected e /\ heap w' = heap w
  end.
Proof.
  intros Hp Hrun.
  assert (photo < List.length (heap w))%nat as Hlt
    by (eapply lookup_lt_Some; exact Hp).
  unfold compareFacesFromImage, Rekognition.searchFacesByImage in Hrun.
  unfold_promise.
  destruct (searchFaces_answer env w image) as [e|matches].
  - destruct (invalid_image e).
    + unfold Heap.set_similarity, Heap.update in Hrun. simpl heap in Hrun.
      rewrite Hp in Hrun.
      unfold Date_now, Heap.set_similarity_date, Heap.update in Hrun.
      simpl heap in Hrun.
      rewrite list_lookup_insert_eq in Hrun by exact Hlt.
      unfold Heap.read in Hrun. simpl heap in Hrun.
      rewrite list_lookup_insert_eq in Hrun
        by (rewrite length_insert; exact Hlt).
      inversion Hrun; subst. simpl. repeat split; try reflexivity.
      * apply events_since_record. reflexivity.
      * eexists. split; [reflexivity|]. rewrite list_insert_insert_eq.
        reflexivity.
    + inversion Hrun; subst. simpl. repeat split; try reflexivity.
      apply events_since_record. reflexivity.
  - cbn [Rekognition.FaceMatches] in Hrun.
    unfold Heap.set_similarity, Heap.update in Hrun. simpl heap in Hrun.
    rewrite Hp in Hrun.
    unfold Date_now, Heap.set_similarity_date, Heap.update in Hrun.
    simpl heap in Hrun.
    rewrite list_lookup_insert_eq in Hrun by exact Hlt.
    unfold Heap.read in Hrun. simpl heap in Hrun.
    rewrite list_lookup_insert_eq in Hrun
      by (rewrite length_insert; exact Hlt).
    inversion Hrun; subst. simpl. repeat split; try reflexivity.
    eexists. split; [reflexivity|]. split.
    + rewrite list_insert_insert_eq. reflexivity.
    + apply events_since_record. reflexivity.
Qed.

End Comparison.

(** ** What a promise adds to the trace and what it leaves alone *)

Lemma emits_weaken {A} (P Q : Event -> Prop) (p : Promise A) :
  (forall e, P e -> Q e) -> emits P p -> emits Q p.
Proof.
  intros HPQ Hp w w' r H. destruct (Hp _ _ _ H) as (evs & Htrace & Hall).
  exists evs. split; [exact Htrace|].
  eapply List.Forall_impl; [exact HPQ|exact Hall].
Qed.

Lemma emits_extends {A} (P : Event -> Prop) (p : Promise A) :
  emits P p -> extends p.
Proof.
  intros Hp w w' r H. destruct (Hp _ _ _ H) as (evs & Htrace & _).
  exists evs. exact Htrace.
Qed.

Lemma emits_events {A} (P : Event -> Prop) (p : Promise A) w w' r :
  emits P p -> p w = (w', r) -> Forall P (events_since w w').
Proof.
  intros Hp H. destruct (Hp _ _ _ H) as (evs & Htrace & Hall).
  rewrite (events_since_record _ _ _ Htrace). exact Hall.
Qed.

Lemma emits_silent {A} (P : Event -> Prop) (p : Promise A) :
  (forall w w' r, p w = (w', r) -> trace w' = trace w) -> emits P p.
Proof.
  intros Hp w w' r H. exists []. split; [|constructor].
  rewrite (Hp _ _ _ H). symmetry. apply app_nil_r.
Qed.

Lemma emits_resolve {A} (P : Event -> Prop) (a : A) : emits P (P.resolve a).
Proof. apply emits_silent. intros w w' r H. inversion H. reflexivity. Qed.

Lemma emits_reject {A} (P : Event -> Prop) (e : Err) :
  emits P (@P.reject A e).
Proof. apply emits_silent. intros w w' r H. inversion H. reflexivity. Qed.

Lemma emits_andThen {A B} (P : Event -> Prop) (p : Promise A)
    (f : A -> Promise B) :
  emits P p -> (forall a, emits P (f a)) -> emits P (P.andThen p f).
Proof.
  intros Hp Hf w w' r H. unfold P.andThen in H.
  destruct (p w) as [w1 [a|e]] eqn:Hpw.
  - destruct (Hp _ _ _ Hpw) as (evs1 & H1 & Hall1).
    destruct (Hf a _ _ _ H) as (evs2 & H2 & Hall2).
    exists (evs1 ++ evs2). split; [|apply List.Forall_app; split; assumption].
    rewrite H2, H1. symmetry. apply app_assoc.
  - inversion H; subst. eapply Hp. exact Hpw.
Qed.

Lemma emits_catch {A} (P : Event -> Prop) (p : Promise A)
    (h : Err -> Promise A) :
  emits P p -> (forall e, emits P (h e)) -> emits P (P.catch p h).
Proof.
  intros Hp Hh w w' r H. unfold P.catch in H.
  destruct (p w) as [w1 [a|e]] eqn:Hpw.
  - inversion H; subst. eapply Hp. exact Hpw.
  - destruct (Hp _ _ _ Hpw) as (evs1 & H1 & Hall1).
    destruct (Hh e _ _ _ H) as (evs2 & H2 & Hall2).
    exists (evs1 ++ evs2). split; [|apply List.Forall_app; split; assumption].
    rewrite H2, H1. symmetry. apply app_assoc.
Qed.

Lemma emits_props2 {A B} (P : Event -> Prop) (p : Promise A) (q : Promise B) :
  emits P p -> emits P q -> emits P (P.props2 p q).
Proof.
  intros Hp Hq w w' r H. unfold P.props2 in H.
  destruct (p w) as [w1 ra] eqn:Hpw. destruct (q w1) as [w2 rb] eqn:Hqw.
  destruct (Hp _ _ _ Hpw) as (evs1 & H1 & Hall1).
  destruct (Hq _ _ _ Hqw) as (evs2 & H2 & Hall2).
  exists (evs1 ++ evs2).
  assert (w' = w2) as -> by (destruct ra, rb; inversion H; reflexivity).
  split; [|apply List.Forall_app; split; assumption].
  rewrite H2, H1. symmetry. apply app_assoc.
Qed.

Lemma emits_map {A B} (P : Event -> Prop) (f : A -> Promise B)
    (items : list A) :
  (forall x, emits P (f x)) -> emits P (P.map f items).
Proof.
  intros Hf. induction items as [|x rest IH]; simpl.
  - apply emits_resolve.
  - apply emits_andThen; [apply Hf|]. intros y.
    apply emits_andThen; [exact IH|]. intros ys. apply emits_resolve.
Qed.

Lemma emits_mapUpdating {A S} (P : Event -> Prop) (f : A -> S -> Promise S)
    (items : list A) :
  (forall x s, emits P (f x s)) ->
  forall s, emits P (P.mapUpdating f items s).
Proof.
  intros Hf. induction items as [|x rest IH]; intros s; simpl.
  - apply emits_resolve.
  - apply emits_andThen; [apply Hf|]. exact IH.
Qed.

(** A call to a collaborator adds its one event. *)
Lemma emits_call {A} (P : Event -> Prop) (c : Call)
    (answer : World -> World * Settled A) :
  (forall o, P (event c o)) ->
  (forall w, exists o v w0,
     answer w = (record c o w0, v) /\ trace w0 = trace w) ->
  emits P answer.
Proof.
  intros Hallowed Hanswer w w' r H.
  destruct (Hanswer w) as (o & v & w0 & Heq & Htrace).
  rewrite Heq in H. inversion H; subst. simpl. rewrite Htrace.
  exists [event c o]. split; [reflexivity|].
  constructor; [apply Hallowed|constructor].
Qed.

Ltac emits_one c :=
  intros Hallowed; apply (emits_call _ c); [exact Hallowed|];
  intros ?;
  repeat match goal with
         | |- context [match ?x with _ => _ end] => destruct x
         end;
  eexists _, _, _; split; reflexivity.

Section Emits.

Variable P : Event -> Prop.
Variable env : Env.

Lemma emits_warn msg :
  (forall o, P (event (LogWarn (MsgText msg)) o)) -> emits P (Logger.warn msg).
Proof. unfold Logger.warn. emits_one (LogWarn (MsgText msg)). Qed.

Lemma emits_debug m :
  (forall o, P (event (LogDebug m) o)) -> emits P (Logger.debug m).
Proof. unfold Logger.debug. emits_one (LogDebug m). Qed.

Lemma emits_get u :
  (forall o, P (event (HttpGet u) o)) -> emits P (Request.get env u).
Proof. unfold Request.get. emits_one (HttpGet u). Qed.

Lemma emits_resize image width height :
  (forall o, P (event (SharpResize width height) o)) ->
  emits P (Sharp.resize env image width height).
Proof. unfold Sharp.resize. emits_one (SharpResize width height). Qed.

Lemma emits_listObjects bucket prefix :
  (forall o, P (event (ListObjects prefix) o)) ->
  emits P (S3.listObjects env bucket prefix).
Proof. unfold S3.listObjects. emits_one (ListObjects prefix). Qed.

Lemma emits_putObject bucket key data :
  (forall o, P (event (PutObject key data) o)) ->
  emits P (S3.putObject env bucket key data).
Proof. unfold S3.putObject. emits_one (PutObject key data). Qed.

Lemma emits_deleteObject bucket key :
  (forall o, P (event (DeleteObject key) o)) ->
  emits P (S3.deleteObject env bucket key).
Proof. unfold S3.deleteObject. emits_one (DeleteObject key). Qed.

Lemma emits_copyObject bucket src dst :
  (forall o, P (event (CopyObject src dst) o)) ->
  emits P (S3.copyObject env bucket src dst).
Proof. unfold S3.copyObject. emits_one (CopyObject src dst). Qed.

Lemma emits_listFaces collection :
  (forall o, P (event ListFaces o)) ->
  emits P (Rekognition.listFaces env collection).
Proof. unfold Rekognition.listFaces. emits_one ListFaces. Qed.

Lemma emits_indexFaces collection bucket image :
  (forall o, P (event (IndexFaces image) o)) ->
  emits P (Rekognition.indexFaces env collection bucket image).
Proof. unfold Rekognition.indexFaces. emits_one (IndexFaces image). Qed.

Lemma emits_deleteFaces collection ids :
  (forall o, P (event (DeleteFaces ids) o)) ->
  emits P (Rekognition.deleteFaces env collection ids).
Proof. unfold Rekognition.deleteFaces. emits_one (DeleteFaces ids). Qed.

Lemma emits_searchFaces collection image :
  (forall o, P (event (SearchFacesByImage image) o)) ->
  emits P (Rekognition.searchFacesByImage env collection image).
Proof.
  unfold Rekognition.searchFacesByImage. emits_one (SearchFacesByImage image).
Qed.

Lemma emits_findById id :
  (forall o, P (event (SettingsFindById id) o)) ->
  emits P (Database.settings_findById env id).
Proof. unfold Database.settings_findById. emits_one (SettingsFindById id). Qed.

Lemma emits_create :
  (forall o, P (event SettingsCreate o)) ->
  emits P (Database.settings_create env).
Proof. unfold Database.settings_create. emits_one SettingsCreate. Qed.

Lemma emits_read ref : emits P (Heap.read ref).
Proof.
  apply emits_silent. intros w w' r H. unfold Heap.read in H.
  destruct (heap w !! ref); inversion H; reflexivity.
Qed.

Lemma emits_update ref f : emits P (Heap.update ref f).
Proof.
  apply emits_silent. intros w w' r H. unfold Heap.update in H.
  destruct (heap w !! ref); inversion H; reflexivity.
Qed.

Lemma emits_clone ref : emits P (Heap.clone ref).
Proof.
  apply emits_silent. intros w w' r H. unfold Heap.clone in H.
  destruct (heap w !! ref); inversion H; reflexivity.
Qed.

Lemma emits_now : emits P (Date_now env).
Proof. apply emits_silent. intros w w' r H. inversion H. reflexivity. Qed.

End Emits.

Ltac emits_step :=
  first
    [ apply emits_resolve
    | apply emits_reject
    | apply emits_read
    | apply emits_update
    | apply emits_clone
    | apply emits_now
    | apply emits_andThen; [|intros ?]
    | apply emits_catch; [|intros ?]
    | apply emits_props2
    | apply emits_map; intros ?
    | apply emits_mapUpdating; intros ? ?
    | apply emits_warn
    | apply emits_debug
    | apply emits_get
    | apply emits_resize
    | apply emits_listObjects
    | apply emits_putObject
    | apply emits_deleteObject
    | apply emits_copyObject
    | apply emits_listFaces
    | apply emits_indexFaces
    | apply emits_deleteFaces
    | apply emits_searchFaces
    | apply emits_findById
    | apply emits_create
    | match goal with
      | |- emits _ (if ?b then _ else _) => destruct b
      | |- emits _ (match ?x with _ => _ end) => destruct x
      | |- forall o, _ (event _ o) => intros ?; exact I
      end ].

Ltac emits_all := repeat emits_step.

Section EmitsOfTaste.

Variable env : Env.
Variable this : Taste.

Lemma emits_savePhoto (P : Event -> Prop) channelName photo options :
  (forall u o, P (event (HttpGet u) o)) ->
  (forall width height o,
     resize options = Some (width, height) ->
     P (event (SharpResize width height) o)) ->
  (forall key data o, P (event (PutObject key data) o)) ->
  emits P (savePhoto env this channelName photo options).
Proof.
  intros Hget Hresize Hput. unfold savePhoto, Heap.set_url.
  destruct options as [[[width height]|] prepend]; cbn [resize] in *.
  - emits_all; auto.
  - emits_all; auto.
Qed.

Lemma emits_compareFacesFromImage (P : Event -> Prop) photo image :
  (forall o, P (event (SearchFacesByImage image) o)) ->
  emits P (compareFacesFromImage env this photo image).
Proof.
  intros Hsearch.
  unfold compareFacesFromImage, Heap.set_similarity, Heap.set_similarity_date.
  emits_all; auto.
Qed.

Lemma emits_checkPhotoOut channelName photo :
  emits checkout_call (checkPhotoOut env this channelName photo).
Proof.
  unfold checkPhotoOut. emits_all.
  all: try (apply emits_compareFacesFromImage; intros; exact I).
  apply emits_savePhoto; intros; try exact I. discriminate.
Qed.

Lemma emits_notCheckedOut (P : Event -> Prop) photos :
  emits P (notCheckedOut photos).
Proof. induction photos as [|photo rest IH]; simpl; emits_all. exact IH. Qed.

Lemma emits_checkPhotosOut channelName photos :
  emits checkout_call (checkPhotosOut env this channelName photos).
Proof.
  unfold checkPhotosOut, findOrCreateNewSettings. emits_all.
  all: try apply emits_notCheckedOut.
  all: try apply emits_checkPhotoOut.
  all: apply emits_savePhoto; intros; try exact I; discriminate.
Qed.

Lemma emits_indexFacesFromImage image indexedFaces :
  emits indexing_call (indexFacesFromImage env this image indexedFaces).
Proof. unfold indexFacesFromImage. emits_all. Qed.

Lemma emits_indexFacesFromImages images :
  emits indexing_call (indexFacesFromImages env this images).
Proof.
  unfold indexFacesFromImages. apply emits_mapUpdating. intros.
  apply emits_indexFacesFromImage.
Qed.

Lemma emits_sync :
  emits sync_call (syncS3BucketAndRekognitionCollection env this).
Proof.
  unfold syncS3BucketAndRekognitionCollection, deleteFaces. emits_all.
  all: eapply emits_weaken; [|apply emits_indexFacesFromImages].
  all: intros [c o]; unfold sync_call, indexing_call; simpl;
    destruct c; trivial.
Qed.

Lemma emits_acquireTaste photos :
  emits acquire_call (acquireTaste env this photos).
Proof.
  unfold acquireTaste, acquireTaste_copy. emits_all.
  all: eapply emits_weaken; [|apply emits_indexFacesFromImages].
  all: intros [c o]; unfold acquire_call, indexing_call; simpl;
    destruct c; trivial.
Qed.

End EmitsOfTaste.

Lemma keeps_resolve {A B} (part : World -> B) (a : A) :
  keeps part (P.resolve a).
Proof. intros w w' r H. inversion H. reflexivity. Qed.

Lemma keeps_reject {A B} (part : World -> B) (e : Err) :
  keeps part (@P.reject A e).
Proof. intros w w' r H. inversion H. reflexivity. Qed.

Lemma keeps_andThen {A B C} (part : World -> C) (p : Promise A)
    (f : A -> Promise B) :
  keeps part p -> (forall a, keeps part (f a)) -> keeps part (P.andThen p f).
Proof.
  intros Hp Hf w w' r H. unfold P.andThen in H.
  destruct (p w) as [w1 [a|e]] eqn:Hpw.
  - rewrite (Hf a _ _ _ H). eapply Hp. exact Hpw.
  - inversion H; subst. eapply Hp. exact Hpw.
Qed.

Lemma keeps_catch {A C} (part : World -> C) (p : Promise A)
    (h : Err -> Promise A) :
  keeps part p -> (forall e, keeps part (h e)) -> keeps part (P.catch p h).
Proof.
  intros Hp Hh w w' r H. unfold P.catch in H.
  destruct (p w) as [w1 [a|e]] eqn:Hpw.
  - inversion H; subst. eapply Hp. exact Hpw.
  - rewrite (Hh e _ _ _ H). eapply Hp. exact Hpw.
Qed.

Lemma keeps_props2 {A B C} (part : World -> C) (p : Promise A)
    (q : Promise B) :
  keeps part p -> keeps part q -> keeps part (P.props2 p q).
Proof.
  intros Hp Hq w w' r H. unfold P.props2 in H.
  destruct (p w) as [w1 ra] eqn:Hpw. destruct (q w1) as [w2 rb] eqn:Hqw.
  assert (w' = w2) as -> by (destruct ra, rb; inversion H; reflexivity).
  rewrite (Hq _ _ _ Hqw). eapply Hp. exact Hpw.
Qed.

Lemma keeps_map {A B C} (part : World -> C) (f : A -> Promise B)
    (items : list A) :
  (forall x, keeps part (f x)) -> keeps part (P.map f items).
Proof.
  intros Hf. induction items as [|x rest IH]; simpl.
  - apply keeps_resolve.
  - apply keeps_andThen; [apply Hf|]. intros y.
    apply keeps_andThen; [exact IH|]. intros ys. apply keeps_resolve.
Qed.

Lemma keeps_mapUpdating {A S C} (part : World -> C)
    (f : A -> S -> Promise S) (items : list A) :
  (forall x s, keeps part (f x s)) ->
  forall s, keeps part (P.mapUpdating f items s).
Proof.
  intros Hf. induction items as [|x rest IH]; intros s; simpl.
  - apply keeps_resolve.
  - apply keeps_andThen; [apply Hf|]. exact IH.
Qed.

(** A single call, or a step on the heap, that does not write the part. *)
Ltac keeps_leaf :=
  let H := fresh "H" in
  intros ? ? ? H;
  unfold Logger.warn, Logger.debug, Request.get, Sharp.resize, S3.listObjects,
    S3.putObject, S3.deleteObject, S3.copyObject, Rekognition.listFaces,
    Rekognition.indexFaces, Rekognition.deleteFaces,
    Rekognition.searchFacesByImage, Database.settings_findById,
    Database.settings_create, Heap.set_url, Heap.set_similarity,
    Heap.set_similarity_date, Heap.read, Heap.update, Heap.clone, Date_now,
    P.resolve, P.reject in H;
  repeat match type of H with
         | context [match ?x with _ => _ end] => destruct x
         end;
  inversion H; subst; reflexivity.

Ltac keeps_step :=
  first
    [ apply keeps_resolve
    | apply keeps_reject
    | apply keeps_andThen; [|intros ?]
    | apply keeps_catch; [|intros ?]
    | apply keeps_props2
    | apply keeps_map; intros ?
    | apply keeps_mapUpdating; intros ? ?
    | match goal with
      | |- keeps _ (if ?b then _ else _) => destruct b
      | |- keeps _ (match ?x with _ => _ end) => destruct x
      end
    | solve [keeps_leaf] ].

Ltac keeps_all := repeat keeps_step.

Section KeepsOfTaste.

Variable env : Env.
Variable this : Taste.

Lemma keeps_notCheckedOut {C} (part : World -> C) photos :
  keeps part (notCheckedOut photos).
Proof. induction photos as [|photo rest IH]; simpl; keeps_all. exact IH. Qed.

Lemma checkPhotosOut_keeps_collection channelName photos :
  keeps collection_of (checkPhotosOut env this channelName photos).
Proof.
  unfold checkPhotosOut, findOrCreateNewSettings, checkPhotoOut, savePhoto,
    compareFacesFromImage.
  keeps_all. all: try apply keeps_notCheckedOut.
Qed.

Lemma indexFacesFromImages_keeps_records images :
  keeps records_of (indexFacesFromImages env this images).
Proof. unfold indexFacesFromImages, indexFacesFromImage. keeps_all. Qed.

Lemma sync_keeps_records :
  keeps records_of (syncS3BucketAndRekognitionCollection env this).
Proof.
  unfold syncS3BucketAndRekognitionCollection, deleteFaces,
    indexFacesFromImages, indexFacesFromImage.
  keeps_all.
Qed.

Lemma acquireTaste_keeps_records photos :
  keeps records_of (acquireTaste env this photos).
Proof.
  unfold acquireTaste, acquireTaste_copy, indexFacesFromImages,
    indexFacesFromImage.
  keeps_all.
Qed.

End KeepsOfTaste.

(** ** The check-out of one photo *)

Section CheckOutOfOnePhoto.

Variable env : Env.
Variable this : Taste.


(** X2. For a photo that is not checked out yet, [checkPhotoOut] never
    rejects. Either the photo is checked out now: the step fulfils with a
    number, which is the photo's [similarity], and [similarity_date] is
    set. Or something failed on the way: the error message is the last
    thing logged, the step fulfils with what [Logger.warn] resolved with -
    the string [warn], not [undefined] - and [similarity] and
    [similarity_date] are what they were, so the photo is tried again in
    the next batch. *)
Theorem checkPhotoOut_outcomes
    (channelName : option string) (photo : nat) (p : Photo)
    (w w' : World) (r : Settled jsval) :
  heap w !! photo = Some p ->
  JS.truthy_str (similarity_date p) = false ->
  checkPhotoOut env this channelName photo w = (w', r) ->
  exists v p',
    r = Fulfilled v /\
    heap w' !! photo = Some p' /\
    ((exists score clock,
        v = JNum score /\
        similarity p' = JNum score /\
        similarity_date p' = Some (toISOString_now env clock)) \/
     (v = JStr "warn" /\
      similarity p' = similarity p /\
      similarity_date p' = similarity_date p /\
      exists before msg,
        events_since w w' =
          before ++ [event (LogWarn (MsgText msg)) Succeeded])).
Proof.
  intros Hp Hdate Hrun.
  assert (photo < List.length (heap w))%nat as Hlt
    by (eapply lookup_lt_Some; exact Hp).
  unfold checkPhotoOut, Heap.read in Hrun. unfold P.andThen at 1 in Hrun.
  rewrite Hp, Hdate in Hrun. unfold P.catch in Hrun.
  unfold P.andThen at 1 in Hrun.
  destruct (savePhoto env this channelName (Some photo) no_options w)
    as [w1 r1] eqn:Hsave.
  assert (exists evs1, trace w1 = trace w ++ evs1) as [evs1 Hevs1].
  { eapply (emits_extends (fun _ => True)); [|exact Hsave].
    apply emits_savePhoto; intros; exact I. }
  assert (exists p1,
            heap w1 !! photo = Some p1 /\
            similarity p1 = similarity p /\
            similarity_date p1 = similarity_date p) as (p1 & Hp1 & Hs1 & Hd1).
  { destruct (JS.truthy_str channelName) eqn:Hchannel.
    - pose proof (savePhoto_run env this channelName photo p no_options
                    w w1 r1 Hp Hchannel Hsave) as Hsaved.
      cbv zeta in Hsaved. destruct r1 as [content|e].
      + destruct Hsaved as (_ & _ & _ & _ & Hheap & _). rewrite Hheap.
        eexists. split; [apply list_lookup_insert_eq; exact Hlt|].
        split; reflexivity.
      + destruct Hsaved as (Hheap & _). rewrite Hheap. exists p.
        split; [exact Hp|]. split; reflexivity.
    - unfold savePhoto in Hsave. rewrite Hchannel in Hsave.
      inversion Hsave; subst. exists p. split; [exact Hp|].
      split; reflexivity. }
  destruct r1 as [image|e].
  - destruct (compareFacesFromImage env this photo image w1) as [w2 r2]
      eqn:Hcompare.
    assert (exists evs2, trace w2 = trace w1 ++ evs2) as [evs2 Hevs2].
    { eapply (emits_extends (fun _ => True)); [|exact Hcompare].
      apply emits_compareFacesFromImage. intros; exact I. }
    destruct (compareFacesFromImage_run env this photo p1 image w1 w2 r2
                Hp1 Hcompare) as (_ & _ & _ & _ & Hcases).
    assert (photo < List.length (heap w1))%nat as Hlt1
      by (eapply lookup_lt_Some; exact Hp1).
    destruct (searchFaces_answer env w1 image) as [e|matches].
    + destruct Hcases as [_ Hcases]. destruct (invalid_image e).
      * destruct Hcases as (clock & -> & Hheap).
        inversion Hrun; subst. eexists _, _. split; [reflexivity|].
        split; [rewrite Hheap; apply list_lookup_insert_eq; exact Hlt1|].
        left. exists 0%Q, clock. repeat split; reflexivity.
      * destruct Hcases as [-> Hheap]. unfold Logger.warn in Hrun.
        unfold P.andThen, P.resolve in Hrun. inversion Hrun; subst.
        exists (JStr "warn"), p1. split; [reflexivity|].
        split; [simpl; rewrite Hheap; exact Hp1|]. right.
        split; [reflexivity|]. split; [exact Hs1|]. split; [exact Hd1|].
        exists (evs1 ++ evs2), (message e). apply events_since_record.
        simpl. rewrite Hevs2, Hevs1. rewrite <- !app_assoc. reflexivity.
    + cbv zeta in Hcases. destruct Hcases as (clock & -> & Hheap & _).
      inversion Hrun; subst.
      assert (exists score,
                Lodash.or_zero
                  (Lodash.round2 (Lodash.max (List.map JNum matches)))
                = JNum score) as [score Hscore].
      { unfold Lodash.round2.
        destruct (Lodash.to_number _) as [q|]; cbn [Lodash.or_zero].
        - destruct (Qeq_bool _ 0); eexists; reflexivity.
        - eexists; reflexivity. }
      rewrite Hscore in *. eexists _, _. split; [reflexivity|].
      split; [rewrite Hheap; apply list_lookup_insert_eq; exact Hlt1|].
      left. exists score, clock. repeat split; reflexivity.
  - unfold Logger.warn in Hrun. unfold P.andThen, P.resolve in Hrun.
    inversion Hrun; subst.
    exists (JStr "warn"), p1. split; [reflexivity|].
    split; [exact Hp1|]. right.
    split; [reflexivity|]. split; [exact Hs1|]. split; [exact Hd1|].
    exists evs1, (message e). apply events_since_record.
    simpl. rewrite Hevs1. rewrite <- !app_assoc. reflexivity.
Qed.

End CheckOutOfOnePhoto.

(** ** The check-out of a batch *)

Lemma map_fulfilled_length {A B} (f : A -> Promise B) (items : list A) :
  forall w w' ys,
    P.map f items w = (w', Fulfilled ys) ->
    List.length ys = List.length items.
Proof.
  induction items as [|x rest IH]; simpl; intros w w' ys H.
  - inversion H. reflexivity.
  - unfold P.andThen in H. destruct (f x w) as [w1 [y|e]]; [|discriminate H].
    destruct (P.map f rest w1) as [w2 [ys'|e]] eqn:Hrest; [|discriminate H].
    inversion H; subst. simpl. f_equal. eapply IH. exact Hrest.
Qed.

Section CheckOutOfABatch.

Variable env : Env.
Variable this : Taste.

Lemma notCheckedOut_none (photos : list nat) (w : World) :
  (forall photo, In photo photos -> exists v, checked_out_with w photo v) ->
  notCheckedOut photos w = (w, Fulfilled []).
Proof.
  induction photos as [|photo rest IH]; intros Hall; [reflexivity|].
  simpl. destruct (Hall photo (or_introl eq_refl)) as (v & p & Hp & Hdate & _).
  unfold Heap.read. unfold_promise. rewrite Hp.
  rewrite IH by (intros x Hx; apply Hall; right; exact Hx).
  rewrite Hdate. reflexivity.
Qed.

Lemma map_checkPhotoOut_checked_out (channelName : option string)
    (photos : list nat) (w : World) :
  (forall photo, In photo photos -> exists v, checked_out_with w photo v) ->
  exists similarities,
    P.map (checkPhotoOut env this channelName) photos w
      = (w, Fulfilled similarities) /\
    Forall2 (checked_out_with w) photos similarities.
Proof.
  induction photos as [|photo rest IH]; intros Hall.
  - exists []. split; [reflexivity|constructor].
  - destruct (Hall photo (or_introl eq_refl)) as (v & p & Hp & Hdate & Hv).
    destruct IH as (vs & Hmap & Hvs);
      [intros x Hx; apply Hall; right; exact Hx|].
    exists (v :: vs). split.
    + simpl. unfold checkPhotoOut at 1, Heap.read. unfold_promise.
      rewrite Hp, Hdate, Hmap, Hv. reflexivity.
    + constructor; [|exact Hvs]. exists p. repeat split; assumption.
Qed.

(** X3. A batch in which every photo was checked out earlier costs nothing:
    [checkPhotosOut] makes no call but those to the settings table, so it
    downloads nothing, stores nothing and searches no face; the photo
    records, the bucket and the collection are as before; and the
    similarity list holds the stored [similarity] of each photo, in the
    order of the photos. *)
Theorem checkPhotosOut_checked_out_batch
    (channelName : option string) (photos : list nat)
    (w w' : World) (r : Settled CheckedOut) :
  JS.truthy_str channelName = true ->
  (forall photo, In photo photos -> exists v, checked_out_with w photo v) ->
  checkPhotosOut env this channelName (Some photos) w = (w', r) ->
  Forall settings_call (events_since w w') /\
  heap w' = heap w /\ objects w' = objects w /\ faces w' = faces w /\
  forall out,
    r = Fulfilled out ->
    Forall2 (checked_out_with w) photos (faceSimilarities out).
Proof.
  intros Hchannel Hall Hrun.
  unfold checkPhotosOut in Hrun. rewrite Hchannel in Hrun.
  unfold P.andThen at 1 in Hrun. rewrite (notCheckedOut_none _ _ Hall) in Hrun.
  unfold P.andThen at 1 in Hrun.
  destruct (map_checkPhotoOut_checked_out channelName photos w Hall)
    as (similarities & Hmap & Hsims).
  rewrite Hmap in Hrun.
  unfold findOrCreateNewSettings, Database.settings_findById,
    Database.settings_create in Hrun.
  unfold_promise.
  destruct (settings_error env w) as [e|].
  { inversion Hrun; subst. simpl.
    split; [erewrite events_since_record by reflexivity;
            repeat constructor|].
    repeat split; try reflexivity. discriminate. }
  destruct (settings w) as [s|].
  { inversion Hrun; subst. simpl.
    split; [erewrite events_since_record by reflexivity;
            repeat constructor|].
    repeat split; try reflexivity.
    intros out Hout. inversion Hout; subst. exact Hsims. }
  match type of Hrun with
  | context [settings_error env ?w0] => destruct (settings_error env w0)
  end; inversion Hrun; subst; simpl.
  all: split;
    [erewrite events_since_record
       by (simpl; rewrite <- ?app_assoc; reflexivity);
     repeat constructor|].
  all: repeat split; try reflexivity; try discriminate.
  intros out Hout. inversion Hout; subst. exact Hsims.
Qed.

Lemma checkPhotosOut_one_per_photo
    (channelName : option string) (items : list nat)
    (w w' : World) (out : CheckedOut) :
  checkPhotosOut env this channelName (Some items) w = (w', Fulfilled out) ->
  List.length (faceSimilarities out) = List.length items.
Proof.
  intros Hrun. unfold checkPhotosOut in Hrun.
  destruct (JS.truthy_str channelName); [|discriminate Hrun].
  unfold_promise.
  destruct (notCheckedOut items w) as [w1 [pending|e]]; [|discriminate Hrun].
  destruct (P.map (checkPhotoOut env this channelName) items w1)
    as [w2 [similarities|e]] eqn:Hmap; [|discriminate Hrun].
  apply map_fulfilled_length in Hmap.
  destruct (findOrCreateNewSettings env w2) as [w3 [s|e]];
    [|discriminate Hrun].
  destruct pending; unfold Logger.debug in Hrun; inversion Hrun; subst;
    exact Hmap.
Qed.

(** X4. Whatever happens to the photos of a batch, [checkPhotosOut] makes
    only the calls of the check-out pipeline - downloads, uploads, face
    searches, the settings and the log: it deletes and copies no object and
    indexes and deletes no face - and the face collection is as before.
    When it fulfils, the similarity list has one entry per photo. *)
Theorem checkPhotosOut_frame
    (channelName : option string) (photos : option (list nat))
    (w w' : World) (r : Settled CheckedOut) :
  checkPhotosOut env this channelName photos w = (w', r) ->
  Forall checkout_call (events_since w w') /\
  faces w' = faces w /\
  face_counter w' = face_counter w /\
  forall out items,
    r = Fulfilled out -> photos = Some items ->
    List.length (faceSimilarities out) = List.length items.
Proof.
  intros Hrun.
  split; [eapply emits_events; [apply emits_checkPhotosOut|exact Hrun]|].
  pose proof (checkPhotosOut_keeps_collection env this channelName photos
                _ _ _ Hrun) as Hkept.
  unfold collection_of in Hkept. inversion Hkept as [[Hf Hc]].
  split; [reflexivity|]. split; [reflexivity|].
  intros out items -> ->. eapply checkPhotosOut_one_per_photo. exact Hrun.
Qed.

(** X5. An empty batch is never liked: for a channel and no photo,
    a fulfilled [checkPhotosOut] returns an empty similarity list, no
    maximum and no minimum, the mean 0, and [like = false] whatever the
    threshold of the settings is. *)
Theorem checkPhotosOut_empty_batch
    (channelName : option string) (w w' : World) (out : CheckedOut) :
  checkPhotosOut env this channelName (Some []) w = (w', Fulfilled out) ->
  out = {| faceSimilarities := [];
           faceSimilarityMax := JUndefined;
           faceSimilarityMin := JUndefined;
           faceSimilarityMean := JNum 0;
           like := false |}.
Proof.
  intros Hrun.
  pose proof (checkPhotosOut_one_per_photo _ _ _ _ _ Hrun) as Hlength.
  destruct (checkPhotosOut_fulfilled env this _ _ _ _ _ Hrun)
    as (s & _ & Hmax & Hmin & Hmean & Hlike).
  destruct out as [sims smax smin smean slike]. simpl in *.
  destruct sims; [|discriminate Hlength].
  rewrite Hmax, Hmin, Hmean, Hlike. reflexivity.
Qed.

End CheckOutOfABatch.

(** ** The settings row and the deletion of faces *)

Section SettingsAndDeletion.

Variable env : Env.
Variable this : Taste.

(** X6. [findOrCreateNewSettings] finds or creates: when it fulfils, the
    row it returns is the row of the settings table. A row that was there
    is returned as it is, after the one lookup and without a [create]; only
    when there was none are the defaults created. When it rejects, the
    table is as before. *)
Theorem findOrCreateNewSettings_finds_or_creates
    (w w' : World) (r : Settled Settings) :
  findOrCreateNewSettings env w = (w', r) ->
  (forall s,
     r = Fulfilled s ->
     settings w' = Some s /\
     match settings w with
     | Some found =>
         s = found /\
         events_since w w' = [event (SettingsFindById 1) Succeeded]
     | None =>
         s = settings_defaults env /\
         events_since w w' =
           [event (SettingsFindById 1) Succeeded;
            event SettingsCreate Succeeded]
     end) /\
  (forall e, r = Rejected e -> settings w' = settings w).
Proof.
  intros Hrun.
  unfold findOrCreateNewSettings, Database.settings_findById,
    Database.settings_create in Hrun.
  unfold_promise.
  destruct (settings_error env w) as [e|].
  { inversion Hrun; subst. split; [discriminate|]. reflexivity. }
  destruct (settings w) as [found|] eqn:Hsettings.
  { inversion Hrun; subst. split; [|discriminate].
    intros s Hs. inversion Hs; subst. simpl.
    split; [exact Hsettings|]. split; [reflexivity|].
    apply events_since_record. reflexivity. }
  match type of Hrun with
  | context [settings_error env ?w0] => destruct (settings_error env w0)
  end; inversion Hrun; subst.
  - split; [discriminate|]. intros. exact Hsettings.
  - split; [|discriminate]. intros s Hs. inversion Hs; subst. simpl.
    split; [reflexivity|]. split; [reflexivity|].
    apply events_since_record. simpl. rewrite <- app_assoc. reflexivity.
Qed.

(** X7. The module's [deleteFaces] never rejects. When the call to the
    collection succeeds it fulfils with the number of ids it was given -
    whether or not the collection knew them - and no face of these ids is
    left; when the call fails, the error message is logged, it fulfils with
    what [Logger.warn] resolved with - the string [warn], not a number - and
    the collection is as before. *)
Theorem deleteFaces_never_rejects (ids : list nat) (w : World) :
  exists w' deleted,
    deleteFaces env this ids w = (w', Fulfilled deleted) /\
    ((deleted = inl (List.length ids) /\
      faces w' = Rekognition.remove_ids ids (faces w) /\
      (forall f, In f (faces w') -> ~ In (FaceId f) ids) /\
      events_since w w' = [event (DeleteFaces ids) Succeeded]) \/
     (exists e,
        deleted = inr "warn" /\
        faces w' = faces w /\
        events_since w w' =
          [event (DeleteFaces ids) (Failed e);
           event (LogWarn (MsgText (message e))) Succeeded])).
Proof.
  unfold deleteFaces, Rekognition.deleteFaces, Logger.warn. unfold_promise.
  destruct (deleteFaces_error env w ids) as [e|].
  - eexists _, _. split; [reflexivity|]. right. exists e.
    split; [reflexivity|]. split; [reflexivity|].
    apply events_since_record. simpl. rewrite <- app_assoc. reflexivity.
  - eexists _, _. split; [reflexivity|]. left.
    split; [reflexivity|]. split; [reflexivity|]. split.
    + intros f Hf. simpl in Hf. eapply remove_ids_not_in. exact Hf.
    + apply events_since_record. reflexivity.
Qed.

End SettingsAndDeletion.

(** ** The passes of the synchronizer *)

Section SynchronizerPasses.

Variable env : Env.
Variable this : Taste.

(** The two ways [deleteFaces] ends. *)
Lemma deleteFaces_run (ids : list nat) (w wc : World)
    (rc : Settled (nat + string)) :
  deleteFaces env this ids w = (wc, rc) ->
  (wc = record (DeleteFaces ids) Succeeded
          (set_faces (Rekognition.remove_ids ids (faces w))
             (face_counter w) w) /\
   rc = Fulfilled (inl (List.length ids))) \/
  (exists e,
     wc = record (LogWarn (MsgText (message e))) Succeeded
            (record (DeleteFaces ids) (Failed e) w) /\
     rc = Fulfilled (inr "warn")).
Proof.
  intros Hrun. unfold deleteFaces, Rekognition.deleteFaces, Logger.warn in Hrun.
  unfold_promise.
  destruct (deleteFaces_error env w ids) as [e|]; inversion Hrun; subst.
  - right. exists e. split; reflexivity.
  - left. split; reflexivity.
Qed.

(** A pass of the synchronizer, phase by phase: the two listings, the
    deletion of faces, the indexing of images, the log line. *)
Lemma sync_phases (w w' : World) (r : Settled unit) :
  syncS3BucketAndRekognitionCollection env this w = (w', r) ->
  (faces w' = faces w /\ face_counter w' = face_counter w /\
   objects w' = objects w /\ all_succeeded (events_since w w') = false /\
   exists e, r = Rejected e) \/
  exists wc deleted wd rd,
    deleteFaces env this (facesToDelete (faces w) (trainingImages w))
      (record (ListObjects "train") Succeeded (record ListFaces Succeeded w))
    = (wc, Fulfilled deleted) /\
    indexFacesFromImages env this
      (imagesToIndex (faces w) (trainingImages w)) wc = (wd, rd) /\
    match rd with
    | Fulfilled indexed =>
        r = Fulfilled tt /\
        w' = record
               (LogDebug
                  (MsgSynced (available_faces (faces w) deleted indexed)
                     deleted indexed))
               Succeeded wd
    | Rejected e => r = Rejected e /\ w' = wd
    end.
Proof.
  intros Hrun.
  unfold syncS3BucketAndRekognitionCollection in Hrun.
  unfold P.andThen at 1 in Hrun. unfold P.props2 at 1 in Hrun.
  unfold Rekognition.listFaces, S3.listObjects in Hrun.
  destruct (listFaces_error env w) as [e1|];
    match type of Hrun with
    | context [listObjects_error env ?w0 "train"] =>
        destruct (listObjects_error env w0 "train") as [e2|]
    end.
  1-3: left; inversion Hrun; subst; simpl; repeat split;
    try (eexists; reflexivity);
    erewrite events_since_record
      by (simpl; repeat rewrite <- app_assoc; reflexivity);
    reflexivity.
  right.
  cbn [fst snd Rekognition.Faces objects record] in Hrun.
  fold (trainingImages w) in Hrun.
  unfold P.andThen at 1 in Hrun. unfold P.props2 at 1 in Hrun.
  destruct (deleteFaces env this
              (facesToDelete (faces w) (trainingImages w))
              (record (ListObjects "train") Succeeded
                 (record ListFaces Succeeded w)))
    as [wc rc] eqn:Hdelete.
  destruct (indexFacesFromImages env this
              (imagesToIndex (faces w) (trainingImages w)) wc)
    as [wd rd] eqn:Hindex.
  assert (exists deleted, rc = Fulfilled deleted) as [deleted ->].
  { unfold deleteFaces, Rekognition.deleteFaces, Logger.warn in Hdelete.
    unfold_promise.
    destruct (deleteFaces_error env _ _); inversion Hdelete;
      eexists; reflexivity. }
  exists wc, deleted, wd, rd. split; [reflexivity|]. split; [exact Hindex|].
  destruct rd as [indexed|e]; unfold Logger.debug in Hrun;
    inversion Hrun; subst; split; reflexivity.
Qed.

(** The objects of the bucket after the callback of the indexing. *)
Lemma indexFacesFromImage_objects
    (image : string) (indexedFaces : nat) (w w' : World) (r : Settled nat) :
  indexFacesFromImage env this image indexedFaces w = (w', r) ->
  objects w' = objects w \/ objects w' = S3.remove_key image (objects w).
Proof.
  intros Hrun.
  unfold indexFacesFromImage, Rekognition.indexFaces,
    Rekognition.deleteFaces, S3.deleteObject, Logger.warn in Hrun.
  unfold_promise.
  destruct (indexFaces_answer env w image) as [e|[n|]];
    cbn [Rekognition.FaceRecords] in *.
  2: destruct (negb _).
  all: repeat match type of Hrun with
              | context [deleteFaces_error env ?w0 ?ids] =>
                  destruct (deleteFaces_error env w0 ids)
              | context [deleteObject_error env ?w0 ?key] =>
                  destruct (deleteObject_error env w0 key)
              | context [invalid_image ?e] => destruct (invalid_image e)
              end;
    inversion Hrun; subst; simpl; auto.
Qed.

Lemma remove_key_In (key : string) (o : string * Buffer)
    (objs : list (string * Buffer)) :
  In o (S3.remove_key key objs) <-> In o objs /\ fst o <> key.
Proof.
  unfold S3.remove_key. rewrite filter_In, negb_true_iff, String.eqb_neq.
  split; intros [Hin Hne]; (split; [exact Hin|congruence]).
Qed.

Lemma indexFacesFromImages_objects (images : list string) :
  forall (indexedFaces : nat) (w w' : World) (r : Settled nat),
    P.mapUpdating (indexFacesFromImage env this) images indexedFaces w
      = (w', r) ->
    (forall o, In o (objects w') -> In o (objects w)) /\
    (forall o, In o (objects w) -> ~ In (fst o) images -> In o (objects w')).
Proof.
  induction images as [|image rest IH]; intros c w w' r Hrun.
  - simpl in Hrun. inversion Hrun; subst. split; auto.
  - simpl in Hrun. unfold P.andThen in Hrun.
    destruct (indexFacesFromImage env this image c w) as [w1 r1] eqn:Hstep.
    assert ((forall o, In o (objects w1) -> In o (objects w)) /\
            (forall o, In o (objects w) -> fst o <> image ->
                       In o (objects w1))) as [Hsub1 Hkept1].
    { destruct (indexFacesFromImage_objects _ _ _ _ _ Hstep) as [->| ->].
      - split; auto.
      - split; intros o Ho.
        + apply remove_key_In in Ho. apply Ho.
        + intros Hne. apply remove_key_In. split; assumption. }
    destruct r1 as [n|e].
    + destruct (IH _ _ _ _ Hrun) as [Hsub Hkept]. split.
      * intros o Ho. apply Hsub1, Hsub, Ho.
      * intros o Ho Hnot. apply Hkept.
        -- apply Hkept1; [exact Ho|]. intros Heq. apply Hnot. left.
           symmetry. exact Heq.
        -- intros Hin. apply Hnot. right. exact Hin.
    + inversion Hrun; subst. split; [exact Hsub1|].
      intros o Ho Hnot. apply Hkept1; [exact Ho|].
      intros Heq. apply Hnot. left. symmetry. exact Heq.
Qed.

Lemma deleteFaces_objects (ids : list nat) (w w' : World)
    (r : Settled (nat + string)) :
  deleteFaces env this ids w = (w', r) -> objects w' = objects w.
Proof.
  intros Hrun. unfold deleteFaces, Rekognition.deleteFaces, Logger.warn in Hrun.
  unfold_promise.
  destruct (deleteFaces_error env w ids); inversion Hrun; reflexivity.
Qed.

(** X8. The synchronizer stays in its lane. Whatever its collaborators
    answer, a pass makes only listing, indexing, deleting and logging
    calls (no download, upload or copy), leaves the photo records and the
    settings alone, adds no object to the bucket, and deletes no object
    but images it set out to index: every object outside the [train]
    prefix is still there. *)
Theorem sync_frame (w w' : World) (r : Settled unit) :
  syncS3BucketAndRekognitionCollection env this w = (w', r) ->
  Forall sync_call (events_since w w') /\
  heap w' = heap w /\
  settings w' = settings w /\
  (forall o, In o (objects w') -> In o (objects w)) /\
  (forall o,
     In o (objects w) ->
     ~ In (fst o) (imagesToIndex (faces w) (trainingImages w)) ->
     In o (objects w')) /\
  (forall o,
     In o (objects w) -> String.prefix "train" (fst o) = false ->
     In o (objects w')).
Proof.
  intros Hrun.
  split; [eapply emits_events; [apply emits_sync|exact Hrun]|].
  pose proof (sync_keeps_records env this _ _ _ Hrun) as Hkept.
  unfold records_of in Hkept. inversion Hkept as [[Hheap Hsettings]].
  split; [reflexivity|]. split; [reflexivity|].
  assert ((forall o, In o (objects w') -> In o (objects w)) /\
          (forall o,
             In o (objects w) ->
             ~ In (fst o) (imagesToIndex (faces w) (trainingImages w)) ->
             In o (objects w'))) as [Hsub Hsafe].
  { destruct (sync_phases _ _ _ Hrun)
      as [(_ & _ & Ho & _ & _)|(wc & deleted & wd & rd & Hdelete & Hindex & Hend)].
    - rewrite Ho. split; auto.
    - apply deleteFaces_objects in Hdelete. simpl in Hdelete.
      unfold indexFacesFromImages in Hindex.
      destruct (indexFacesFromImages_objects _ _ _ _ _ Hindex) as [Hsub Hsafe].
      rewrite Hdelete in Hsub, Hsafe.
      assert (objects w' = objects wd) as ->
        by (destruct rd; destruct Hend as [_ ->]; reflexivity).
      split; assumption. }
  split; [exact Hsub|]. split; [exact Hsafe|].
  intros o Ho Hprefix. apply Hsafe; [exact Ho|].
  intros Hin. apply difference_In in Hin. destruct Hin as [Hin _].
  unfold trainingImages, S3.keys_with_prefix in Hin.
  apply filter_In in Hin. destruct Hin as [_ Htrain]. congruence.
Qed.

End SynchronizerPasses.

(** ** The faces of the collection across a pass *)

Lemma uniq_NoDup (l : list string) : List.NoDup (Lodash.uniq l).
Proof.
  induction l as [|x l IH]; simpl; [constructor|].
  constructor.
  - intros Hin. apply filter_In in Hin. destruct Hin as [_ Hne].
    rewrite String.eqb_refl in Hne. discriminate.
  - apply NoDup_filter_list. exact IH.
Qed.

Lemma NoDup_flat_map {A B} (f : A -> list B) (l : list A) :
  List.NoDup l ->
  (forall x, In x l -> List.NoDup (f x)) ->
  (forall x y b, In x l -> In y l -> In b (f x) -> In b (f y) -> x = y) ->
  List.NoDup (List.flat_map f l).
Proof.
  induction l as [|x l IH]; simpl; intros Hnd Heach Hapart; [constructor|].
  inversion Hnd as [|? ? Hnotin Hrest]; subst.
  apply NoDup_append.
  - apply Heach. left. reflexivity.
  - apply IH; [exact Hrest| |].
    + intros y Hy. apply Heach. right. exact Hy.
    + intros y z b Hy Hz. apply Hapart; right; assumption.
  - intros b Hb Hin. apply in_flat_map in Hin. destruct Hin as (y & Hy & Hby).
    apply Hnotin.
    rewrite (Hapart x y b); [exact Hy|left; reflexivity|right; exact Hy
                            |exact Hb|exact Hby].
Qed.

Lemma facesToDelete_NoDup (Faces : list FaceRecord)
    (availableImages : list string) :
  List.NoDup (List.map FaceId Faces) ->
  List.NoDup (facesToDelete Faces availableImages).
Proof.
  intros Hnd. unfold facesToDelete. apply NoDup_flat_map.
  - unfold imagesToDelete, Lodash.difference. apply NoDup_filter_list.
    apply uniq_NoDup.
  - intros x _. apply NoDup_map_filter. exact Hnd.
  - intros x y id _ _ Hx Hy.
    apply in_map_iff in Hx. destruct Hx as (f & Hf & Hfin).
    apply in_map_iff in Hy. destruct Hy as (g & Hg & Hgin).
    apply filter_In in Hfin. destruct Hfin as [Hfin Hfx].
    apply filter_In in Hgin. destruct Hgin as [Hgin Hgy].
    apply String.eqb_eq in Hfx, Hgy.
    assert (f = g) as ->
      by (apply (same_id_same_face Faces); [exact Hnd|exact Hfin|exact Hgin
                                           |congruence]).
    congruence.
Qed.

(** The ids that the synchronizer hands to [deleteFaces] are those of the
    faces whose image is not among the available ones. *)
Lemma facesToDelete_gone (id : nat) (Faces : list FaceRecord)
    (availableImages : list string) :
  In id (facesToDelete Faces availableImages) <->
  exists f,
    In f Faces /\ FaceId f = id /\ ~ In (ExternalImageId f) availableImages.
Proof.
  rewrite facesToDelete_In. split.
  - intros (f & Hin & Hid & Hgone). exists f. split; [exact Hin|].
    split; [exact Hid|]. apply difference_In in Hgone. apply Hgone.
  - intros (f & Hin & Hid & Hgone). exists f. split; [exact Hin|].
    split; [exact Hid|]. apply difference_In. split; [|exact Hgone].
    apply currentImages_In. apply in_map. exact Hin.
Qed.

Lemma facesToDelete_kept (f : FaceRecord) (Faces : list FaceRecord)
    (availableImages : list string) :
  List.NoDup (List.map FaceId Faces) ->
  In f (Rekognition.remove_ids (facesToDelete Faces availableImages) Faces) <->
  In f Faces /\ In (ExternalImageId f) availableImages.
Proof.
  intros Hnd. rewrite remove_ids_In, facesToDelete_gone. split.
  - intros [Hin Hnot]. split; [exact Hin|].
    destruct (in_dec string_dec (ExternalImageId f) availableImages)
      as [Hk|Hgone]; [exact Hk|].
    exfalso. apply Hnot. exists f. repeat split; assumption.
  - intros [Hin Hk]. split; [exact Hin|].
    intros (g & Hg & Hid & Hgone). apply Hgone.
    rewrite (same_id_same_face Faces g f Hnd Hg Hin Hid). exact Hk.
Qed.

Lemma filter_lengths {A} (keep : A -> bool) (l : list A) :
  (List.length (List.filter keep l) +
   List.length (List.filter (fun x => negb (keep x)) l))%nat
  = List.length l.
Proof.
  induction l as [|x l IH]; simpl; [reflexivity|].
  destruct (keep x); simpl; lia.
Qed.

(** Removing ids of the collection, each given once, removes as many
    faces as there are ids. *)
Lemma remove_ids_length (ids : list nat) (fs : list FaceRecord) :
  List.NoDup (List.map FaceId fs) ->
  List.NoDup ids ->
  (forall id, In id ids -> In id (List.map FaceId fs)) ->
  (List.length (Rekognition.remove_ids ids fs) + List.length ids)%nat
  = List.length fs.
Proof.
  intros Hfs Hids Hsub.
  rewrite <- (filter_lengths
                (fun f => negb (existsb (Nat.eqb (FaceId f)) ids)) fs).
  unfold Rekognition.remove_ids. f_equal.
  set (gone := List.filter
                 (fun f => negb (negb (existsb (Nat.eqb (FaceId f)) ids))) fs).
  rewrite <- (List.length_map FaceId gone).
  assert (List.NoDup (List.map FaceId gone)) as Hgone
    by (apply NoDup_map_filter; exact Hfs).
  assert (forall id, In id ids <-> In id (List.map FaceId gone)) as Hsame.
  { intros id. unfold gone. rewrite in_map_iff. split.
    - intros Hid. destruct (proj1 (in_map_iff _ _ _) (Hsub id Hid))
        as (f & Hf & Hin).
      exists f. split; [exact Hf|]. apply filter_In. split; [exact Hin|].
      rewrite negb_involutive. apply existsb_nat_In. rewrite Hf. exact Hid.
    - intros (f & Hf & Hin). apply filter_In in Hin. destruct Hin as [_ Hex].
      rewrite negb_involutive in Hex. apply existsb_nat_In in Hex.
      rewrite <- Hf. exact Hex. }
  apply Nat.le_antisymm; apply List.NoDup_incl_length;
    try assumption; intros id Hid; apply Hsame; exact Hid.
Qed.

(** X9. The deletion plan of the synchronizer. In a collection whose
    face ids are distinct, the ids handed to [deleteFaces] are exactly
    those of the faces whose image is no longer among the available
    images, each id once; deleting them keeps exactly the faces whose image
    is still available. *)
Theorem facesToDelete_exact (Faces : list FaceRecord)
    (availableImages : list string) :
  List.NoDup (List.map FaceId Faces) ->
  (forall id,
     In id (facesToDelete Faces availableImages) <->
     exists f,
       In f Faces /\ FaceId f = id /\
       ~ In (ExternalImageId f) availableImages) /\
  List.NoDup (facesToDelete Faces availableImages) /\
  (forall f,
     In f (Rekognition.remove_ids (facesToDelete Faces availableImages) Faces)
     <-> In f Faces /\ In (ExternalImageId f) availableImages).
Proof.
  intros Hnd. split; [intros id; apply facesToDelete_gone|].
  split; [apply facesToDelete_NoDup; exact Hnd|].
  intros f. apply facesToDelete_kept. exact Hnd.
Qed.

Section FacesAcrossAPass.

Variable env : Env.
Variable this : Taste.

Ltac clean_or_not Hrun :=
  let Hclean := fresh "Hclean" in
  intros Hclean;
  erewrite events_since_record in Hclean
    by (simpl; repeat rewrite <- app_assoc; reflexivity);
  cbn in Hclean; first [discriminate Hclean|reflexivity].

(** The faces after the callback of the indexing, whatever the calls
    answered: the old ones, and possibly new faces of this image. When all
    calls succeeded the counter has moved by the number of new faces. *)
Lemma indexFacesFromImage_faces
    (image : string) (indexedFaces : nat) (w w' : World) (r : Settled nat) :
  Forall (fun f => (FaceId f < face_counter w)%nat) (faces w) ->
  indexFacesFromImage env this image indexedFaces w = (w', r) ->
  exists extra,
    faces w' = faces w ++ extra /\
    Forall (fun f => (FaceId f < face_counter w')%nat) (faces w') /\
    (forall f, In f extra -> ExternalImageId f = image) /\
    (forall f, In f extra -> (face_counter w <= FaceId f)%nat) /\
    List.NoDup (List.map FaceId extra) /\
    (all_succeeded (events_since w w') = true ->
     r = Fulfilled (List.length extra + indexedFaces)%nat).
Proof.
  intros Hold Hrun.
  assert (forall n,
            Forall (fun f => (FaceId f < face_counter w + n)%nat)
              (faces w ++ Rekognition.new_faces image (face_counter w) n))
    as Hnew.
  { intros n. apply List.Forall_app. split.
    - eapply List.Forall_impl; [|exact Hold]. simpl. intros f Hf. lia.
    - apply List.Forall_forall. intros f Hf.
      assert (In (FaceId f)
                (List.map FaceId
                   (Rekognition.new_faces image (face_counter w) n)))
        as Hid by (apply in_map; exact Hf).
      apply new_faces_ids in Hid. lia. }
  assert (forall n,
            Forall (fun f => (FaceId f < face_counter w + n)%nat) (faces w))
    as Hold'.
  { intros n. eapply List.Forall_impl; [|exact Hold]. simpl. intros f Hf.
    lia. }
  assert (forall n f,
            In f (Rekognition.new_faces image (face_counter w) n) ->
            (face_counter w <= FaceId f)%nat) as Hfresh.
  { intros n f Hf.
    assert (In (FaceId f)
              (List.map FaceId
                 (Rekognition.new_faces image (face_counter w) n)))
      as Hid by (apply in_map; exact Hf).
    apply new_faces_ids in Hid. lia. }
  unfold indexFacesFromImage, Rekognition.indexFaces,
    Rekognition.deleteFaces, S3.deleteObject, Logger.warn in Hrun.
  unfold_promise.
  destruct (indexFaces_answer env w image) as [e|[n|]] eqn:Hanswer;
    cbn [Rekognition.FaceRecords] in Hrun.
  2: rewrite new_faces_length in Hrun;
     destruct (n =? 1)%nat eqn:Hn; cbn [negb] in Hrun;
     [apply Nat.eqb_eq in Hn; subst n|].
  3: match type of Hrun with
     | context [deleteFaces_error env ?w0 ?ids] =>
         destruct (deleteFaces_error env w0 ids) as [e1|]
     end.
  all: repeat match type of Hrun with
              | context [deleteObject_error env ?w0 ?key] =>
                  destruct (deleteObject_error env w0 key)
              | context [invalid_image ?e] => destruct (invalid_image e)
              end.
  all: inversion Hrun; subst; clear Hrun;
    cbn [faces face_counter record set_faces].
  all: rewrite ?remove_new_faces by exact Hold.
  all: first
         [ exists []; rewrite app_nil_r; split; [reflexivity|];
           split; [first [exact Hold|apply Hold']|];
           split; [intros f []|]; split; [intros f []|];
           split; [constructor|]; clean_or_not Hold
         | eexists; split; [reflexivity|];
           split; [apply Hnew|];
           split; [intros f Hf; eapply new_faces_image; exact Hf|];
           split; [intros f Hf; eapply Hfresh; exact Hf|];
           split; [apply new_faces_NoDup|]; clean_or_not Hold ].
Qed.

End FacesAcrossAPass.

Section FacesAcrossTheLoop.

Variable env : Env.
Variable this : Taste.

Lemma indexFacesFromImages_faces (images : list string) :
  forall (indexedFaces : nat) (w w' : World) (r : Settled nat),
    Forall (fun f => (FaceId f < face_counter w)%nat) (faces w) ->
    P.mapUpdating (indexFacesFromImage env this) images indexedFaces w
      = (w', r) ->
    exists extra,
      faces w' = faces w ++ extra /\
      Forall (fun f => (FaceId f < face_counter w')%nat) (faces w') /\
      (forall f, In f extra -> In (ExternalImageId f) images) /\
      (all_succeeded (events_since w w') = true ->
       r = Fulfilled (List.length extra + indexedFaces)%nat).
Proof.
  induction images as [|image rest IH]; intros c w w' r Hold Hrun.
  - simpl in Hrun. inversion Hrun; subst. exists []. rewrite app_nil_r.
    split; [reflexivity|]. split; [exact Hold|].
    split; [intros f []|]. intros _. reflexivity.
  - simpl in Hrun. unfold P.andThen in Hrun.
    destruct (indexFacesFromImage env this image c w) as [w1 r1] eqn:Hstep.
    destruct (extends_indexFacesFromImage _ _ _ _ _ _ _ Hstep) as [evs1 H1].
    destruct (indexFacesFromImage_faces _ _ _ _ _ _ _ Hold Hstep)
      as (extra1 & Hfaces1 & Hold1 & Himage1 & _ & _ & Hcount1).
    rewrite (events_since_record _ _ _ H1) in Hcount1.
    destruct r1 as [n|e].
    + assert (exists evs2, trace w' = trace w1 ++ evs2) as [evs2 H2].
      { eapply extends_mapUpdating; [|exact Hrun].
        intros. apply extends_indexFacesFromImage. }
      destruct (IH _ _ _ _ Hold1 Hrun)
        as (extra2 & Hfaces2 & Hold2 & Himage2 & Hcount2).
      rewrite (events_since_record _ _ _ H2) in Hcount2.
      exists (extra1 ++ extra2).
      split; [rewrite Hfaces2, Hfaces1; symmetry; apply app_assoc|].
      split; [exact Hold2|]. split.
      * intros f Hf. apply in_app_or in Hf. destruct Hf as [Hf|Hf].
        -- left. symmetry. apply Himage1. exact Hf.
        -- right. apply Himage2. exact Hf.
      * intros Hclean.
        rewrite (events_since_app _ _ _ _ _ H1 H2) in Hclean.
        apply all_succeeded_app in Hclean. destruct Hclean as [Hc1 Hc2].
        specialize (Hcount1 Hc1). specialize (Hcount2 Hc2).
        inversion Hcount1; subst n. rewrite Hcount2, List.length_app.
        f_equal. lia.
    + inversion Hrun; subst. exists extra1.
      split; [exact Hfaces1|]. split; [exact Hold1|]. split.
      * intros f Hf. left. symmetry. apply Himage1. exact Hf.
      * intros Hclean. rewrite (events_since_record _ _ _ H1) in Hclean.
        specialize (Hcount1 Hclean). discriminate Hcount1.
Qed.

Lemma remove_ids_below (ids : list nat) (fs : list FaceRecord) (n : nat) :
  Forall (fun f => (FaceId f < n)%nat) fs ->
  Forall (fun f => (FaceId f < n)%nat) (Rekognition.remove_ids ids fs).
Proof.
  rewrite !List.Forall_forall. intros Hall f Hf.
  apply remove_ids_In in Hf. apply Hall, Hf.
Qed.

(** X10. The synchronizer forgets no face it should know and learns
    none it should not. Whatever the collaborators answer, in a collection
    with distinct face ids every face whose image is still in the bucket
    is still in the collection after a pass, and every face of the
    collection after the pass was there before or shows an image the pass
    set out to index. *)
Theorem sync_keeps_known_faces (w w' : World) (r : Settled unit) :
  well_formed w ->
  syncS3BucketAndRekognitionCollection env this w = (w', r) ->
  (forall f,
     In f (faces w) -> In (ExternalImageId f) (trainingImages w) ->
     In f (faces w')) /\
  (forall f,
     In f (faces w') ->
     In f (faces w) \/
     In (ExternalImageId f) (imagesToIndex (faces w) (trainingImages w))).
Proof.
  intros [Hids Hcounter _] Hrun.
  destruct (sync_phases _ _ _ _ _ Hrun)
    as [(Hf & _)|(wc & deleted & wd & rd & Hdelete & Hindex & Hend)].
  { rewrite Hf. split; auto. }
  assert (faces w' = faces wd) as ->
    by (destruct rd; destruct Hend as [_ ->]; reflexivity).
  assert (face_counter wc = face_counter w /\
          (faces wc = faces w \/
           faces wc =
             Rekognition.remove_ids
               (facesToDelete (faces w) (trainingImages w)) (faces w)))
    as [Hc Hwc].
  { unfold deleteFaces, Rekognition.deleteFaces, Logger.warn in Hdelete.
    unfold_promise.
    destruct (deleteFaces_error env _ _); inversion Hdelete; subst; simpl;
      auto. }
  assert (Forall (fun f => (FaceId f < face_counter wc)%nat) (faces wc))
    as Hold.
  { rewrite Hc. destruct Hwc as [-> | ->];
      [exact Hcounter|apply remove_ids_below; exact Hcounter]. }
  unfold indexFacesFromImages in Hindex.
  destruct (indexFacesFromImages_faces _ _ _ _ _ Hold Hindex)
    as (extra & Hfaces & _ & Himages & _).
  rewrite Hfaces. split.
  - intros f Hf Hk. apply in_or_app. left.
    destruct Hwc as [-> | ->]; [exact Hf|].
    apply facesToDelete_kept; [exact Hids|]. split; assumption.
  - intros f Hf. apply in_app_or in Hf. destruct Hf as [Hf|Hf].
    + left. destruct Hwc as [Heq|Heq]; rewrite Heq in Hf; [exact Hf|].
      apply remove_ids_In in Hf. apply Hf.
    + right. apply Himages. exact Hf.
Qed.

(** X11. The log line of a clean pass tells the truth. When every call
    of a pass over a well-formed world succeeded, the pass fulfils, its
    last event is the debug line, and the number of available faces that
    the line reports is the number of faces in the collection after the
    pass. *)
Theorem sync_log_is_accurate (w w' : World) (r : Settled unit) :
  well_formed w ->
  syncS3BucketAndRekognitionCollection env this w = (w', r) ->
  all_succeeded (events_since w w') = true ->
  r = Fulfilled tt /\
  exists before deleted indexed,
    events_since w w' =
      before ++
      [event
         (LogDebug
            (MsgSynced (Some (Z.of_nat (List.length (faces w'))))
               (inl deleted) indexed))
         Succeeded] /\
    (List.length (faces w') + deleted)%nat
    = (List.length (faces w) + indexed)%nat.
Proof.
  intros [Hids Hcounter _] Hrun Hclean.
  destruct (sync_phases _ _ _ _ _ Hrun)
    as [(_ & _ & _ & Hfailed & _)
       |(wc & deleted & wd & rd & Hdelete & Hindex & Hend)];
    [congruence|].
  destruct (extends_indexFacesFromImages _ _ _ _ _ _ Hindex) as [evs Hevs].
  set (ids := facesToDelete (faces w) (trainingImages w)) in *.
  assert (exists tail,
            trace w' = trace wd ++ tail /\
            match rd with
            | Fulfilled indexed =>
                r = Fulfilled tt /\
                tail =
                  [event
                     (LogDebug
                        (MsgSynced (available_faces (faces w) deleted indexed)
                           deleted indexed))
                     Succeeded] /\
                faces w' = faces wd
            | Rejected _ => tail = []
            end) as (tail & Htail & Hrd).
  { destruct rd as [indexed|e]; destruct Hend as [-> ->].
    - eexists. split; [reflexivity|]. repeat split.
    - exists []. rewrite app_nil_r. split; reflexivity. }
  destruct (deleteFaces_run _ _ _ _ _ _ Hdelete)
    as [[Hwc Hdeleted]|(e & Hwc & _)].
  2: { rewrite (events_since_record w
                  ([event ListFaces Succeeded;
                    event (ListObjects "train") Succeeded;
                    event (DeleteFaces ids) (Failed e);
                    event (LogWarn (MsgText (message e))) Succeeded]
                   ++ evs ++ tail)) in Hclean
         by (rewrite Htail, Hevs, Hwc; simpl;
             repeat rewrite <- app_assoc; reflexivity).
       discriminate Hclean. }
  inversion Hdeleted; subst deleted. clear Hdeleted.
  rewrite (events_since_record w
             ([event ListFaces Succeeded;
               event (ListObjects "train") Succeeded;
               event (DeleteFaces ids) Succeeded]
              ++ evs ++ tail)) in *
    by (rewrite Htail, Hevs, Hwc; simpl;
        repeat rewrite <- app_assoc; reflexivity).
  assert (all_succeeded evs = true) as Hclean_index.
  { apply all_succeeded_app in Hclean. destruct Hclean as [_ Hclean].
    apply all_succeeded_app in Hclean. apply Hclean. }
  assert (Forall (fun f => (FaceId f < face_counter wc)%nat) (faces wc))
    as Hold by (rewrite Hwc; apply remove_ids_below; exact Hcounter).
  unfold indexFacesFromImages in Hindex.
  destruct (indexFacesFromImages_faces _ _ _ _ _ Hold Hindex)
    as (extra & Hfaces & _ & _ & Hcount).
  rewrite (events_since_record _ _ _ Hevs) in Hcount.
  specialize (Hcount Hclean_index). subst rd.
  destruct Hrd as (-> & -> & Hw').
  split; [reflexivity|].
  assert ((List.length (Rekognition.remove_ids ids (faces w))
           + List.length ids)%nat = List.length (faces w)) as Hlen.
  { apply remove_ids_length; [exact Hids|apply facesToDelete_NoDup; exact Hids|].
    intros id Hid. apply facesToDelete_gone in Hid.
    destruct Hid as (f & Hf & <- & _). apply in_map. exact Hf. }
  assert (List.length (faces w') =
          (List.length (Rekognition.remove_ids ids (faces w))
           + List.length extra)%nat) as Hafter.
  { rewrite Hw', Hfaces, List.length_app, Hwc. reflexivity. }
  exists ([event ListFaces Succeeded; event (ListObjects "train") Succeeded;
           event (DeleteFaces ids) Succeeded] ++ evs),
    (List.length ids), (List.length extra + 0)%nat.
  split.
  - rewrite <- app_assoc. do 2 f_equal. unfold available_faces.
    do 5 f_equal. lia.
  - lia.
Qed.

End FacesAcrossTheLoop.

(** ** Acquiring taste, as a whole *)

Section AcquisitionAsAWhole.

Variable env : Env.
Variable this : Taste.

(** The copy of one photo. *)
Lemma acquireTaste_copy_run (photo : nat) (w w1 : World)
    (r1 : Settled string) :
  acquireTaste_copy env this photo w = (w1, r1) ->
  heap w1 = heap w /\ faces w1 = faces w /\
  face_counter w1 = face_counter w /\
  exists evs,
    trace w1 = trace w ++ evs /\ Forall copy_call evs /\
    match r1 with
    | Fulfilled image =>
        all_succeeded evs = true /\
        exists p,
          heap w !! photo = Some p /\
          image = trainingKey this (pathname (url_parse env (url p)))
    | Rejected e =>
        (all_succeeded evs = true /\ heap w !! photo = None) \/
        exists src dst, evs = [event (CopyObject src dst) (Failed e)]
    end.
Proof.
  intros Hrun. unfold acquireTaste_copy, Heap.read, S3.copyObject in Hrun.
  unfold_promise.
  destruct (heap w !! photo) as [p|] eqn:Hp.
  - destruct (copyObject_source env w _) as [e|data];
      inversion Hrun; subst; simpl; repeat split; eexists;
      (split; [reflexivity|]); (split; [repeat constructor|]).
    + right. eexists. eexists. reflexivity.
    + split; [reflexivity|]. exists p. split; reflexivity.
  - inversion Hrun; subst. repeat split. exists [].
    rewrite app_nil_r. split; [reflexivity|]. split; [constructor|].
    left. split; reflexivity.
Qed.

(** The copies of a batch. *)
Lemma acquireTaste_copies (photos : list nat) :
  forall (w w1 : World) (r1 : Settled (list string)),
    P.map (acquireTaste_copy env this) photos w = (w1, r1) ->
    heap w1 = heap w /\ faces w1 = faces w /\
    face_counter w1 = face_counter w /\
    exists evs,
      trace w1 = trace w ++ evs /\ Forall copy_call evs /\
      match r1 with
      | Fulfilled images =>
          all_succeeded evs = true /\
          forall image,
            In image images ->
            exists photo p,
              In photo photos /\ heap w !! photo = Some p /\
              image = trainingKey this (pathname (url_parse env (url p)))
      | Rejected e =>
          (all_succeeded evs = true /\
           exists photo, In photo photos /\ heap w !! photo = None) \/
          exists src dst, In (event (CopyObject src dst) (Failed e)) evs
      end.
Proof.
  induction photos as [|photo rest IH]; intros w w1 r1 Hrun.
  - simpl in Hrun. inversion Hrun; subst. repeat split. exists [].
    rewrite app_nil_r. split; [reflexivity|]. split; [constructor|].
    split; [reflexivity|]. intros image [].
  - simpl in Hrun. unfold P.andThen at 1 in Hrun.
    destruct (acquireTaste_copy env this photo w) as [wa ra] eqn:Hcopy.
    destruct (acquireTaste_copy_run _ _ _ _ Hcopy)
      as (Hh1 & Hf1 & Hc1 & evs1 & Ht1 & Hall1 & Hr1).
    destruct ra as [image|e].
    + unfold P.andThen at 1 in Hrun.
      destruct (P.map (acquireTaste_copy env this) rest wa) as [wb rb]
        eqn:Hrest.
      destruct (IH _ _ _ Hrest) as (Hh2 & Hf2 & Hc2 & evs2 & Ht2 & Hall2 & Hr2).
      assert (w1 = wb) as -> by (destruct rb; inversion Hrun; reflexivity).
      split; [congruence|]. split; [congruence|]. split; [congruence|].
      exists (evs1 ++ evs2).
      split; [rewrite Ht2, Ht1; symmetry; apply app_assoc|].
      split; [apply List.Forall_app; split; assumption|].
      destruct Hr1 as (Hclean1 & p & Hp & Himage).
      destruct rb as [images|e]; inversion Hrun; subst.
      * destruct Hr2 as [Hclean2 Himages]. split.
        -- unfold all_succeeded in *. rewrite forallb_app, Hclean1, Hclean2.
           reflexivity.
        -- intros image [<-|Hin].
           ++ exists photo, p. split; [left; reflexivity|]. split; [exact Hp|].
              reflexivity.
           ++ destruct (Himages image Hin) as (photo' & p' & Hin' & Hp' & ->).
              exists photo', p'. split; [right; exact Hin'|].
              split; [rewrite <- Hh1; exact Hp'|reflexivity].
      * destruct Hr2 as [(Hclean2 & photo' & Hin' & Hnone)|(src & dst & Hin)].
        -- left. split.
           ++ unfold all_succeeded in *.
              rewrite forallb_app, Hclean1, Hclean2. reflexivity.
           ++ exists photo'. split; [right; exact Hin'|].
              rewrite <- Hh1. exact Hnone.
        -- right. exists src, dst. apply in_or_app. right. exact Hin.
    + inversion Hrun; subst.
      split; [exact Hh1|]. split; [exact Hf1|]. split; [exact Hc1|].
      exists evs1. split; [exact Ht1|]. split; [exact Hall1|].
      destruct Hr1 as [[Hclean Hnone]|(src & dst & ->)].
      * left. split; [exact Hclean|]. exists photo.
        split; [left; reflexivity|exact Hnone].
      * right. exists src, dst. left. reflexivity.
Qed.

(** [acquireTaste], phase by phase: the copies, the indexing, the log
    line. *)
Lemma acquireTaste_phases (photos : list nat) (w w' : World)
    (r : Settled unit) :
  acquireTaste env this photos w = (w', r) ->
  exists w1 r1,
    P.map (acquireTaste_copy env this) photos w = (w1, r1) /\
    match r1 with
    | Rejected e => w' = w1 /\ r = Rejected e
    | Fulfilled images =>
        exists wd rd,
          indexFacesFromImages env this images w1 = (wd, rd) /\
          match rd with
          | Rejected e => w' = wd /\ r = Rejected e
          | Fulfilled indexed =>
              w' = record (LogDebug (MsgIndexed indexed)) Succeeded wd /\
              r = Fulfilled tt
          end
    end.
Proof.
  intros Hrun. unfold acquireTaste in Hrun. unfold P.andThen at 1 in Hrun.
  destruct (P.map (acquireTaste_copy env this) photos w) as [w1 r1].
  exists w1, r1. split; [reflexivity|].
  destruct r1 as [images|e]; [|inversion Hrun; split; reflexivity].
  unfold P.andThen at 1 in Hrun.
  destruct (indexFacesFromImages env this images w1) as [wd rd].
  exists wd, rd. split; [reflexivity|].
  destruct rd as [indexed|e]; unfold Logger.debug in Hrun; inversion Hrun;
    split; reflexivity.
Qed.

Lemma indexing_is_no_copy (evs : list Event) (src dst : string) (o : Outcome) :
  Forall indexing_call evs -> ~ In (event (CopyObject src dst) o) evs.
Proof.
  intros Hall Hin. rewrite List.Forall_forall in Hall.
  apply Hall in Hin. exact Hin.
Qed.

(** X12. A failed copy stops the acquisition. When a [copyObject] call
    of [acquireTaste] fails, the promise rejects with the error of a
    failed copy, and the run has made no other call than copies: no image
    is indexed, nothing is logged, and the face collection is as it was. *)
Theorem acquireTaste_failed_copy (photos : list nat) (w w' : World)
    (r : Settled unit) (src dst : string) (e : Err) :
  acquireTaste env this photos w = (w', r) ->
  In (event (CopyObject src dst) (Failed e)) (events_since w w') ->
  (exists e' src' dst',
     r = Rejected e' /\
     In (event (CopyObject src' dst') (Failed e')) (events_since w w')) /\
  Forall copy_call (events_since w w') /\
  faces w' = faces w.
Proof.
  intros Hrun Hfailed.
  destruct (acquireTaste_phases _ _ _ _ Hrun) as (w1 & r1 & Hcopies & Hend).
  destruct (acquireTaste_copies _ _ _ _ Hcopies)
    as (_ & Hfaces & _ & evs1 & Ht1 & Hall1 & Hr1).
  destruct r1 as [images|e1].
  - (* all copies succeeded *)
    exfalso. destruct Hend as (wd & rd & Hindex & Hend).
    destruct Hr1 as [Hclean1 _].
    destruct (emits_indexFacesFromImages _ _ _ _ _ _ Hindex)
      as (evs2 & Ht2 & Hall2).
    assert (exists tail,
              trace w' = trace wd ++ tail /\
              ~ In (event (CopyObject src dst) (Failed e)) tail)
      as (tail & Ht3 & Htail).
    { destruct rd as [indexed|e2]; destruct Hend as [-> _].
      - eexists. split; [reflexivity|]. intros [Heq|[]]. discriminate Heq.
      - exists []. rewrite app_nil_r. split; [reflexivity|]. intros []. }
    rewrite (events_since_record w (evs1 ++ evs2 ++ tail)) in Hfailed
      by (rewrite Ht3, Ht2, Ht1; repeat rewrite <- app_assoc; reflexivity).
    apply in_app_or in Hfailed. destruct Hfailed as [Hin|Hin].
    + unfold all_succeeded in Hclean1. rewrite forallb_forall in Hclean1.
      apply Hclean1 in Hin. discriminate Hin.
    + apply in_app_or in Hin. destruct Hin as [Hin|Hin];
        [eapply indexing_is_no_copy; eassumption|contradiction].
  - destruct Hend as [-> ->].
    rewrite (events_since_record _ _ _ Ht1) in *.
    split; [|split; assumption].
    destruct Hr1 as [[Hclean1 _]|(src' & dst' & Hin)].
    + unfold all_succeeded in Hclean1. rewrite forallb_forall in Hclean1.
      apply Hclean1 in Hfailed. discriminate Hfailed.
    + exists e1, src', dst'. split; [reflexivity|exact Hin].
Qed.

(** X13. The acquisition stays in its lane. Whatever the collaborators
    answer, [acquireTaste] makes only copying, indexing, deleting and
    logging calls, and leaves the photo records and the settings alone;
    when the ids of the collection are below its counter, every face of
    the collection is still there afterwards, and every new face shows the
    training image of one of the photos. *)
Theorem acquireTaste_frame (photos : list nat) (w w' : World)
    (r : Settled unit) :
  Forall (fun f => (FaceId f < face_counter w)%nat) (faces w) ->
  acquireTaste env this photos w = (w', r) ->
  Forall acquire_call (events_since w w') /\
  heap w' = heap w /\
  settings w' = settings w /\
  (forall f, In f (faces w) -> In f (faces w')) /\
  (forall f,
     In f (faces w') ->
     In f (faces w) \/
     exists photo p,
       In photo photos /\ heap w !! photo = Some p /\
       ExternalImageId f
       = trainingKey this (pathname (url_parse env (url p)))).
Proof.
  intros Hold Hrun.
  split; [eapply emits_events; [apply emits_acquireTaste|exact Hrun]|].
  pose proof (acquireTaste_keeps_records env this _ _ _ _ Hrun) as Hkept.
  unfold records_of in Hkept. inversion Hkept as [[Hheap Hsettings]].
  split; [reflexivity|]. split; [reflexivity|].
  destruct (acquireTaste_phases _ _ _ _ Hrun) as (w1 & r1 & Hcopies & Hend).
  destruct (acquireTaste_copies _ _ _ _ Hcopies)
    as (_ & Hfaces & Hcounter & evs1 & _ & _ & Hr1).
  destruct r1 as [images|e1].
  - destruct Hend as (wd & rd & Hindex & Hend). destruct Hr1 as [_ Himages].
    assert (faces w' = faces wd) as ->
      by (destruct rd; destruct Hend as [-> _]; reflexivity).
    rewrite <- Hfaces, <- Hcounter in Hold.
    unfold indexFacesFromImages in Hindex.
    destruct (indexFacesFromImages_faces _ _ _ _ _ _ _ Hold Hindex)
      as (extra & Hwd & _ & Hextra & _).
    rewrite Hwd, Hfaces. split.
    + intros f Hf. apply in_or_app. left. exact Hf.
    + intros f Hf. apply in_app_or in Hf. destruct Hf as [Hf|Hf];
        [left; exact Hf|right].
      rewrite Hheap. apply Himages, Hextra, Hf.
  - destruct Hend as [-> _]. rewrite Hfaces. split; auto.
Qed.

(** X14. The log line of a clean acquisition tells the truth. When
    every call of [acquireTaste] succeeded, the promise fulfils, its last
    event is the debug line, and the number of indexed faces that the line
    reports is the number of faces the collection has gained. *)
Theorem acquireTaste_log_is_accurate (photos : list nat) (w w' : World)
    (r : Settled unit) :
  Forall (fun f => (FaceId f < face_counter w)%nat) (faces w) ->
  acquireTaste env this photos w = (w', r) ->
  all_succeeded (events_since w w') = true ->
  (forall photo, In photo photos -> exists p, heap w !! photo = Some p) ->
  r = Fulfilled tt /\
  exists before indexed,
    events_since w w' =
      before ++ [event (LogDebug (MsgIndexed indexed)) Succeeded] /\
    List.length (faces w') = (List.length (faces w) + indexed)%nat.
Proof.
  intros Hold Hrun Hclean Hphotos.
  destruct (acquireTaste_phases _ _ _ _ Hrun) as (w1 & r1 & Hcopies & Hend).
  destruct (acquireTaste_copies _ _ _ _ Hcopies)
    as (_ & Hfaces & Hcounter & evs1 & Ht1 & _ & Hr1).
  destruct r1 as [images|e1].
  2: { exfalso. destruct Hend as [-> _].
       rewrite (events_since_record _ _ _ Ht1) in Hclean.
       destruct Hr1 as [(_ & photo & Hin & Hnone)|(src & dst & Hin)].
       - destruct (Hphotos photo Hin) as [p Hp]. congruence.
       - unfold all_succeeded in Hclean. rewrite forallb_forall in Hclean.
         apply Hclean in Hin. discriminate Hin. }
  destruct Hend as (wd & rd & Hindex & Hend).
  destruct (extends_indexFacesFromImages _ _ _ _ _ _ Hindex) as [evs2 Ht2].
  rewrite <- Hfaces, <- Hcounter in Hold.
  unfold indexFacesFromImages in Hindex.
  destruct (indexFacesFromImages_faces _ _ _ _ _ _ _ Hold Hindex)
    as (extra & Hwd & _ & _ & Hcount).
  rewrite (events_since_record _ _ _ Ht2) in Hcount.
  assert (all_succeeded evs2 = true) as Hclean2.
  { destruct rd as [indexed|e]; destruct Hend as [-> _];
      erewrite events_since_record in Hclean
        by (simpl; rewrite Ht2, Ht1; repeat rewrite <- app_assoc;
            reflexivity).
    - apply all_succeeded_app in Hclean. destruct Hclean as [_ Hclean].
      apply all_succeeded_app in Hclean. apply Hclean.
    - apply all_succeeded_app in Hclean. apply Hclean. }
  specialize (Hcount Hclean2). subst rd. destruct Hend as [-> ->].
  split; [reflexivity|].
  exists (evs1 ++ evs2), (List.length extra + 0)%nat. split.
  - apply events_since_record. simpl. rewrite Ht2, Ht1.
    repeat rewrite <- app_assoc. reflexivity.
  - simpl. rewrite Hwd, List.length_app, Hfaces. lia.
Qed.

End AcquisitionAsAWhole.

(** ** The keys of saved photos *)

Lemma replace_absent (s pat rep : string) :
  JS.str_includes s pat = false -> JS.replace s pat rep = s.
Proof.
  induction s as [|c s IH]; simpl; intros Habsent.
  - apply orb_false_iff in Habsent. destruct Habsent as [Hprefix _].
    rewrite Hprefix. reflexivity.
  - apply orb_false_iff in Habsent. destruct Habsent as [Hprefix Hrest].
    rewrite Hprefix. rewrite IH by exact Hrest. reflexivity.
Qed.

Lemma append_assoc (a b c : string) : (a +:+ b) +:+ c = a +:+ (b +:+ c).
Proof.
  induction a as [|x a IH]; [reflexivity|].
  change (String x ((a +:+ b) +:+ c) = String x (a +:+ (b +:+ c))).
  rewrite IH. reflexivity.
Qed.

Lemma no_slash_cons (c : ascii) (s : string) :
  JS.str_includes (String c s) "/" = false ->
  Ascii.eqb c "/" = false /\ JS.str_includes s "/" = false.
Proof.
  simpl. intros H. apply orb_false_iff in H. destruct H as [Hc Hs].
  split; [|exact Hs].
  destruct (ascii_dec "/" c) as [<-|Hne].
  - destruct s; discriminate Hc.
  - apply Ascii.eqb_neq. congruence.
Qed.

Lemma split_no_slash (s : string) :
  JS.str_includes s "/" = false -> JS.split "/" s = [s].
Proof.
  induction s as [|c s IH]; intros Hs; [reflexivity|].
  apply no_slash_cons in Hs. destruct Hs as [Hc Hs].
  cbn [JS.split]. rewrite Hc, (IH Hs). reflexivity.
Qed.

Lemma split_at_slash (dir rest : string) :
  JS.str_includes dir "/" = false ->
  JS.split "/" (dir +:+ "/" +:+ rest) = dir :: JS.split "/" rest.
Proof.
  induction dir as [|c dir IH]; intros Hdir; [reflexivity|].
  apply no_slash_cons in Hdir. destruct Hdir as [Hc Hdir].
  change (String c dir +:+ "/" +:+ rest)
    with (String c (dir +:+ "/" +:+ rest)).
  cbn [JS.split]. rewrite Hc, (IH Hdir). reflexivity.
Qed.

Section KeysOfSavedPhotos.

Variable env : Env.
Variable this : Taste.

(** The key of a photo that is already in the bucket is the key it was
    saved under. *)
Lemma savePhoto_pathname_saved (channelName : option string) (u : Url)
    (key : string) :
  pathname u =
    "/" +:+ _s3Bucket this +:+ "/photos/" +:+ JS.interpolate channelName
    +:+ "/" +:+ key ->
  JS.str_includes
    (_s3Bucket this +:+ "/photos/" +:+ JS.interpolate channelName +:+ "/"
     +:+ key) "cache/images/" = false ->
  savePhoto_pathname this channelName u no_options = key.
Proof.
  intros Hpath Hcache. unfold savePhoto_pathname. rewrite Hpath.
  cbn [rename no_options JS.substring1 String.append].
  rewrite (replace_absent _ _ _ Hcache).
  rewrite <- (replace_at_start
                (_s3Bucket this +:+ "/photos/" +:+
                 JS.interpolate channelName +:+ "/") EmptyString key)
    at 2.
  f_equal. rewrite !append_assoc. reflexivity.
Qed.

(** X15. Saving a photo again stores it under the same key. When a
    photo that [savePhoto] has stored is saved a second time, and the URL
    it was given parses to the path of the stored object, the second run
    uploads to the key of the first: the bucket has the same keys as
    after the first run and the photo keeps its URL. *)
Theorem savePhoto_again
    (channelName : option string) (photo : nat) (p : Photo)
    (w w1 w2 : World) (first second : Buffer) :
  let key :=
    savePhoto_pathname this channelName (url_parse env (url p)) no_options in
  let saved := url_parse env (savePhoto_url env this channelName key) in
  heap w !! photo = Some p ->
  JS.truthy_str channelName = true ->
  savePhoto env this channelName (Some photo) no_options w
    = (w1, Fulfilled first) ->
  savePhoto env this channelName (Some photo) no_options w1
    = (w2, Fulfilled second) ->
  pathname saved =
    "/" +:+ _s3Bucket this +:+ "/photos/" +:+ JS.interpolate channelName
    +:+ "/" +:+ key ->
  JS.str_includes
    (_s3Bucket this +:+ "/photos/" +:+ JS.interpolate channelName +:+ "/"
     +:+ key) "cache/images/" = false ->
  events_since w1 w2 =
    [event (HttpGet (href saved)) Succeeded;
     event (PutObject (savePhoto_key channelName key) second) Succeeded] /\
  heap w2 = heap w1 /\
  List.map fst (objects w2) = List.map fst (objects w1).
Proof.
  intros key saved Hp Hchannel Hfirst Hsecond Hpath Hcache.
  pose proof (savePhoto_run env this _ _ _ _ _ _ _ Hp Hchannel Hfirst) as H1.
  cbn zeta in H1. destruct H1 as (r1 & _ & _ & _ & Hheap1 & Hobjects1 & _).
  fold key in Hheap1, Hobjects1.
  assert (heap w1 !! photo
          = Some (with_url (savePhoto_url env this channelName key) p))
    as Hp1.
  { rewrite Hheap1. apply list_lookup_insert_eq.
    apply lookup_lt_Some in Hp. exact Hp. }
  pose proof (savePhoto_run env this _ _ _ _ _ _ _ Hp1 Hchannel Hsecond)
    as H2.
  cbn zeta in H2. cbn [url with_url] in H2. fold saved in H2.
  rewrite (savePhoto_pathname_saved _ _ _ Hpath Hcache) in H2.
  destruct H2 as (r2 & _ & _ & [_ Hevents] & Hheap2 & Hobjects2 & _).
  cbn [resize no_options] in Hevents.
  split; [exact Hevents|]. split.
  - rewrite Hheap2. apply list_insert_id. rewrite Hp1. reflexivity.
  - rewrite Hobjects2, Hobjects1. cbn [List.map fst]. f_equal.
    unfold S3.remove_key at 1. cbn [List.filter fst].
    rewrite String.eqb_refl. cbn [negb]. f_equal.
    fold (S3.remove_key (savePhoto_key channelName key)
            (S3.remove_key (savePhoto_key channelName key) (objects w))).
    unfold S3.remove_key. rewrite filter_all; [reflexivity|].
    intros o Ho. apply filter_In in Ho. apply Ho.
Qed.

(** X16. What the [rename] option does to a key. The renamed key is
    made of the first two parts of the plain key between slashes, with the
    prefix before the second: a key [dir/file] becomes [dir/<prepend>file];
    of a deeper key [dir/file/more] only [dir/<prepend>file] is left; and
    a key without a slash gets the text [undefined] for its missing second
    part. *)
Theorem savePhoto_pathname_renamed
    (channelName : option string) (u : Url) (size : option (nat * nat))
    (prepend : string) :
  let plain := savePhoto_pathname this channelName u no_options in
  let renamed :=
    savePhoto_pathname this channelName u
      {| resize := size; rename := Some prepend |} in
  (forall dir file,
     plain = dir +:+ "/" +:+ file ->
     JS.str_includes dir "/" = false ->
     JS.str_includes file "/" = false ->
     renamed = dir +:+ "/" +:+ prepend +:+ file) /\
  (forall dir file more,
     plain = dir +:+ "/" +:+ file +:+ "/" +:+ more ->
     JS.str_includes dir "/" = false ->
     JS.str_includes file "/" = false ->
     renamed = dir +:+ "/" +:+ prepend +:+ file) /\
  (JS.str_includes plain "/" = false ->
   renamed = plain +:+ "/" +:+ prepend +:+ "undefined").
Proof.
  intros plain renamed. unfold renamed, plain, savePhoto_pathname.
  cbn [rename no_options].
  set (s := JS.replace _ _ _).
  split; [|split].
  - intros dir file -> Hdir Hfile.
    rewrite (split_at_slash _ _ Hdir), (split_no_slash _ Hfile). reflexivity.
  - intros dir file more -> Hdir Hfile.
    rewrite (split_at_slash _ _ Hdir), (split_at_slash _ _ Hfile).
    reflexivity.
  - intros Hplain. rewrite (split_no_slash _ Hplain). reflexivity.
Qed.

(** X17. A photo from outside the bucket is copied onto itself. When
    the path of a photo's URL does not hold [/<bucket>/photos], the
    destination key of [acquireTaste] is the source key, and the copy of
    that photo is the call [copyObject(src, src)]. *)
Theorem acquireTaste_outside_bucket
    (photo : nat) (p : Photo) (w w' : World) (r : Settled string) :
  let src := pathname (url_parse env (url p)) in
  heap w !! photo = Some p ->
  JS.str_includes src ("/" +:+ _s3Bucket this +:+ "/photos") = false ->
  acquireTaste_copy env this photo w = (w', r) ->
  trainingKey this src = src /\
  exists o, events_since w w' = [event (CopyObject src src) o] /\
  (o = Succeeded -> r = Fulfilled src).
Proof.
  intros src Hp Habsent Hrun.
  assert (trainingKey this src = src) as Hkey
    by (unfold trainingKey; apply replace_absent; exact Habsent).
  split; [exact Hkey|].
  unfold acquireTaste_copy, Heap.read, S3.copyObject in Hrun. unfold_promise.
  rewrite Hp in Hrun. fold src in Hrun. rewrite Hkey in Hrun.
  destruct (copyObject_source env w src) as [e|data]; inversion Hrun; subst.
  - exists (Failed e). split; [|discriminate].
    apply events_since_record. reflexivity.
  - exists Succeeded. split; [|reflexivity].
    apply events_since_record. reflexivity.
Qed.

End KeysOfSavedPhotos.

(** ** Provisioning *)

Lemma calls_since_called (a a' : Bootstrap.Account)
    (cs : list (Bootstrap.BootCall * Outcome)) :
  Bootstrap.calls a' = Bootstrap.calls a ++ cs -> calls_since a a' = cs.
Proof. intros H. unfold calls_since. rewrite H. apply drop_app_length. Qed.

Lemma or_string_nonempty (a : option string) (b : string) :
  b <> EmptyString -> Bootstrap.or_string a b <> EmptyString.
Proof.
  intros Hb. unfold Bootstrap.or_string.
  destruct a as [[|c s]|]; simpl; [exact Hb|discriminate|exact Hb].
Qed.

Lemma or_string_truthy (a : option string) (b : string) :
  JS.truthy_str a = true -> Some (Bootstrap.or_string a b) = a.
Proof. destruct a as [[|c s]|]; simpl; [discriminate|reflexivity|discriminate]. Qed.

Lemma or_string_falsy (a : option string) (b : string) :
  JS.truthy_str a = false -> Bootstrap.or_string a b = b.
Proof. destruct a as [[|c s]|]; simpl; [reflexivity|discriminate|reflexivity]. Qed.

Lemma fresh_name_nonempty (sv : Bootstrap.Services) (a : Bootstrap.Account) :
  Bootstrap.fresh_name sv a <> EmptyString.
Proof. unfold Bootstrap.fresh_name. discriminate. Qed.

Lemma find_ours_found (existing : list string) (found : string) :
  Bootstrap.find_ours existing = Some found ->
  In found existing /\ String.prefix "get-me-a-date-" found = true /\
  JS.truthy_str (Some found) = true.
Proof.
  intros Hfind. apply List.find_some in Hfind. destruct Hfind as [Hin Hprefix].
  split; [exact Hin|]. split; [exact Hprefix|].
  destruct found; [discriminate Hprefix|reflexivity].
Qed.

Lemma includes_In (existing : list string) (name : string) :
  Bootstrap.includes existing name = true <-> In name existing.
Proof. apply existsb_eqb_In. Qed.

Section Provisioning.

Variable sv : Bootstrap.Services.

(** The name that provisioning settles on: the configured one, else the
    first existing one with the prefix, else a fresh one. *)
Lemma resolved_name (configured : option string) (existing : list string)
    (fresh : string) :
  fresh <> EmptyString ->
  let name :=
    Bootstrap.or_string configured
      (Bootstrap.or_string (Bootstrap.find_ours existing) fresh) in
  name <> EmptyString /\
  (JS.truthy_str configured = true -> Some name = configured) /\
  (JS.truthy_str configured = false ->
   match Bootstrap.find_ours existing with
   | Some found => name = found /\ In found existing
   | None => name = fresh
   end).
Proof.
  intros Hfresh name. split; [|split].
  - apply or_string_nonempty, or_string_nonempty, Hfresh.
  - intros Hc. apply or_string_truthy. exact Hc.
  - intros Hc. unfold name. rewrite (or_string_falsy _ _ Hc).
    destruct (Bootstrap.find_ours existing) as [found|] eqn:Hfind;
      [|reflexivity].
    destruct (find_ours_found _ _ Hfind) as (Hin & _ & Htruthy).
    split; [|exact Hin].
    assert (Some (Bootstrap.or_string (Some found) fresh) = Some found) as H
      by (apply or_string_truthy; exact Htruthy).
    inversion H as [H']. rewrite H'. exact H'.
Qed.

(** X18. Provisioning the collection. A run of
    [createRekognitionCollectionIfNeeded] that fulfils leaves the
    [Taste] object with a collection name that is not empty and names a
    collection of the account. The name is the configured one when there
    is one; otherwise the first existing collection whose id starts with
    [get-me-a-date-], which is reused without a create call; otherwise a
    fresh name, which is created. No collection is removed, at most one is
    added, and the buckets and the bucket name are not touched. *)
Theorem createRekognitionCollectionIfNeeded_ensures
    (a a' : Bootstrap.Account) :
  Bootstrap.createRekognitionCollectionIfNeeded sv a = (a', Fulfilled tt) ->
  exists name,
    Bootstrap._rekognitionCollection (Bootstrap.names a') = Some name /\
    name <> EmptyString /\
    In name (Bootstrap.collections a') /\
    (Bootstrap.collections a' = Bootstrap.collections a \/
     (~ In name (Bootstrap.collections a) /\
      Bootstrap.collections a' = Bootstrap.collections a ++ [name])) /\
    (JS.truthy_str (Bootstrap._rekognitionCollection (Bootstrap.names a))
     = true ->
     Bootstrap._rekognitionCollection (Bootstrap.names a) = Some name) /\
    (JS.truthy_str (Bootstrap._rekognitionCollection (Bootstrap.names a))
     = false ->
     match Bootstrap.find_ours (Bootstrap.collections a) with
     | Some found =>
         name = found /\
         Bootstrap.collections a' = Bootstrap.collections a /\
         calls_since a a' = [(Bootstrap.ListCollections, Succeeded)]
     | None =>
         name =
           Bootstrap.fresh_name sv
             (Bootstrap.called Bootstrap.ListCollections Succeeded a)
     end) /\
    Bootstrap.buckets a' = Bootstrap.buckets a /\
    Bootstrap._s3Bucket (Bootstrap.names a')
    = Bootstrap._s3Bucket (Bootstrap.names a).
Proof.
  intros Hrun.
  unfold Bootstrap.createRekognitionCollectionIfNeeded,
    Bootstrap.listCollections in Hrun.
  destruct (Bootstrap.listCollections_error sv a) as [e|]; [discriminate|].
  cbn zeta in Hrun. cbn [Bootstrap.names Bootstrap.called] in Hrun.
  set (a1 := Bootstrap.called Bootstrap.ListCollections Succeeded a) in *.
  destruct (resolved_name
              (Bootstrap._rekognitionCollection (Bootstrap.names a))
              (Bootstrap.collections a) (Bootstrap.fresh_name sv a1)
              (fresh_name_nonempty sv a1))
    as (Hnonempty & Hconfigured & Hfound).
  set (name := Bootstrap.or_string _ _) in *.
  exists name.
  destruct (Bootstrap.includes (Bootstrap.collections a) name) eqn:Hincl;
    cbn [negb] in Hrun.
  - inversion Hrun; subst a'. apply includes_In in Hincl.
    cbn. split; [reflexivity|]. split; [exact Hnonempty|].
    split; [exact Hincl|]. split; [left; reflexivity|].
    split; [intros Hc; symmetry; apply Hconfigured, Hc|].
    split; [|split; reflexivity].
    intros Hc. specialize (Hfound Hc).
    destruct (Bootstrap.find_ours (Bootstrap.collections a)) as [found|];
      [|exact Hfound].
    destruct Hfound as [Hname _]. split; [exact Hname|].
    split; [reflexivity|]. apply calls_since_called. reflexivity.
  - unfold Bootstrap.createCollection in Hrun.
    destruct (Bootstrap.createCollection_error sv _ name) as [e|];
      [discriminate|].
    inversion Hrun; subst a'.
    assert (~ In name (Bootstrap.collections a)) as Hnew.
    { intros Hin. apply includes_In in Hin. congruence. }
    cbn. split; [reflexivity|]. split; [exact Hnonempty|].
    split; [apply in_or_app; right; left; reflexivity|].
    split; [right; split; [exact Hnew|reflexivity]|].
    split; [intros Hc; symmetry; apply Hconfigured, Hc|].
    split; [|split; reflexivity].
    intros Hc. specialize (Hfound Hc).
    destruct (Bootstrap.find_ours (Bootstrap.collections a)) as [found|];
      [|exact Hfound].
    destruct Hfound as [Hname Hin]. exfalso. apply Hnew.
    rewrite Hname. exact Hin.
Qed.

(** X19. Provisioning the bucket. A run of [createS3BucketIfNeeded]
    that fulfils leaves the [Taste] object with a bucket name that is not
    empty and names a bucket of the account. The name is the configured
    one when there is one; otherwise the first existing bucket whose name
    starts with [get-me-a-date-], which is reused without a create call;
    otherwise a fresh name, which is created. No bucket is removed, at
    most one is added, and the collections and the collection name are not
    touched. *)
Theorem createS3BucketIfNeeded_ensures (a a' : Bootstrap.Account) :
  Bootstrap.createS3BucketIfNeeded sv a = (a', Fulfilled tt) ->
  exists name,
    Bootstrap._s3Bucket (Bootstrap.names a') = Some name /\
    name <> EmptyString /\
    In name (Bootstrap.buckets a') /\
    (Bootstrap.buckets a' = Bootstrap.buckets a \/
     (~ In name (Bootstrap.buckets a) /\
      Bootstrap.buckets a' = Bootstrap.buckets a ++ [name])) /\
    (JS.truthy_str (Bootstrap._s3Bucket (Bootstrap.names a)) = true ->
     Bootstrap._s3Bucket (Bootstrap.names a) = Some name) /\
    (JS.truthy_str (Bootstrap._s3Bucket (Bootstrap.names a)) = false ->
     match Bootstrap.find_ours (Bootstrap.buckets a) with
     | Some found =>
         name = found /\
         Bootstrap.buckets a' = Bootstrap.buckets a /\
         calls_since a a' = [(Bootstrap.ListBuckets, Succeeded)]
     | None =>
         name =
           Bootstrap.fresh_name sv
             (Bootstrap.called Bootstrap.ListBuckets Succeeded a)
     end) /\
    Bootstrap.collections a' = Bootstrap.collections a /\
    Bootstrap._rekognitionCollection (Bootstrap.names a')
    = Bootstrap._rekognitionCollection (Bootstrap.names a).
Proof.
  intros Hrun.
  unfold Bootstrap.createS3BucketIfNeeded, Bootstrap.listBuckets in Hrun.
  destruct (Bootstrap.listBuckets_error sv a) as [e|]; [discriminate|].
  cbn zeta in Hrun. cbn [Bootstrap.names Bootstrap.called] in Hrun.
  set (a1 := Bootstrap.called Bootstrap.ListBuckets Succeeded a) in *.
  destruct (resolved_name
              (Bootstrap._s3Bucket (Bootstrap.names a))
              (Bootstrap.buckets a) (Bootstrap.fresh_name sv a1)
              (fresh_name_nonempty sv a1))
    as (Hnonempty & Hconfigured & Hfound).
  set (name := Bootstrap.or_string _ _) in *.
  exists name.
  destruct (Bootstrap.includes (Bootstrap.buckets a) name) eqn:Hincl;
    cbn [negb] in Hrun.
  - inversion Hrun; subst a'. apply includes_In in Hincl.
    cbn. split; [reflexivity|]. split; [exact Hnonempty|].
    split; [exact Hincl|]. split; [left; reflexivity|].
    split; [intros Hc; symmetry; apply Hconfigured, Hc|].
    split; [|split; reflexivity].
    intros Hc. specialize (Hfound Hc).
    destruct (Bootstrap.find_ours (Bootstrap.buckets a)) as [found|];
      [|exact Hfound].
    destruct Hfound as [Hname _]. split; [exact Hname|].
    split; [reflexivity|]. apply calls_since_called. reflexivity.
  - unfold Bootstrap.createBucket in Hrun.
    destruct (Bootstrap.createBucket_error sv _ name) as [e|];
      [discriminate|].
    inversion Hrun; subst a'.
    assert (~ In name (Bootstrap.buckets a)) as Hnew.
    { intros Hin. apply includes_In in Hin. congruence. }
    cbn. split; [reflexivity|]. split; [exact Hnonempty|].
    split; [apply in_or_app; right; left; reflexivity|].
    split; [right; split; [exact Hnew|reflexivity]|].
    split; [intros Hc; symmetry; apply Hconfigured, Hc|].
    split; [|split; reflexivity].
    intros Hc. specialize (Hfound Hc).
    destruct (Bootstrap.find_ours (Bootstrap.buckets a)) as [found|];
      [|exact Hfound].
    destruct Hfound as [Hname Hin]. exfalso. apply Hnew.
    rewrite Hname. exact Hin.
Qed.

End Provisioning.

Section ProvisioningAgain.

Variable sv : Bootstrap.Services.

(** The calls of a provisioning run and how it settles. *)
Lemma createRekognitionCollectionIfNeeded_calls
    (a a' : Bootstrap.Account) (r : Settled unit) :
  Bootstrap.createRekognitionCollectionIfNeeded sv a = (a', r) ->
  exists cs,
    Bootstrap.calls a' = Bootstrap.calls a ++ cs /\
    match r with
    | Fulfilled _ =>
        forallb call_succeeded cs = true /\
        exists name,
          Bootstrap._rekognitionCollection (Bootstrap.names a') = Some name /\
          name <> EmptyString /\ In name (Bootstrap.collections a')
    | Rejected e =>
        forallb call_succeeded cs = false /\ exists c, In (c, Failed e) cs
    end.
Proof.
  intros Hrun.
  unfold Bootstrap.createRekognitionCollectionIfNeeded,
    Bootstrap.listCollections in Hrun.
  destruct (Bootstrap.listCollections_error sv a) as [e|].
  { inversion Hrun; subst. eexists. split; [reflexivity|].
    split; [reflexivity|]. eexists. left. reflexivity. }
  cbn zeta in Hrun. cbn [Bootstrap.names Bootstrap.called] in Hrun.
  set (a1 := Bootstrap.called Bootstrap.ListCollections Succeeded a) in *.
  pose proof (or_string_nonempty
                (Bootstrap._rekognitionCollection (Bootstrap.names a))
                _ (or_string_nonempty
                     (Bootstrap.find_ours (Bootstrap.collections a)) _
                     (fresh_name_nonempty sv a1))) as Hnonempty.
  set (name := Bootstrap.or_string _ _) in *.
  destruct (Bootstrap.includes (Bootstrap.collections a) name) eqn:Hincl;
    cbn [negb] in Hrun.
  - inversion Hrun; subst. eexists. split; [reflexivity|].
    split; [reflexivity|]. exists name. split; [reflexivity|].
    split; [exact Hnonempty|]. apply includes_In. exact Hincl.
  - unfold Bootstrap.createCollection in Hrun.
    destruct (Bootstrap.createCollection_error sv _ name) as [e|];
      inversion Hrun; subst; cbn.
    + eexists. rewrite <- !app_assoc. split; [reflexivity|].
      split; [reflexivity|]. eexists. right. right. left. reflexivity.
    + eexists. rewrite <- !app_assoc. split; [reflexivity|].
      split; [reflexivity|]. exists name. split; [reflexivity|].
      split; [exact Hnonempty|]. apply in_or_app. right. left. reflexivity.
Qed.

Lemma createS3BucketIfNeeded_calls
    (a a' : Bootstrap.Account) (r : Settled unit) :
  Bootstrap.createS3BucketIfNeeded sv a = (a', r) ->
  Bootstrap.collections a' = Bootstrap.collections a /\
  Bootstrap._rekognitionCollection (Bootstrap.names a')
  = Bootstrap._rekognitionCollection (Bootstrap.names a) /\
  exists cs,
    Bootstrap.calls a' = Bootstrap.calls a ++ cs /\
    match r with
    | Fulfilled _ =>
        forallb call_succeeded cs = true /\
        exists name,
          Bootstrap._s3Bucket (Bootstrap.names a') = Some name /\
          name <> EmptyString /\ In name (Bootstrap.buckets a')
    | Rejected e =>
        forallb call_succeeded cs = false /\ exists c, In (c, Failed e) cs
    end.
Proof.
  intros Hrun.
  unfold Bootstrap.createS3BucketIfNeeded, Bootstrap.listBuckets in Hrun.
  destruct (Bootstrap.listBuckets_error sv a) as [e|].
  { inversion Hrun; subst. split; [reflexivity|]. split; [reflexivity|].
    eexists. split; [reflexivity|].
    split; [reflexivity|]. eexists. left. reflexivity. }
  cbn zeta in Hrun. cbn [Bootstrap.names Bootstrap.called] in Hrun.
  set (a1 := Bootstrap.called Bootstrap.ListBuckets Succeeded a) in *.
  pose proof (or_string_nonempty
                (Bootstrap._s3Bucket (Bootstrap.names a))
                _ (or_string_nonempty
                     (Bootstrap.find_ours (Bootstrap.buckets a)) _
                     (fresh_name_nonempty sv a1))) as Hnonempty.
  set (name := Bootstrap.or_string _ _) in *.
  destruct (Bootstrap.includes (Bootstrap.buckets a) name) eqn:Hincl;
    cbn [negb] in Hrun.
  - inversion Hrun; subst. split; [reflexivity|]. split; [reflexivity|].
    eexists. split; [reflexivity|].
    split; [reflexivity|]. exists name. split; [reflexivity|].
    split; [exact Hnonempty|]. apply includes_In. exact Hincl.
  - unfold Bootstrap.createBucket in Hrun.
    destruct (Bootstrap.createBucket_error sv _ name) as [e|];
      inversion Hrun; subst; cbn.
    + split; [reflexivity|]. split; [reflexivity|].
      eexists. rewrite <- !app_assoc. split; [reflexivity|].
      split; [reflexivity|]. eexists. right. right. left. reflexivity.
    + split; [reflexivity|]. split; [reflexivity|].
      eexists. rewrite <- !app_assoc. split; [reflexivity|].
      split; [reflexivity|]. exists name. split; [reflexivity|].
      split; [exact Hnonempty|]. apply in_or_app. right. left. reflexivity.
Qed.

(** X20. Provisioning the collection is idempotent. After a run of
    [createRekognitionCollectionIfNeeded] that fulfilled, another run makes
    the listing call and no other: it creates nothing, keeps the name, and
    fulfils when the listing succeeds. *)
Theorem createRekognitionCollectionIfNeeded_again
    (a a1 a2 : Bootstrap.Account) (r : Settled unit) :
  Bootstrap.createRekognitionCollectionIfNeeded sv a = (a1, Fulfilled tt) ->
  Bootstrap.createRekognitionCollectionIfNeeded sv a1 = (a2, r) ->
  Bootstrap.names a2 = Bootstrap.names a1 /\
  Bootstrap.collections a2 = Bootstrap.collections a1 /\
  Bootstrap.buckets a2 = Bootstrap.buckets a1 /\
  exists o,
    calls_since a1 a2 = [(Bootstrap.ListCollections, o)] /\
    (o = Succeeded -> r = Fulfilled tt).
Proof.
  intros Hfirst Hsecond.
  destruct (createRekognitionCollectionIfNeeded_calls _ _ _ Hfirst)
    as (_ & _ & _ & name & Hname & Hnonempty & Hin).
  unfold Bootstrap.createRekognitionCollectionIfNeeded,
    Bootstrap.listCollections in Hsecond.
  destruct (Bootstrap.listCollections_error sv a1) as [e|].
  { inversion Hsecond; subst. repeat split. exists (Failed e).
    split; [apply calls_since_called; reflexivity|discriminate]. }
  cbn zeta in Hsecond. cbn [Bootstrap.names Bootstrap.called] in Hsecond.
  rewrite Hname in Hsecond.
  destruct name as [|c0 s0]; [contradiction|].
  cbn [Bootstrap.or_string JS.truthy_str] in Hsecond.
  rewrite (proj2 (includes_In _ _) Hin) in Hsecond. cbn [negb] in Hsecond.
  inversion Hsecond; subst. cbn. split.
  - destruct (Bootstrap.names a1) as [c b]. simpl in Hname. subst c.
    reflexivity.
  - repeat split. exists Succeeded.
    split; [apply calls_since_called; reflexivity|reflexivity].
Qed.

(** X21. Provisioning the bucket is idempotent. After a run of
    [createS3BucketIfNeeded] that fulfilled, another run makes the listing
    call and no other: it creates nothing, keeps the name, and fulfils
    when the listing succeeds. *)
Theorem createS3BucketIfNeeded_again
    (a a1 a2 : Bootstrap.Account) (r : Settled unit) :
  Bootstrap.createS3BucketIfNeeded sv a = (a1, Fulfilled tt) ->
  Bootstrap.createS3BucketIfNeeded sv a1 = (a2, r) ->
  Bootstrap.names a2 = Bootstrap.names a1 /\
  Bootstrap.collections a2 = Bootstrap.collections a1 /\
  Bootstrap.buckets a2 = Bootstrap.buckets a1 /\
  exists o,
    calls_since a1 a2 = [(Bootstrap.ListBuckets, o)] /\
    (o = Succeeded -> r = Fulfilled tt).
Proof.
  intros Hfirst Hsecond.
  destruct (createS3BucketIfNeeded_calls _ _ _ Hfirst)
    as (_ & _ & _ & _ & _ & name & Hname & Hnonempty & Hin).
  unfold Bootstrap.createS3BucketIfNeeded, Bootstrap.listBuckets in Hsecond.
  destruct (Bootstrap.listBuckets_error sv a1) as [e|].
  { inversion Hsecond; subst. repeat split. exists (Failed e).
    split; [apply calls_since_called; reflexivity|discriminate]. }
  cbn zeta in Hsecond. cbn [Bootstrap.names Bootstrap.called] in Hsecond.
  rewrite Hname in Hsecond.
  destruct name as [|c0 s0]; [contradiction|].
  cbn [Bootstrap.or_string JS.truthy_str] in Hsecond.
  rewrite (proj2 (includes_In _ _) Hin) in Hsecond. cbn [negb] in Hsecond.
  inversion Hsecond; subst. cbn. split.
  - destruct (Bootstrap.names a1) as [c b]. simpl in Hname. subst b.
    reflexivity.
  - repeat split. exists Succeeded.
    split; [apply calls_since_called; reflexivity|reflexivity].
Qed.


End ProvisioningAgain.

(** ** Reading messages *)

Lemma find_append {A} (f : A -> bool) (l k : list A) :
  List.find f (l ++ k)
  = match List.find f l with
    | Some x => Some x
    | None => List.find f k
    end.
Proof.
  induction l as [|x l IH]; simpl; [reflexivity|].
  destruct (f x); [reflexivity|exact IH].
Qed.

Section ReadingMessages.

Variable upsert_error : Messages.Store -> Messages.Message -> option Err.

Lemma matches_key_of (key : Messages.Where) (m : Messages.Message) :
  Messages.matches key m = true <-> Messages.key_of m = key.
Proof.
  unfold Messages.matches, Messages.key_of. destruct key as [c i]. simpl.
  rewrite andb_true_iff, !String.eqb_eq. split.
  - intros [-> ->]. reflexivity.
  - intros H. inversion H. split; reflexivity.
Qed.

Lemma row_of_replaced (key other : Messages.Where) (m : Messages.Message)
    (table : list Messages.Message) :
  Messages.key_of m = other ->
  Messages.row_of key
    (List.map (fun row => if Messages.matches other row then m else row)
       table)
  = if Messages.matches key m
    then match Messages.row_of other table with
         | Some _ => Some m
         | None => None
         end
    else Messages.row_of key table.
Proof.
  intros Hm. unfold Messages.row_of.
  induction table as [|row table IH]; simpl.
  - destruct (Messages.matches key m); reflexivity.
  - destruct (Messages.matches other row) eqn:Hrow.
    + destruct (Messages.matches key m) eqn:Hkey; [reflexivity|].
      assert (Messages.matches key row = false) as ->; [|exact IH].
      apply matches_key_of in Hrow.
      destruct (Messages.matches key row) eqn:H; [|reflexivity].
      apply matches_key_of in H.
      assert (Messages.matches key m = true) as Hyes
        by (apply matches_key_of; congruence).
      congruence.
    + destruct (Messages.matches key row) eqn:Hk.
      * destruct (Messages.matches key m) eqn:Hkey; [|reflexivity].
        apply matches_key_of in Hk, Hkey.
        assert (Messages.matches other row = true) as Hyes
          by (apply matches_key_of; congruence).
        congruence.
      * rewrite IH. reflexivity.
Qed.

(** The row of a key after one upsert. *)
Lemma row_of_upsert (key : Messages.Where) (m : Messages.Message)
    (s s' : Messages.Store) :
  Messages.upsert upsert_error m (Messages.key_of m) s
    = (s', Fulfilled tt) ->
  Messages.row_of key (Messages.rows s')
  = if Messages.matches key m then Some m
    else Messages.row_of key (Messages.rows s).
Proof.
  unfold Messages.upsert. intros Hrun.
  destruct (upsert_error s m); [discriminate|].
  inversion Hrun; subst; clear Hrun. cbn [Messages.rows].
  destruct (existsb (Messages.matches (Messages.key_of m)) (Messages.rows s))
    eqn:Hex.
  - rewrite (row_of_replaced key _ m _ eq_refl).
    destruct (Messages.matches key m); [|reflexivity].
    apply existsb_exists in Hex. destruct Hex as (row & Hin & Hrow).
    unfold Messages.row_of.
    destruct (List.find _ _) eqn:Hfind; [reflexivity|].
    pose proof (List.find_none _ _ Hfind _ Hin). congruence.
  - unfold Messages.row_of. rewrite find_append.
    fold (Messages.row_of key (Messages.rows s)).
    destruct (Messages.matches key m) eqn:Hkey.
    + apply matches_key_of in Hkey. subst key.
      unfold Messages.row_of.
      destruct (List.find _ (Messages.rows s)) eqn:Hfind.
      * apply List.find_some in Hfind. destruct Hfind as [Hin Hrow].
        assert (existsb (Messages.matches (Messages.key_of m))
                  (Messages.rows s) = true) as Hyes
          by (apply existsb_exists; eexists; split; eassumption).
        congruence.
      * simpl.
        rewrite (proj2 (matches_key_of (Messages.key_of m) m) eq_refl).
        reflexivity.
    + destruct (Messages.row_of key (Messages.rows s)); [reflexivity|].
      simpl. rewrite Hkey. reflexivity.
Qed.

(** X23. A batch of messages is read in order and the last write wins.
    When [readMessages] fulfils, it has made one successful upsert per
    message, in the order of the batch, each under the channel name and
    message id of its message; afterwards the table holds, for every key,
    the last message of the batch with that key, and the row it held
    before when the batch has no message with that key. *)
Theorem readMessages_last_write_wins
    (messages : list Messages.Message) (s s' : Messages.Store)
    (results : list unit) :
  Messages.readMessages upsert_error messages s = (s', Fulfilled results) ->
  List.length results = List.length messages /\
  Messages.upserts s' =
    Messages.upserts s ++
    List.map (fun m => (m, Messages.key_of m, Succeeded)) messages /\
  forall key,
    Messages.row_of key (Messages.rows s') =
    match Messages.row_of key (List.rev messages) with
    | Some m => Some m
    | None => Messages.row_of key (Messages.rows s)
    end.
Proof.
  revert s s' results.
  induction messages as [|m rest IH]; intros s s' results Hrun.
  - inversion Hrun; subst. split; [reflexivity|].
    split; [symmetry; apply app_nil_r|]. intros key. reflexivity.
  - unfold Messages.readMessages in Hrun. cbn [Messages.mapSeries] in Hrun.
    fold (Messages.key_of m) in Hrun.
    destruct (Messages.upsert upsert_error m (Messages.key_of m) s)
      as [s1 [[]|e]] eqn:Hone; [|discriminate].
    fold (Messages.readMessages upsert_error rest) in Hrun.
    destruct (Messages.readMessages upsert_error rest s1)
      as [s2 [ys|e]] eqn:Hrest; [|discriminate].
    inversion Hrun; subst s' results.
    destruct (IH _ _ _ Hrest) as (Hlen & Hcalls & Hrows).
    split; [simpl; rewrite Hlen; reflexivity|]. split.
    + rewrite Hcalls. unfold Messages.upsert in Hone.
      destruct (upsert_error s m); [discriminate|].
      inversion Hone; subst. cbn [Messages.upserts List.map].
      rewrite <- app_assoc. reflexivity.
    + intros key. rewrite Hrows.
      cbn [List.rev]. unfold Messages.row_of at 3. rewrite find_append.
      fold (Messages.row_of key (List.rev rest)).
      destruct (Messages.row_of key (List.rev rest)); [reflexivity|].
      rewrite (row_of_upsert key _ _ _ Hone). simpl.
      destruct (Messages.matches key m); reflexivity.
Qed.

(** X24. A failed upsert stops the batch. When [readMessages] rejects,
    the upserts it has made are those of the first messages of the batch,
    in order; all but the last succeeded, the last failed with the error
    of the rejection, and no message after it was written. *)
Theorem readMessages_stops_at_failure
    (messages : list Messages.Message) (s s' : Messages.Store) (e : Err) :
  Messages.readMessages upsert_error messages s = (s', Rejected e) ->
  exists done m rest,
    messages = done ++ m :: rest /\
    Messages.upserts s' =
      Messages.upserts s ++
      List.map (fun m => (m, Messages.key_of m, Succeeded)) done ++
      [(m, Messages.key_of m, Failed e)] /\
    exists s1 results,
      Messages.readMessages upsert_error done s = (s1, Fulfilled results) /\
      Messages.rows s' = Messages.rows s1.
Proof.
  revert s s'.
  induction messages as [|m rest IH]; intros s s' Hrun; [discriminate|].
  unfold Messages.readMessages in Hrun. cbn [Messages.mapSeries] in Hrun.
  fold (Messages.key_of m) in Hrun.
  destruct (Messages.upsert upsert_error m (Messages.key_of m) s)
    as [s1 [[]|e1]] eqn:Hone.
  - fold (Messages.readMessages upsert_error rest) in Hrun.
    destruct (Messages.readMessages upsert_error rest s1)
      as [s2 [ys|e2]] eqn:Hrest; [discriminate|].
    inversion Hrun; subst s' e2.
    destruct (IH _ _ Hrest)
      as (done & failed & after & -> & Hcalls & s3 & results & Hdone & Hrows).
    exists (m :: done), failed, after. split; [reflexivity|]. split.
    + rewrite Hcalls. unfold Messages.upsert in Hone.
      destruct (upsert_error s m); [discriminate|].
      inversion Hone; subst. cbn [Messages.upserts List.map].
      rewrite <- !app_assoc. reflexivity.
    + exists s3, (tt :: results). split; [|exact Hrows].
      unfold Messages.readMessages. cbn [Messages.mapSeries].
      fold (Messages.key_of m). rewrite Hone.
      fold (Messages.readMessages upsert_error done). rewrite Hdone.
      reflexivity.
  - inversion Hrun; subst s' e1.
    exists [], m, rest. split; [reflexivity|].
    unfold Messages.upsert in Hone.
    destruct (upsert_error s m) as [e0|]; [|discriminate].
    inversion Hone; subst. cbn. split; [reflexivity|].
    exists s, []. split; reflexivity.
Qed.

End ReadingMessages.

(** ** Calls with missing arguments *)

(** X25. Missing arguments are turned down before anything happens.
    Without a channel name, or without the photos or the photo,
    [checkPhotosOut] and [mentalSnapshot] reject with the error
    [invalid arguments]; no call is made and the world is as it was. *)
Theorem invalid_arguments_rejected (env : Env) (this : Taste)
    (channelName : option string) (w : World) :
  (forall photos,
     JS.truthy_str channelName = false \/ photos = None ->
     checkPhotosOut env this channelName photos w
     = (w, Rejected (Error "invalid arguments"))) /\
  (forall photo,
     JS.truthy_str channelName = false \/ photo = None ->
     mentalSnapshot env this channelName photo w
     = (w, Rejected (Error "invalid arguments"))).
Proof.
  split.
  - intros photos [Hchannel| ->]; unfold checkPhotosOut.
    + rewrite Hchannel. reflexivity.
    + destruct (JS.truthy_str channelName); reflexivity.
  - intros photo [Hchannel| ->]; unfold mentalSnapshot.
    + rewrite Hchannel. reflexivity.
    + destruct (JS.truthy_str channelName); reflexivity.
Qed.

(** ** What a pass does not survive *)

Section Rejections.

Variable env : Env.
Variable this : Taste.

(** The callback of the indexing rejects only when deleting the object
    fails in its error handler. *)
Lemma indexFacesFromImage_rejected
    (image : string) (indexedFaces : nat) (w w' : World) (e : Err) :
  indexFacesFromImage env this image indexedFaces w = (w', Rejected e) ->
  exists before,
    events_since w w' = before ++ [event (DeleteObject image) (Failed e)].
Proof.
  intros Hrun.
  unfold indexFacesFromImage, Rekognition.indexFaces,
    Rekognition.deleteFaces, S3.deleteObject, Logger.warn in Hrun.
  unfold_promise.
  destruct (indexFaces_answer env w image) as [e0|[n|]];
    cbn [Rekognition.FaceRecords] in Hrun.
  2: destruct (negb _).
  all: repeat match type of Hrun with
              | context [deleteFaces_error env ?w0 ?ids] =>
                  destruct (deleteFaces_error env w0 ids)
              | context [deleteObject_error env ?w0 ?key] =>
                  destruct (deleteObject_error env w0 key)
              | context [invalid_image ?e] => destruct (invalid_image e)
              end;
    inversion Hrun; subst; clear Hrun.
  all: erewrite events_since_record
         by (simpl; repeat rewrite <- app_assoc; reflexivity).
  all: match goal with
       | |- exists before, ?l = _ =>
           exists (removelast l); reflexivity
       end.
Qed.

Lemma indexFacesFromImages_rejected (images : list string) :
  forall (indexedFaces : nat) (w w' : World) (e : Err),
    P.mapUpdating (indexFacesFromImage env this) images indexedFaces w
      = (w', Rejected e) ->
    exists image before,
      In image images /\
      events_since w w' = before ++ [event (DeleteObject image) (Failed e)].
Proof.
  induction images as [|image rest IH]; intros c w w' e Hrun;
    [discriminate|].
  simpl in Hrun. unfold P.andThen in Hrun.
  destruct (indexFacesFromImage env this image c w) as [w1 r1] eqn:Hstep.
  destruct (extends_indexFacesFromImage _ _ _ _ _ _ _ Hstep) as [evs1 H1].
  destruct r1 as [n|e1].
  - destruct (IH _ _ _ _ Hrun) as (image' & before & Hin & Hevents).
    exists image', (evs1 ++ before). split; [right; exact Hin|].
    assert (exists evs2, trace w' = trace w1 ++ evs2) as [evs2 H2].
    { eapply extends_mapUpdating; [|exact Hrun].
      intros. apply extends_indexFacesFromImage. }
    rewrite (events_since_record _ _ _ H2) in Hevents.
    rewrite (events_since_app _ _ _ _ _ H1 H2), Hevents.
    apply app_assoc.
  - injection Hrun as Hw He. subst w1 e1.
    destruct (indexFacesFromImage_rejected _ _ _ _ _ Hstep) as [before Hb].
    exists image, before. split; [left; reflexivity|exact Hb].
Qed.

(** X26. What a pass of the synchronizer does not survive. A pass
    rejects only with the error of a failed listing or of a failed
    [deleteObject]; so a pass in which these calls succeed fulfils,
    whatever [indexFaces] and [deleteFaces] answer. *)
Theorem sync_rejects_only_for (w w' : World) (r : Settled unit) :
  syncS3BucketAndRekognitionCollection env this w = (w', r) ->
  (forall e,
     r = Rejected e ->
     exists c, fatal_call c /\ In (event c (Failed e)) (events_since w w')) /\
  ((forall c e,
      fatal_call c -> ~ In (event c (Failed e)) (events_since w w')) ->
   r = Fulfilled tt).
Proof.
  intros Hrun.
  assert (forall e,
            r = Rejected e ->
            exists c,
              fatal_call c /\ In (event c (Failed e)) (events_since w w'))
    as Hfatal.
  { intros e ->.
    unfold syncS3BucketAndRekognitionCollection in Hrun.
    unfold P.andThen at 1 in Hrun. unfold P.props2 at 1 in Hrun.
    unfold Rekognition.listFaces, S3.listObjects in Hrun.
    destruct (listFaces_error env w) as [e1|];
      match type of Hrun with
      | context [listObjects_error env ?w0 "train"] =>
          destruct (listObjects_error env w0 "train") as [e2|]
      end.
    1-3: inversion Hrun; subst;
      erewrite events_since_record
        by (simpl; repeat rewrite <- app_assoc; reflexivity).
    - exists ListFaces. split; [exact I|left; reflexivity].
    - exists ListFaces. split; [exact I|left; reflexivity].
    - exists (ListObjects "train"). split; [exact I|right; left; reflexivity].
    - cbn [fst snd Rekognition.Faces objects record] in Hrun.
      fold (trainingImages w) in Hrun.
      unfold P.andThen at 1 in Hrun. unfold P.props2 at 1 in Hrun.
      destruct (deleteFaces env this
                  (facesToDelete (faces w) (trainingImages w))
                  (record (ListObjects "train") Succeeded
                     (record ListFaces Succeeded w)))
        as [wc rc] eqn:Hdelete.
      destruct (indexFacesFromImages env this
                  (imagesToIndex (faces w) (trainingImages w)) wc)
        as [wd rd] eqn:Hindex.
      assert (exists evs, trace wc = trace w ++ evs) as [evs Hevs].
      { destruct (deleteFaces_run _ _ _ _ _ _ Hdelete)
          as [[-> _]|(e0 & -> & _)]; eexists; simpl;
          repeat rewrite <- app_assoc; reflexivity. }
      destruct (deleteFaces_run _ _ _ _ _ _ Hdelete)
        as [[_ ->]|(e0 & _ & ->)];
        (destruct rd as [indexed|e']; unfold Logger.debug in Hrun;
         inversion Hrun; subst; clear Hrun;
         unfold indexFacesFromImages in Hindex;
         destruct (indexFacesFromImages_rejected _ _ _ _ _ Hindex)
           as (image & before & _ & Hb);
         exists (DeleteObject image); split; [exact I|];
         assert (exists evs2, trace w' = trace wc ++ evs2) as [evs2 H2]
           by (eapply extends_mapUpdating; [|exact Hindex];
               intros; apply extends_indexFacesFromImage);
         rewrite (events_since_record _ _ _ H2) in Hb;
         rewrite (events_since_app _ _ _ _ _ Hevs H2), Hb;
         apply in_or_app; right; apply in_or_app; right; left; reflexivity). }
  split; [exact Hfatal|].
  intros Hnone. destruct r as [[]|e]; [reflexivity|].
  destruct (Hfatal e eq_refl) as (c & Hc & Hin).
  exfalso. exact (Hnone c e Hc Hin).
Qed.

(** X27. What the acquisition does not survive. [acquireTaste] rejects
    only with the error of a failed [copyObject] or of a failed
    [deleteObject], or because a photo of the batch is missing; failed
    [indexFaces] and [deleteFaces] calls are logged or handled. *)
Theorem acquireTaste_rejects_only_for (photos : list nat) (w w' : World)
    (e : Err) :
  acquireTaste env this photos w = (w', Rejected e) ->
  (exists photo, In photo photos /\ heap w !! photo = None) \/
  (exists src dst,
     In (event (CopyObject src dst) (Failed e)) (events_since w w')) \/
  (exists image,
     In (event (DeleteObject image) (Failed e)) (events_since w w')).
Proof.
  intros Hrun.
  destruct (acquireTaste_phases _ _ _ _ _ _ Hrun)
    as (w1 & r1 & Hcopies & Hend).
  destruct (acquireTaste_copies _ _ _ _ _ _ Hcopies)
    as (_ & _ & _ & evs1 & Ht1 & _ & Hr1).
  destruct r1 as [images|e1].
  - destruct Hend as (wd & rd & Hindex & Hend).
    destruct rd as [indexed|e']; destruct Hend as [-> Hr];
      [discriminate Hr|]. inversion Hr; subst e'.
    right. right. unfold indexFacesFromImages in Hindex.
    destruct (indexFacesFromImages_rejected _ _ _ _ _ Hindex)
      as (image & before & _ & Hb).
    exists image.
    assert (exists evs2, trace wd = trace w1 ++ evs2) as [evs2 H2]
      by (eapply extends_mapUpdating; [|exact Hindex];
          intros; apply extends_indexFacesFromImage).
    rewrite (events_since_record _ _ _ H2) in Hb.
    rewrite (events_since_app _ _ _ _ _ Ht1 H2), Hb.
    apply in_or_app. right. apply in_or_app. right. left. reflexivity.
  - destruct Hend as [-> Hr]. inversion Hr; subst e1.
    destruct Hr1 as [(_ & photo & Hin & Hnone)|(src & dst & Hin)].
    + left. exists photo. split; assumption.
    + right. left. exists src, dst.
      rewrite (events_since_record _ _ _ Ht1). exact Hin.
Qed.

End Rejections.

(** ** The debug line of a batch *)

Section DebugLineOfABatch.

Variable env : Env.
Variable this : Taste.

Lemma notCheckedOut_run (photos : list nat) :
  forall (w w' : World) (pending : list nat),
    notCheckedOut photos w = (w', Fulfilled pending) ->
    w' = w /\ pending = notCheckedOutPhotos w photos.
Proof.
  induction photos as [|photo rest IH]; intros w w' pending Hrun.
  - inversion Hrun. split; reflexivity.
  - simpl in Hrun. unfold Heap.read in Hrun. unfold_promise.
    unfold notCheckedOutPhotos. cbn [List.filter].
    destruct (heap w !! photo) as [p|]; [|discriminate Hrun].
    destruct (notCheckedOut rest w) as [w1 [others|e]] eqn:Hrest;
      [|discriminate Hrun].
    destruct (IH _ _ _ Hrest) as [-> ->].
    inversion Hrun; subst. split; [reflexivity|].
    destruct (JS.truthy_str (similarity_date p)); reflexivity.
Qed.

Lemma checkPhotoOut_no_debug_line channelName photo :
  emits no_debug_line (checkPhotoOut env this channelName photo).
Proof.
  unfold checkPhotoOut. emits_all.
  all: try (apply emits_compareFacesFromImage; intros; exact I).
  all: try (apply emits_savePhoto; intros; try exact I; discriminate).
Qed.

Lemma findOrCreateNewSettings_no_debug_line :
  emits no_debug_line (findOrCreateNewSettings env).
Proof. unfold findOrCreateNewSettings. emits_all. Qed.

(** X28. The debug line of a batch counts the photos that were not
    checked out when the batch came in. A [checkPhotosOut] that fulfils
    has logged [Compared n photo(s)] once, as its last event, where [n] is
    the number of photos of the batch that had no [similarity_date] at the
    start, whether their check-out worked or not; when there was no such
    photo it has logged no debug line at all. *)
Theorem checkPhotosOut_compared_count
    (channelName : option string) (photos : list nat)
    (w w' : World) (out : CheckedOut) :
  checkPhotosOut env this channelName (Some photos) w
    = (w', Fulfilled out) ->
  exists before,
    Forall no_debug_line before /\
    events_since w w' =
      before ++
      match notCheckedOutPhotos w photos with
      | [] => []
      | pending =>
          [event (LogDebug (MsgCompared (List.length pending))) Succeeded]
      end.
Proof.
  intros Hrun. unfold checkPhotosOut in Hrun.
  destruct (JS.truthy_str channelName); [|discriminate Hrun].
  unfold P.andThen at 1 in Hrun.
  destruct (notCheckedOut photos w) as [w1 [pending|e]] eqn:Hpending;
    [|discriminate Hrun].
  destruct (notCheckedOut_run _ _ _ _ Hpending) as [-> ->].
  unfold P.andThen at 1 in Hrun.
  destruct (P.map (checkPhotoOut env this channelName) photos w)
    as [w2 [similarities|e]] eqn:Hmap; [|discriminate Hrun].
  destruct (emits_map _ _ _ (checkPhotoOut_no_debug_line channelName)
              _ _ _ Hmap) as (evs1 & H1 & Hall1).
  unfold P.andThen at 1 in Hrun.
  destruct (findOrCreateNewSettings env w2) as [w3 [s|e]] eqn:Hsettings;
    [|discriminate Hrun].
  destruct (findOrCreateNewSettings_no_debug_line _ _ _ Hsettings)
    as (evs2 & H2 & Hall2).
  exists (evs1 ++ evs2). split; [apply List.Forall_app; split; assumption|].
  destruct (notCheckedOutPhotos w photos) as [|photo rest];
    unfold Logger.debug in Hrun; unfold_promise; inversion Hrun; subst;
    apply events_since_record; simpl; rewrite H2, H1;
    repeat rewrite <- app_assoc; rewrite ?app_nil_r; reflexivity.
Qed.

End DebugLineOfABatch.

(** ** One indexing call per image *)

Section OneCallPerImage.

Variable env : Env.
Variable this : Taste.

Lemma indexed_images_app (evs1 evs2 : list Event) :
  indexed_images (evs1 ++ evs2) = indexed_images evs1 ++ indexed_images evs2.
Proof. unfold indexed_images. apply List.flat_map_app. Qed.

Lemma indexFacesFromImage_one_call
    (image : string) (indexedFaces : nat) (w w' : World) (r : Settled nat) :
  indexFacesFromImage env this image indexedFaces w = (w', r) ->
  indexed_images (events_since w w') = [image] /\
  forall n, r = Fulfilled n -> n = indexedFaces \/ n = S indexedFaces.
Proof.
  intros Hrun.
  unfold indexFacesFromImage, Rekognition.indexFaces,
    Rekognition.deleteFaces, S3.deleteObject, Logger.warn in Hrun.
  unfold_promise.
  destruct (indexFaces_answer env w image) as [e0|[n|]];
    cbn [Rekognition.FaceRecords] in Hrun.
  2: destruct (negb _).
  all: repeat match type of Hrun with
              | context [deleteFaces_error env ?w0 ?ids] =>
                  destruct (deleteFaces_error env w0 ids)
              | context [deleteObject_error env ?w0 ?key] =>
                  destruct (deleteObject_error env w0 key)
              | context [invalid_image ?e] => destruct (invalid_image e)
              end;
    inversion Hrun; subst; clear Hrun.
  all: erewrite events_since_record
         by (simpl; repeat rewrite <- app_assoc; reflexivity).
  all: split; [reflexivity|]; intros k Hk; inversion Hk; auto.
Qed.

(** X29. One indexing call per image. A run of [indexFacesFromImages]
    that fulfils has called [indexFaces] once for every image it was
    given and for no other image: the images of its [indexFaces] calls are
    the images it was given, each as often as it was given, in some order
    (the order is that of the schedule and is not stated). The number of
    indexed faces it returns is at most the number of images. *)
Theorem indexFacesFromImages_one_call_per_image
    (images : list string) (w w' : World) (indexed : nat) :
  indexFacesFromImages env this images w = (w', Fulfilled indexed) ->
  Permutation (indexed_images (events_since w w')) images /\
  (indexed <= List.length images)%nat.
Proof.
  unfold indexFacesFromImages.
  assert (forall c w0 w1 n,
            P.mapUpdating (indexFacesFromImage env this) images c w0
              = (w1, Fulfilled n) ->
            indexed_images (events_since w0 w1) = images /\
            (c <= n <= c + List.length images)%nat) as Hloop.
  { induction images as [|image rest IH]; intros c w0 w1 n Hrun.
    - inversion Hrun; subst. unfold events_since. rewrite drop_all.
      split; [reflexivity|]. simpl. lia.
    - simpl in Hrun. unfold P.andThen in Hrun.
      destruct (indexFacesFromImage env this image c w0) as [wa ra] eqn:Hstep.
      destruct (extends_indexFacesFromImage _ _ _ _ _ _ _ Hstep)
        as [evs1 H1].
      destruct (indexFacesFromImage_one_call _ _ _ _ _ Hstep)
        as [Hone Hcount].
      destruct ra as [k|e]; [|discriminate Hrun].
      assert (exists evs2, trace w1 = trace wa ++ evs2) as [evs2 H2].
      { eapply extends_mapUpdating; [|exact Hrun].
        intros. apply extends_indexFacesFromImage. }
      destruct (IH _ _ _ _ Hrun) as [Hrest Hbound].
      rewrite (events_since_app _ _ _ _ _ H1 H2), indexed_images_app.
      rewrite (events_since_record _ _ _ H1) in Hone.
      rewrite (events_since_record _ _ _ H2) in Hrest.
      rewrite Hone, Hrest. split; [reflexivity|].
      destruct (Hcount k eq_refl) as [-> | ->]; simpl; lia. }
  intros Hrun. destruct (Hloop _ _ _ _ Hrun) as [Himages Hbound].
  split; [rewrite Himages; reflexivity|]. lia.
Qed.

End OneCallPerImage.

(** ** A batch that is checked out twice *)

Section CheckedOutTwice.

Variable env : Env.
Variable this : Taste.

Hypothesis clock_prints :
  forall w, toISOString_now env w <> EmptyString.

Lemma clock_truthy (w : World) :
  JS.truthy_str (Some (toISOString_now env w)) = true.
Proof.
  pose proof (clock_prints w) as H. simpl.
  destruct (toISOString_now env w); [contradiction|reflexivity].
Qed.

(** What [checkPhotoOut] does to the heap: it writes to its own photo
    only, leaves a photo that is checked out alone, and a photo for which
    it fulfils with a number is checked out with that number. *)
Lemma checkPhotoOut_settles
    (channelName : option string) (photo : nat) (w w' : World)
    (r : Settled jsval) :
  checkPhotoOut env this channelName photo w = (w', r) ->
  (forall other, other <> photo -> heap w' !! other = heap w !! other) /\
  (forall p,
     heap w !! photo = Some p ->
     JS.truthy_str (similarity_date p) = true -> heap w' = heap w) /\
  (forall v,
     r = Fulfilled v -> (exists score, v = JNum score) ->
     checked_out_with w' photo v).
Proof.
  intros Hrun. unfold checkPhotoOut, Heap.read in Hrun.
  unfold P.andThen at 1 in Hrun.
  destruct (heap w !! photo) as [p|] eqn:Hp.
  2: { inversion Hrun; subst. split; [reflexivity|].
       split; [reflexivity|discriminate]. }
  assert (photo < List.length (heap w))%nat as Hlt
    by (eapply lookup_lt_Some; exact Hp).
  destruct (JS.truthy_str (similarity_date p)) eqn:Hdate.
  { inversion Hrun; subst. split; [reflexivity|].
    split; [reflexivity|]. intros v Hv _. inversion Hv; subst.
    exists p. repeat split; assumption. }
  split; [|split; [intros q Hq Hchecked; congruence|]];
    unfold P.catch in Hrun; unfold P.andThen at 1 in Hrun;
    destruct (savePhoto env this channelName (Some photo) no_options w)
      as [w1 r1] eqn:Hsave.
  all: assert (exists p1,
                 heap w1 !! photo = Some p1 /\
                 forall other,
                   other <> photo -> heap w1 !! other = heap w !! other)
         as (p1 & Hp1 & Hothers1).
  1,3: destruct (JS.truthy_str channelName) eqn:Hchannel;
    [pose proof (savePhoto_run env this channelName photo p no_options
                   w w1 r1 Hp Hchannel Hsave) as Hsaved;
     cbv zeta in Hsaved; destruct r1 as [content|e];
     [destruct Hsaved as (_ & _ & _ & _ & Hheap & _); rewrite Hheap;
      eexists; split; [apply list_lookup_insert_eq; exact Hlt|];
      intros other Hother; apply list_lookup_insert_ne; congruence
     |destruct Hsaved as (Hheap & _); rewrite Hheap; exists p;
      split; [exact Hp|reflexivity]]
    |unfold savePhoto in Hsave; rewrite Hchannel in Hsave;
     inversion Hsave; subst; exists p; split; [exact Hp|reflexivity]].
  all: assert (photo < List.length (heap w1))%nat as Hlt1
         by (eapply lookup_lt_Some; exact Hp1).
  all: destruct r1 as [image|e];
    [destruct (compareFacesFromImage env this photo image w1) as [w2 r2]
       eqn:Hcompare;
     destruct (compareFacesFromImage_run env this photo p1 image w1 w2 r2
                 Hp1 Hcompare) as (_ & _ & _ & _ & Hcases);
     destruct (searchFaces_answer env w1 image) as [e|matches];
     [destruct Hcases as [_ Hcases]; destruct (invalid_image e);
      [destruct Hcases as (clock & -> & Hheap)
      |destruct Hcases as [-> Hheap]; unfold Logger.warn in Hrun;
       unfold P.andThen, P.resolve in Hrun]
     |cbv zeta in Hcases; destruct Hcases as (clock & -> & Hheap & _)]
    |unfold Logger.warn in Hrun; unfold P.andThen, P.resolve in Hrun];
    inversion Hrun; subst; clear Hrun; cbn [heap record].
  (* the photos of the others *)
  1,3: intros other Hother; rewrite Hheap;
    rewrite list_lookup_insert_ne by congruence; apply Hothers1, Hother.
  1: intros other Hother; rewrite Hheap; apply Hothers1, Hother.
  1: exact Hothers1.
  (* the photo itself *)
  1,3: intros v Hv _; inversion Hv; subst; eexists;
    (split; [rewrite Hheap; apply list_lookup_insert_eq; exact Hlt1|]);
    split; [apply clock_truthy|reflexivity].
  all: intros v Hv [score ->]; discriminate Hv.
Qed.

Lemma checked_out_stays (channelName : option string) (photo other : nat)
    (v : jsval) (w w' : World) (r : Settled jsval) :
  checkPhotoOut env this channelName photo w = (w', r) ->
  checked_out_with w other v -> checked_out_with w' other v.
Proof.
  intros Hrun (q & Hq & Hdate & Hv).
  destruct (checkPhotoOut_settles _ _ _ _ _ Hrun) as (Hothers & Hchecked & _).
  exists q. split; [|split; assumption].
  destruct (Nat.eq_dec other photo) as [->|Hne].
  - rewrite (Hchecked q Hq Hdate). exact Hq.
  - rewrite (Hothers other Hne). exact Hq.
Qed.

Lemma map_checked_out_stays (channelName : option string)
    (photos : list nat) (other : nat) (v : jsval) :
  forall (w w' : World) (r : Settled (list jsval)),
    P.map (checkPhotoOut env this channelName) photos w = (w', r) ->
    checked_out_with w other v -> checked_out_with w' other v.
Proof.
  induction photos as [|photo rest IH]; intros w w' r Hrun Hchecked.
  - inversion Hrun; subst. exact Hchecked.
  - simpl in Hrun. unfold P.andThen at 1 in Hrun.
    destruct (checkPhotoOut env this channelName photo w) as [wa ra]
      eqn:Hstep.
    pose proof (checked_out_stays _ _ _ _ _ _ _ Hstep Hchecked) as Ha.
    destruct ra as [y|e]; [|inversion Hrun; subst; exact Ha].
    unfold P.andThen at 1 in Hrun.
    destruct (P.map (checkPhotoOut env this channelName) rest wa)
      as [wb rb] eqn:Hrest.
    pose proof (IH _ _ _ Hrest Ha) as Hb.
    destruct rb; inversion Hrun; subst; exact Hb.
Qed.

Lemma map_checkPhotoOut_checks_out (channelName : option string)
    (photos : list nat) :
  forall (w w' : World) (similarities : list jsval),
    P.map (checkPhotoOut env this channelName) photos w
      = (w', Fulfilled similarities) ->
    (forall v, In v similarities -> exists score, v = JNum score) ->
    Forall2 (checked_out_with w') photos similarities.
Proof.
  induction photos as [|photo rest IH]; intros w w' similarities Hrun Hall.
  - inversion Hrun; subst. constructor.
  - simpl in Hrun. unfold P.andThen at 1 in Hrun.
    destruct (checkPhotoOut env this channelName photo w) as [wa [y|e]]
      eqn:Hstep; [|discriminate Hrun].
    unfold P.andThen at 1 in Hrun.
    destruct (P.map (checkPhotoOut env this channelName) rest wa)
      as [wb [ys|e]] eqn:Hrest; [|discriminate Hrun].
    inversion Hrun; subst. constructor.
    + eapply map_checked_out_stays; [exact Hrest|].
      destruct (checkPhotoOut_settles _ _ _ _ _ Hstep) as (_ & _ & Hown).
      apply Hown; [reflexivity|]. apply Hall. left. reflexivity.
    + eapply IH; [exact Hrest|]. intros v Hv. apply Hall. right. exact Hv.
Qed.

Lemma checked_out_with_same (w : World) (photos : list nat)
    (a b : list jsval) :
  Forall2 (checked_out_with w) photos a ->
  Forall2 (checked_out_with w) photos b -> a = b.
Proof.
  intros Ha. revert b. induction Ha as [|photo v photos vs Hv _ IH];
    intros b Hb; inversion Hb as [|? v' ? vs' Hv' Hvs']; subst;
    [reflexivity|].
  f_equal; [|apply IH; exact Hvs'].
  destruct Hv as (p & Hp & _ & ->). destruct Hv' as (p' & Hp' & _ & ->).
  congruence.
Qed.

Lemma findOrCreateNewSettings_keeps_heap :
  keeps heap (findOrCreateNewSettings env).
Proof. unfold findOrCreateNewSettings. keeps_all. Qed.

(** X30. A batch that was checked out is free the second time. When
    [checkPhotosOut] has fulfilled for a batch that names no photo twice,
    and every entry of its similarity list is a number - no check-out
    failed, which would have left the string that [Logger.warn] resolves
    with in the list - checking the same batch out again makes no call but
    those to the settings table, changes no photo record, and returns the
    same similarity list. *)
Theorem checkPhotosOut_again
    (channelName : option string) (photos : list nat)
    (w w1 w2 : World) (out : CheckedOut) (r : Settled CheckedOut) :
  List.NoDup photos ->
  checkPhotosOut env this channelName (Some photos) w
    = (w1, Fulfilled out) ->
  (forall v, In v (faceSimilarities out) -> exists score, v = JNum score) ->
  checkPhotosOut env this channelName (Some photos) w1 = (w2, r) ->
  Forall settings_call (events_since w1 w2) /\
  heap w2 = heap w1 /\
  forall again,
    r = Fulfilled again -> faceSimilarities again = faceSimilarities out.
Proof.
  intros _ Hfirst Hscored Hsecond.
  assert (Forall2 (checked_out_with w1) photos (faceSimilarities out))
    as Hchecked.
  { unfold checkPhotosOut in Hfirst.
    destruct (JS.truthy_str channelName); [|discriminate Hfirst].
    unfold P.andThen at 1 in Hfirst.
    destruct (notCheckedOut photos w) as [wa [pending|e]] eqn:Hpending;
      [|discriminate Hfirst].
    destruct (notCheckedOut_run _ _ _ _ Hpending) as [-> _].
    unfold P.andThen at 1 in Hfirst.
    destruct (P.map (checkPhotoOut env this channelName) photos w)
      as [wb [similarities|e]] eqn:Hmap; [|discriminate Hfirst].
    unfold P.andThen at 1 in Hfirst.
    destruct (findOrCreateNewSettings env wb) as [wc [s|e]] eqn:Hsettings;
      [|discriminate Hfirst].
    assert (heap wc = heap wb) as Hheap.
    { exact (findOrCreateNewSettings_keeps_heap _ _ _ Hsettings). }
    assert (heap w1 = heap wb /\ faceSimilarities out = similarities)
      as [Hheap1 Hsims].
    { destruct pending; unfold Logger.debug in Hfirst; unfold_promise;
        inversion Hfirst; subst; split; try reflexivity; exact Hheap. }
    rewrite Hsims in *.
    pose proof (map_checkPhotoOut_checks_out _ _ _ _ _ Hmap Hscored) as Hall.
    clear - Hall Hheap1.
    induction Hall as [|photo v photos vs Hv _ IH]; constructor;
      [|exact IH].
    destruct Hv as (p & Hp & Hrest). exists p.
    split; [rewrite Hheap1; exact Hp|exact Hrest]. }
  assert (forall photo,
            In photo photos -> exists v, checked_out_with w1 photo v)
    as Hall.
  { clear - Hchecked. induction Hchecked as [|photo v photos vs Hv _ IH];
      intros x Hx; [destruct Hx|].
    destruct Hx as [<-|Hx]; [exists v; exact Hv|apply IH; exact Hx]. }
  unfold checkPhotosOut in Hsecond.
  destruct (JS.truthy_str channelName) eqn:Hchannel.
  2: { unfold checkPhotosOut in Hfirst. rewrite Hchannel in Hfirst.
       discriminate Hfirst. }
  unfold P.andThen at 1 in Hsecond.
  rewrite (notCheckedOut_none _ _ Hall) in Hsecond.
  unfold P.andThen at 1 in Hsecond.
  destruct (map_checkPhotoOut_checked_out env this channelName photos w1 Hall)
    as (similarities & Hmap & Hsims).
  rewrite Hmap in Hsecond.
  assert (similarities = faceSimilarities out) as ->
    by (eapply checked_out_with_same; eassumption).
  unfold findOrCreateNewSettings, Database.settings_findById,
    Database.settings_create in Hsecond.
  unfold_promise.
  destruct (settings_error env w1) as [e|].
  { inversion Hsecond; subst. simpl.
    split; [erewrite events_since_record by reflexivity;
            repeat constructor|].
    split; [reflexivity|discriminate]. }
  destruct (settings w1) as [s|].
  { inversion Hsecond; subst. simpl.
    split; [erewrite events_since_record by reflexivity;
            repeat constructor|].
    split; [reflexivity|].
    intros again Hagain. inversion Hagain; subst. reflexivity. }
  match type of Hsecond with
  | context [settings_error env ?w0] => destruct (settings_error env w0)
  end; inversion Hsecond; subst; simpl.
  all: split;
    [erewrite events_since_record
       by (simpl; rewrite <- ?app_assoc; reflexivity);
     repeat constructor|].
  all: split; [reflexivity|]; try discriminate.
  intros again Hagain. inversion Hagain; subst. reflexivity.
Qed.

End CheckedOutTwice.

(** ** The further properties at work *)


Lemma checkPhotoOut_outcomes_example :
  exists v,
    snd (checkPhotoOut
           (Sample.env Sample.faces_by_name (inr [72%Q; 91%Q])) Sample.taste
           (Some "tinder") 0 Sample.candidates)
    = Fulfilled v.
Proof.
  set (run := checkPhotoOut
                (Sample.env Sample.faces_by_name (inr [72%Q; 91%Q]))
                Sample.taste (Some "tinder") 0 Sample.candidates).
  destruct (checkPhotoOut_outcomes _ _ _ _ _ _ (fst run) (snd run)
              (eq_refl : heap Sample.candidates !! 0%nat
                         = Some (Sample.unchecked
                                   "https://images.example.com/cache/images/abc/1.jpg"))
              eq_refl (surjective_pairing run))
    as (v & _ & Hr & _).
  exists v. exact Hr.
Defined.

Lemma checkPhotosOut_checked_out_batch_example :
  heap (fst (checkPhotosOut
               (Sample.env Sample.faces_by_name (inr [])) Sample.taste
               (Some "tinder") (Some [0; 1]%nat) (Sample.scored 90 80 84)))
  = heap (Sample.scored 90 80 84).
Proof.
  set (run := checkPhotosOut
                (Sample.env Sample.faces_by_name (inr [])) Sample.taste
                (Some "tinder") (Some [0; 1]%nat) (Sample.scored 90 80 84)).
  apply (checkPhotosOut_checked_out_batch
           (Sample.env Sample.faces_by_name (inr [])) Sample.taste
           (Some "tinder") [0; 1]%nat (Sample.scored 90 80 84)
           (fst run) (snd run) eq_refl).
  - intros photo [<-|[<-|[]]]; eexists; eexists;
      (split; [reflexivity|]); split; reflexivity.
  - apply surjective_pairing.
Defined.

Lemma checkPhotosOut_frame_example :
  faces (fst (checkPhotosOut
                (Sample.env Sample.faces_by_name (inr [72%Q; 91%Q]))
                Sample.taste (Some "tinder") (Some [0; 1]%nat)
                Sample.candidates))
  = faces Sample.candidates.
Proof.
  set (run := checkPhotosOut
                (Sample.env Sample.faces_by_name (inr [72%Q; 91%Q]))
                Sample.taste (Some "tinder") (Some [0; 1]%nat)
                Sample.candidates).
  apply (checkPhotosOut_frame _ _ _ _ _ (fst run) (snd run)
           (surjective_pairing run)).
Defined.

Lemma checkPhotosOut_empty_batch_example :
  exists w' out,
    checkPhotosOut (Sample.env Sample.faces_by_name (inr [])) Sample.taste
      (Some "tinder") (Some []) Sample.candidates
    = (w', Fulfilled out) /\
    like out = false /\ faceSimilarityMean out = JNum 0.
Proof.
  set (run := checkPhotosOut
                (Sample.env Sample.faces_by_name (inr [])) Sample.taste
                (Some "tinder") (Some []) Sample.candidates).
  destruct (snd run) as [out|e] eqn:Hr; [|vm_compute in Hr; discriminate Hr].
  assert (run = (fst run, Fulfilled out)) as Hrun
    by (rewrite <- Hr; apply surjective_pairing).
  exists (fst run), out. split; [exact Hrun|].
  rewrite (checkPhotosOut_empty_batch _ _ _ _ _ _ Hrun).
  split; reflexivity.
Defined.

Lemma findOrCreateNewSettings_finds_or_creates_example :
  settings (fst (findOrCreateNewSettings
                   (Sample.env Sample.faces_by_name (inr []))
                   Sample.training))
  = Some {| likePhotosThreshold := 80 |}.
Proof.
  set (run := findOrCreateNewSettings
                (Sample.env Sample.faces_by_name (inr [])) Sample.training).
  apply (proj1 (findOrCreateNewSettings_finds_or_creates _ _ (fst run)
                  (snd run) (surjective_pairing run))
           {| likePhotosThreshold := 80 |}).
  reflexivity.
Defined.

Lemma sync_frame_example :
  In ("photos/tinder/abc/1.jpg", Sample.jpeg)
    (objects (fst (syncS3BucketAndRekognitionCollection
                     (Sample.env Sample.faces_by_name (inr [])) Sample.taste
                     Sample.training))).
Proof.
  set (run := syncS3BucketAndRekognitionCollection
                (Sample.env Sample.faces_by_name (inr [])) Sample.taste
                Sample.training).
  destruct (sync_frame _ _ _ (fst run) (snd run) (surjective_pairing run))
    as (_ & _ & _ & _ & _ & Houtside).
  apply Houtside; [|reflexivity].
  right. right. right. left. reflexivity.
Defined.

Lemma facesToDelete_exact_example :
  In 0%nat
    (facesToDelete (faces Sample.training) (trainingImages Sample.training)).
Proof.
  destruct (facesToDelete_exact (faces Sample.training)
              (trainingImages Sample.training)
              (wf_ids _ training_well_formed)) as (Hgone & _).
  apply Hgone.
  exists {| FaceId := 0; ExternalImageId := "train/tinder/gone.jpg" |}.
  split; [left; reflexivity|]. split; [reflexivity|].
  intros [H|[H|[H|[]]]]; discriminate H.
Defined.

Lemma sync_keeps_known_faces_example :
  In {| FaceId := 1; ExternalImageId := "train/tinder/kept.jpg" |}
    (faces (fst (syncS3BucketAndRekognitionCollection
                   (Sample.env Sample.faces_by_name (inr [])) Sample.taste
                   Sample.training))).
Proof.
  set (run := syncS3BucketAndRekognitionCollection
                (Sample.env Sample.faces_by_name (inr [])) Sample.taste
                Sample.training).
  destruct (sync_keeps_known_faces _ _ _ (fst run) (snd run)
              training_well_formed (surjective_pairing run)) as [Hkept _].
  apply Hkept; [right|]; left; reflexivity.
Defined.

Lemma sync_log_is_accurate_example :
  snd (syncS3BucketAndRekognitionCollection
         (Sample.env Sample.faces_by_name (inr [])) Sample.taste
         Sample.training)
  = Fulfilled tt.
Proof.
  set (run := syncS3BucketAndRekognitionCollection
                (Sample.env Sample.faces_by_name (inr [])) Sample.taste
                Sample.training).
  apply (sync_log_is_accurate _ _ _ (fst run) (snd run)
           training_well_formed (surjective_pairing run)).
  reflexivity.
Defined.

Lemma acquireTaste_failed_copy_example :
  faces (fst (acquireTaste
                (Scenario.copies_fail
                   (Sample.env Sample.faces_by_name (inr [])))
                Sample.taste [0%nat] Sample.liked))
  = faces Sample.liked.
Proof.
  set (run := acquireTaste
                (Scenario.copies_fail
                   (Sample.env Sample.faces_by_name (inr [])))
                Sample.taste [0%nat] Sample.liked).
  apply (acquireTaste_failed_copy _ _ _ _ (fst run) (snd run)
           "/bucket/photos/channel123/abc.jpg" "train/channel123/abc.jpg"
           Sample.throttled (surjective_pairing run)).
  left. reflexivity.
Defined.

Lemma acquireTaste_frame_example :
  heap (fst (acquireTaste (Sample.env Sample.faces_by_name (inr []))
               Sample.taste [0%nat] Sample.liked))
  = heap Sample.liked.
Proof.
  set (run := acquireTaste (Sample.env Sample.faces_by_name (inr []))
                Sample.taste [0%nat] Sample.liked).
  apply (acquireTaste_frame (Sample.env Sample.faces_by_name (inr []))
           Sample.taste [0%nat] Sample.liked (fst run) (snd run)
           (List.Forall_nil _) (surjective_pairing run)).
Defined.

Lemma acquireTaste_log_is_accurate_example :
  snd (acquireTaste (Sample.env (fun _ => inr (Some 1%nat)) (inr []))
         Sample.taste [0%nat] Sample.liked)
  = Fulfilled tt.
Proof.
  set (run := acquireTaste (Sample.env (fun _ => inr (Some 1%nat)) (inr []))
                Sample.taste [0%nat] Sample.liked).
  apply (acquireTaste_log_is_accurate
           (Sample.env (fun _ => inr (Some 1%nat)) (inr [])) Sample.taste
           [0%nat] Sample.liked (fst run) (snd run)
           (List.Forall_nil _) (surjective_pairing run) eq_refl).
  intros photo [<-|[]]. eexists. reflexivity.
Defined.

Lemma savePhoto_again_example :
  heap (fst (savePhoto (Sample.env Sample.faces_by_name (inr []))
               Sample.taste (Some "tinder") (Some 0%nat) no_options
               (fst (savePhoto (Sample.env Sample.faces_by_name (inr []))
                       Sample.taste (Some "tinder") (Some 0%nat) no_options
                       Sample.candidates))))
  = heap (fst (savePhoto (Sample.env Sample.faces_by_name (inr []))
                 Sample.taste (Some "tinder") (Some 0%nat) no_options
                 Sample.candidates)).
Proof.
  set (once := savePhoto (Sample.env Sample.faces_by_name (inr []))
                 Sample.taste (Some "tinder") (Some 0%nat) no_options
                 Sample.candidates).
  set (twice := savePhoto (Sample.env Sample.faces_by_name (inr []))
                  Sample.taste (Some "tinder") (Some 0%nat) no_options
                  (fst once)).
  apply (savePhoto_again (Sample.env Sample.faces_by_name (inr []))
           Sample.taste (Some "tinder") 0
           (Sample.unchecked
              "https://images.example.com/cache/images/abc/1.jpg")
           Sample.candidates (fst once) (fst twice) Sample.jpeg Sample.jpeg);
    reflexivity.
Defined.

Lemma savePhoto_pathname_renamed_example :
  savePhoto_pathname Sample.taste (Some "tinder")
    (Sample.parse "https://images.example.com/cache/images/abc/1.jpg")
    thumbnail_options
  = "abc/84x84_1.jpg".
Proof.
  apply (proj1 (savePhoto_pathname_renamed Sample.taste (Some "tinder")
                  (Sample.parse
                     "https://images.example.com/cache/images/abc/1.jpg")
                  (Some (84, 84)%nat) "84x84_")
           "abc" "1.jpg");
    reflexivity.
Defined.

Lemma acquireTaste_outside_bucket_example :
  trainingKey Sample.taste "/cache/images/abc/1.jpg"
  = "/cache/images/abc/1.jpg".
Proof.
  set (run := acquireTaste_copy (Sample.env Sample.faces_by_name (inr []))
                Sample.taste 0 Sample.candidates).
  apply (acquireTaste_outside_bucket
           (Sample.env Sample.faces_by_name (inr [])) Sample.taste 0
           (Sample.unchecked
              "https://images.example.com/cache/images/abc/1.jpg")
           Sample.candidates (fst run) (snd run) eq_refl eq_refl
           (surjective_pairing run)).
Defined.

Lemma createRekognitionCollectionIfNeeded_ensures_example :
  Bootstrap._rekognitionCollection
    (Bootstrap.names
       (fst (Bootstrap.createRekognitionCollectionIfNeeded Scenario.services
               (Scenario.account None None
                  ["faces-of-others"; "get-me-a-date-1-2"] []))))
  = Some "get-me-a-date-1-2".
Proof.
  set (a := Scenario.account None None
              ["faces-of-others"; "get-me-a-date-1-2"] []).
  set (run := Bootstrap.createRekognitionCollectionIfNeeded
                Scenario.services a).
  destruct (createRekognitionCollectionIfNeeded_ensures Scenario.services a
              (fst run) eq_refl)
    as (name & Hname & _ & _ & _ & _ & Hfound & _).
  rewrite Hname. f_equal. apply (Hfound eq_refl).
Defined.

Lemma createS3BucketIfNeeded_ensures_example :
  Bootstrap._s3Bucket
    (Bootstrap.names
       (fst (Bootstrap.createS3BucketIfNeeded Scenario.services
               (Scenario.account None None [] ["backups"]))))
  = Some "get-me-a-date-1500-7".
Proof.
  set (a := Scenario.account None None [] ["backups"]).
  set (run := Bootstrap.createS3BucketIfNeeded Scenario.services a).
  destruct (createS3BucketIfNeeded_ensures Scenario.services a (fst run)
              eq_refl)
    as (name & Hname & _ & _ & _ & _ & Hfound & _).
  rewrite Hname. f_equal. apply (Hfound eq_refl).
Defined.

Lemma createRekognitionCollectionIfNeeded_again_example :
  Bootstrap.collections
    (fst (Bootstrap.createRekognitionCollectionIfNeeded Scenario.services
            (fst (Bootstrap.createRekognitionCollectionIfNeeded
                    Scenario.services
                    (Scenario.account None None [] [])))))
  = ["get-me-a-date-1500-7"].
Proof.
  set (a := Scenario.account None None [] []).
  set (once := Bootstrap.createRekognitionCollectionIfNeeded
                 Scenario.services a).
  set (twice := Bootstrap.createRekognitionCollectionIfNeeded
                  Scenario.services (fst once)).
  destruct (createRekognitionCollectionIfNeeded_again Scenario.services a
              (fst once) (fst twice) (snd twice) eq_refl
              (surjective_pairing twice)) as (_ & Hsame & _).
  rewrite Hsame. reflexivity.
Defined.

Lemma createS3BucketIfNeeded_again_example :
  Bootstrap.buckets
    (fst (Bootstrap.createS3BucketIfNeeded Scenario.services
            (fst (Bootstrap.createS3BucketIfNeeded Scenario.services
                    (Scenario.account None None [] [])))))
  = ["get-me-a-date-1500-7"].
Proof.
  set (a := Scenario.account None None [] []).
  set (once := Bootstrap.createS3BucketIfNeeded Scenario.services a).
  set (twice := Bootstrap.createS3BucketIfNeeded Scenario.services
                  (fst once)).
  destruct (createS3BucketIfNeeded_again Scenario.services a
              (fst once) (fst twice) (snd twice) eq_refl
              (surjective_pairing twice)) as (_ & _ & Hsame & _).
  rewrite Hsame. reflexivity.
Defined.


Lemma readMessages_last_write_wins_example :
  Messages.row_of (Messages.key_of Scenario.hello)
    (Messages.rows
       (fst (Messages.readMessages Scenario.always_stores
               [Scenario.hello; Scenario.bye; Scenario.hello_edited]
               Scenario.empty_store)))
  = Some Scenario.hello_edited.
Proof.
  set (run := Messages.readMessages Scenario.always_stores
                [Scenario.hello; Scenario.bye; Scenario.hello_edited]
                Scenario.empty_store).
  destruct (readMessages_last_write_wins Scenario.always_stores
              [Scenario.hello; Scenario.bye; Scenario.hello_edited]
              Scenario.empty_store (fst run) [tt; tt; tt] eq_refl)
    as (_ & _ & Hrows).
  rewrite Hrows. reflexivity.
Defined.

Lemma readMessages_stops_at_failure_example :
  exists done m rest,
    [Scenario.hello; Scenario.bye; Scenario.hello_edited]
    = done ++ m :: rest /\
    Messages.rows
      (fst (Messages.readMessages Scenario.second_upsert_fails
              [Scenario.hello; Scenario.bye; Scenario.hello_edited]
              Scenario.empty_store))
    = [Scenario.hello].
Proof.
  set (run := Messages.readMessages Scenario.second_upsert_fails
                [Scenario.hello; Scenario.bye; Scenario.hello_edited]
                Scenario.empty_store).
  destruct (readMessages_stops_at_failure Scenario.second_upsert_fails
              [Scenario.hello; Scenario.bye; Scenario.hello_edited]
              Scenario.empty_store (fst run) Sample.throttled eq_refl)
    as (done & m & rest & Hsplit & _).
  exists done, m, rest. split; [exact Hsplit|reflexivity].
Defined.

Lemma invalid_arguments_rejected_example :
  checkPhotosOut (Sample.env Sample.faces_by_name (inr [])) Sample.taste
    (Some EmptyString) (Some [0%nat]) Sample.candidates
  = (Sample.candidates, Rejected (Error "invalid arguments")).
Proof.
  apply (proj1 (invalid_arguments_rejected
                  (Sample.env Sample.faces_by_name (inr [])) Sample.taste
                  (Some EmptyString) Sample.candidates)).
  left. reflexivity.
Defined.

Lemma sync_rejects_only_for_example :
  exists c,
    fatal_call c /\
    In (event c (Failed Sample.throttled))
      (events_since Sample.training
         (fst (syncS3BucketAndRekognitionCollection
                 (Scenario.objects_stay
                    (Sample.env (fun _ => inl Sample.invalid_format)
                       (inr [])))
                 Sample.taste Sample.training))).
Proof.
  set (run := syncS3BucketAndRekognitionCollection
                (Scenario.objects_stay
                   (Sample.env (fun _ => inl Sample.invalid_format)
                      (inr [])))
                Sample.taste Sample.training).
  apply (proj1 (sync_rejects_only_for
                  (Scenario.objects_stay
                     (Sample.env (fun _ => inl Sample.invalid_format)
                        (inr [])))
                  Sample.taste Sample.training (fst run) (snd run)
                  (surjective_pairing run))
           Sample.throttled).
  reflexivity.
Defined.

Lemma acquireTaste_rejects_only_for_example :
  exists image,
    In (event (DeleteObject image) (Failed Sample.throttled))
      (events_since Sample.liked
         (fst (acquireTaste
                 (Scenario.objects_stay
                    (Sample.env (fun _ => inl Sample.invalid_format)
                       (inr [])))
                 Sample.taste [0%nat] Sample.liked))).
Proof.
  set (run := acquireTaste
                (Scenario.objects_stay
                   (Sample.env (fun _ => inl Sample.invalid_format)
                      (inr [])))
                Sample.taste [0%nat] Sample.liked).
  destruct (acquireTaste_rejects_only_for
              (Scenario.objects_stay
                 (Sample.env (fun _ => inl Sample.invalid_format) (inr [])))
              Sample.taste [0%nat] Sample.liked (fst run) Sample.throttled
              eq_refl)
    as [(photo & [<-|[]] & Hnone)|[(src & dst & Hcopy)|Hdelete]].
  - discriminate Hnone.
  - exfalso. vm_compute in Hcopy.
    destruct Hcopy as [H|[H|[H|[]]]]; discriminate H.
  - exact Hdelete.
Defined.

Lemma checkPhotosOut_compared_count_example :
  exists before,
    events_since Sample.candidates
      (fst (checkPhotosOut
              (Sample.env Sample.faces_by_name (inr [72%Q; 91%Q]))
              Sample.taste (Some "tinder") (Some [0; 1]%nat)
              Sample.candidates))
    = before ++ [event (LogDebug (MsgCompared 1)) Succeeded].
Proof.
  set (run := checkPhotosOut
                (Sample.env Sample.faces_by_name (inr [72%Q; 91%Q]))
                Sample.taste (Some "tinder") (Some [0; 1]%nat)
                Sample.candidates).
  destruct (snd run) as [out|e] eqn:Hr; [|vm_compute in Hr; discriminate Hr].
  assert (run = (fst run, Fulfilled out)) as Hrun
    by (rewrite <- Hr; apply surjective_pairing).
  destruct (checkPhotosOut_compared_count _ _ _ _ _ _ _ Hrun)
    as (before & _ & Hevents).
  exists before. exact Hevents.
Defined.

Lemma deleteFaces_never_rejects_example :
  exists w',
    deleteFaces
      (Scenario.faces_stay (Sample.env Sample.faces_by_name (inr [])))
      Sample.taste [0%nat] Sample.training
    = (w', Fulfilled (inr "warn")) /\
    faces w' = faces Sample.training.
Proof.
  destruct (deleteFaces_never_rejects
              (Scenario.faces_stay (Sample.env Sample.faces_by_name (inr [])))
              Sample.taste [0%nat] Sample.training)
    as (w' & deleted & Hrun & Hcases).
  exists w'. destruct Hcases as [(-> & _)|(e & -> & Hfaces & _)].
  - vm_compute in Hrun. discriminate Hrun.
  - split; [exact Hrun|exact Hfaces].
Defined.

Lemma indexFacesFromImages_one_call_per_image_example :
  Permutation
    (indexed_images
       (events_since Sample.training
          (fst (indexFacesFromImages
                  (Sample.env Sample.faces_by_name (inr [])) Sample.taste
                  ["train/tinder/one+.jpg"; "train/tinder/two++.jpg"]
                  Sample.training))))
    ["train/tinder/one+.jpg"; "train/tinder/two++.jpg"].
Proof.
  set (run := indexFacesFromImages
                (Sample.env Sample.faces_by_name (inr [])) Sample.taste
                ["train/tinder/one+.jpg"; "train/tinder/two++.jpg"]
                Sample.training).
  apply (indexFacesFromImages_one_call_per_image
           (Sample.env Sample.faces_by_name (inr [])) Sample.taste
           ["train/tinder/one+.jpg"; "train/tinder/two++.jpg"]
           Sample.training (fst run) 1%nat eq_refl).
Defined.

Lemma checkPhotosOut_again_example :
  heap
    (fst (checkPhotosOut
            (Sample.env Sample.faces_by_name (inr [72%Q; 91%Q]))
            Sample.taste (Some "tinder") (Some [0; 1]%nat)
            (fst (checkPhotosOut
                    (Sample.env Sample.faces_by_name (inr [72%Q; 91%Q]))
                    Sample.taste (Some "tinder") (Some [0; 1]%nat)
                    Sample.candidates))))
  = heap
      (fst (checkPhotosOut
              (Sample.env Sample.faces_by_name (inr [72%Q; 91%Q]))
              Sample.taste (Some "tinder") (Some [0; 1]%nat)
              Sample.candidates)).
Proof.
  set (once := checkPhotosOut
                 (Sample.env Sample.faces_by_name (inr [72%Q; 91%Q]))
                 Sample.taste (Some "tinder") (Some [0; 1]%nat)
                 Sample.candidates).
  set (twice := checkPhotosOut
                  (Sample.env Sample.faces_by_name (inr [72%Q; 91%Q]))
                  Sample.taste (Some "tinder") (Some [0; 1]%nat) (fst once)).
  assert (forall w,
            toISOString_now
              (Sample.env Sample.faces_by_name (inr [72%Q; 91%Q])) w
            <> EmptyString) as Hclock by (intros w; discriminate).
  destruct (snd once) as [out|e] eqn:Hr; [|vm_compute in Hr; discriminate Hr].
  assert (once = (fst once, Fulfilled out)) as Hrun
    by (rewrite <- Hr; apply surjective_pairing).
  apply (checkPhotosOut_again
           (Sample.env Sample.faces_by_name (inr [72%Q; 91%Q])) Sample.taste
           Hclock (Some "tinder") [0; 1]%nat Sample.candidates
           (fst once) (fst twice) out (snd twice)
           ltac:(repeat constructor; simpl; intuition discriminate) Hrun).
  - intros v Hv. pose proof Hr as Hout. vm_compute in Hout.
    inversion Hout; subst out. simpl in Hv.
    destruct Hv as [<-|[<-|[]]]; eexists; reflexivity.
  - apply surjective_pairing.
Defined.
